(** * Label-covering search over (vertex, label-subset) states

    A shallow embedding of [basic] (basic.py) and [pruned_dp] (PrunedDP.py),
    the two priority-queue searches of the repository, followed by the
    properties of the specification that were checked against them.

    Modelling choices.
    - Vertices and labels are Python strings: [string].
    - A [frozenset] of labels is a [gset string]; equality of keys of the
      visited dictionary is then set equality, as in Python.
    - Costs are Python floats that start at [0.0] and grow by edge weights.
      Weights are taken to be integers (the generator draws them from 1..10),
      so a cost is a [Z] and [float('inf')] is the extra value [Inf].  For
      integer costs the test [c > best * 2 / 3] is [2 * best < 3 * c].
    - A Python [dict] keeps insertion order, which [pruned_dp] observes when
      it iterates over [visited.items()]: dictionaries are association lists
      updated in place.
    - [heapq] is modelled as CPython implements it: a binary heap stored in a
      list, with [_siftdown] and [_siftup], ordered by Python's tuple
      comparison on [(cost, v, labels, path)].
    - The order in which Python iterates over a set is not fixed by its
      elements; [pruned_dp], which seeds one state per label of a set, takes
      this order as a parameter.
    - The [while pq] loops take fuel; that enough fuel exists is proved for
      graphs with non-negative weights.
    - A graph is the dictionary [_adj] of the fallback [Graph] class that
      both modules define for the case that networkx is missing; [add_edge],
      [__getitem__] and [graph_size] are modelled on it.
    - The calls to [random] in [generate_graph] and in the scripts are
      replaced by a record of their outcomes, over which the properties
      quantify; an exception is the value [None]. *)

From stdpp Require Import base list gmap strings pretty sorting.
From Stdlib Require Import ZArith Lia Ascii.

Definition vertex := string.
Definition label := string.
Abbreviation labelset := (gset string).

(** ** Python dictionaries, in insertion order *)

Section Dict.
Context {K V : Type} `{EqDecision K}.

Fixpoint dict_get (d : list (K * V)) (k : K) : option V :=
  match d with
  | [] => None
  | (k', v) :: d' => if decide (k' = k) then Some v else dict_get d' k
  end.

(** [d[k] = v]: an existing key keeps its position, a new key goes last. *)
Fixpoint dict_set (d : list (K * V)) (k : K) (v : V) : list (K * V) :=
  match d with
  | [] => [(k, v)]
  | (k', v') :: d' =>
      if decide (k' = k) then (k, v) :: d' else (k', v') :: dict_set d' k v
  end.

Definition dict_keys (d : list (K * V)) : list K := d.*1.
End Dict.

(** ** heapq *)

Module Heapq.
Section Heapq.
Context {A : Type} (lt : A → A → bool).

(** [(pos - 1) >> 1] *)
Definition parent (pos : nat) : nat := (pos - 1) / 2.

(** The loop of [_siftdown]; [pos] strictly decreases, so fuel [pos] is
    never exhausted before the loop condition fails. *)
Fixpoint siftdown_loop (fuel : nat) (heap : list A) (newitem : A)
    (startpos pos : nat) : list A :=
  match fuel with
  | O => <[pos := newitem]> heap
  | S fuel' =>
      if decide (startpos < pos) then
        match heap !! parent pos with
        | Some par =>
            if lt newitem par
            then siftdown_loop fuel' (<[pos := par]> heap) newitem
                   startpos (parent pos)
            else <[pos := newitem]> heap
        | None => <[pos := newitem]> heap
        end
      else <[pos := newitem]> heap
  end.

Definition siftdown (heap : list A) (startpos pos : nat) : list A :=
  match heap !! pos with
  | Some newitem => siftdown_loop pos heap newitem startpos pos
  | None => heap
  end.

(** Index of the smaller child of [pos], when [pos] has a child. *)
Definition smaller_child (heap : list A) (pos : nat) : option nat :=
  let endpos := length heap in
  let childpos := 2 * pos + 1 in
  if decide (childpos < endpos) then
    let rightpos := childpos + 1 in
    match heap !! childpos, heap !! rightpos with
    | Some l, Some r => if lt l r then Some childpos else Some rightpos
    | _, _ => Some childpos
    end
  else None.

(** The loop of [_siftup]: bubble the smaller child up until a leaf is
    reached; returns the heap and the position of the hole. *)
Fixpoint siftup_loop (fuel : nat) (heap : list A) (pos : nat)
    : list A * nat :=
  match fuel with
  | O => (heap, pos)
  | S fuel' =>
      match smaller_child heap pos with
      | Some childpos =>
          match heap !! childpos with
          | Some c => siftup_loop fuel' (<[pos := c]> heap) childpos
          | None => (heap, pos)
          end
      | None => (heap, pos)
      end
  end.

Definition siftup (heap : list A) (pos : nat) : list A :=
  match heap !! pos with
  | Some newitem =>
      let '(heap', leaf) := siftup_loop (length heap) heap pos in
      siftdown (<[leaf := newitem]> heap') pos leaf
  | None => heap
  end.

Definition heappush (heap : list A) (item : A) : list A :=
  siftdown (heap ++ [item]) 0 (length heap).

(** [None] stands for the empty heap, which the callers test for before
    they pop. *)
Definition heappop (heap : list A) : option (A * list A) :=
  match last heap with
  | None => None
  | Some lastelt =>
      match removelast heap with
      | [] => Some (lastelt, [])
      | returnitem :: rest =>
          Some (returnitem, siftup (lastelt :: rest) 0)
      end
  end.
End Heapq.
End Heapq.

(** ** Frontier entries and Python's tuple order *)

Record entry := Entry {
  e_cost : Z;
  e_v : vertex;
  e_labels : labelset;
  e_path : list vertex
}.

(** [list.__lt__] on lists of strings. *)
Fixpoint path_lt (p q : list vertex) : bool :=
  match p, q with
  | _, [] => false
  | [], _ :: _ => true
  | x :: p', y :: q' =>
      if decide (x = y) then path_lt p' q' else String.ltb x y
  end.

(** [tuple.__lt__]: the first component that differs decides; frozensets
    compare by proper inclusion. *)
Definition entry_lt (a b : entry) : bool :=
  if negb (e_cost a =? e_cost b)%Z then (e_cost a <? e_cost b)%Z
  else if negb (bool_decide (e_v a = e_v b)) then String.ltb (e_v a) (e_v b)
  else if negb (bool_decide (e_labels a = e_labels b))
       then bool_decide (e_labels a ⊂ e_labels b)
  else path_lt (e_path a) (e_path b).

Definition heappush := Heapq.heappush entry_lt.
Definition heappop := Heapq.heappop entry_lt.

(** ** Graphs, label assignments, costs *)

(** [graph._adj]: vertex -> neighbour -> attributes; the only attribute read
    is ["weight"], which may be absent. *)
Definition graph := list (vertex * list (vertex * option Z)).

Definition nodes (g : graph) : list vertex := dict_keys g.

Definition adj (g : graph) (v : vertex) : list (vertex * option Z) :=
  default [] (dict_get g v).

Definition neighbors (g : graph) (v : vertex) : list vertex :=
  dict_keys (adj g v).

(** [graph[v][u].get("weight", 1.0)]; it is only evaluated for [u] among
    [neighbors g v], where the lookup of [u] succeeds. *)
Definition edge_weight (g : graph) (v u : vertex) : Z :=
  match dict_get (adj g v) u with
  | Some (Some w) => w
  | _ => 1%Z
  end.

(** [S.get(v, set())] *)
Definition S_get (S : gmap vertex labelset) (v : vertex) : labelset :=
  default ∅ (S !! v).

Inductive cost := Fin (c : Z) | Inf.

Definition cost_ltb (a b : cost) : bool :=
  match a, b with
  | Fin x, Fin y => (x <? y)%Z
  | Fin _, Inf => true
  | Inf, _ => false
  end.

Definition cost_leb (a b : cost) : bool :=
  match a, b with
  | Fin x, Fin y => (x <=? y)%Z
  | _, Inf => true
  | Inf, Fin _ => false
  end.

Definition key := (vertex * labelset)%type.

(** [visited.get(k, float('inf'))] *)
Definition visited_get (visited : list (key * Z)) (k : key) : cost :=
  match dict_get visited k with
  | Some c => Fin c
  | None => Inf
  end.

Record state := State {
  visited : list (key * Z);
  pq : list entry;
  best_cost : cost;
  best_path : list vertex
}.

Definition init_state : state := State [] [] Inf [].

(** [visited[(v, labels)] = c; heappush(pq, (c, v, labels, path))] *)
Definition record (st : state) (c : Z) (v : vertex) (labels : labelset)
    (path : list vertex) : state :=
  State (dict_set (visited st) (v, labels) c)
        (heappush (pq st) (Entry c v labels path))
        (best_cost st) (best_path st).

Definition set_pq (st : state) (pq' : list entry) : state :=
  State (visited st) pq' (best_cost st) (best_path st).

Definition set_best (st : state) (c : Z) (path : list vertex) : state :=
  State (visited st) (pq st) (Fin c) path.

(** ** basic.py *)

Definition basic_seed (P : labelset) (S : gmap vertex labelset)
    (st : state) (v : vertex) : state :=
  let start_labels := S_get S v ∩ P in
  record st 0 v start_labels [v].

Definition basic_relax (g : graph) (P : labelset) (S : gmap vertex labelset)
    (e : entry) (st : state) (u : vertex) : state :=
  let w := edge_weight g (e_v e) u in
  let new_labels := e_labels e ∪ (S_get S u ∩ P) in
  let new_cost := (e_cost e + w)%Z in
  if cost_ltb (Fin new_cost) (visited_get (visited st) (u, new_labels))
  then record st new_cost u new_labels (e_path e ++ [u])
  else st.

(** One iteration of the [while pq] loop, after the pop. *)
Definition basic_body (g : graph) (P : labelset) (S : gmap vertex labelset)
    (e : entry) (st : state) : state :=
  if bool_decide (dict_get (visited st) (e_v e, e_labels e) ≠ Some (e_cost e))
  then st
  else if cost_leb (best_cost st) (Fin (e_cost e)) then st
  else if bool_decide (P ⊆ e_labels e) then
    if cost_ltb (Fin (e_cost e)) (best_cost st)
    then set_best st (e_cost e) (e_path e)
    else st
  else foldl (basic_relax g P S e) st (neighbors g (e_v e)).

Fixpoint basic_loop (fuel : nat) (g : graph) (P : labelset)
    (S : gmap vertex labelset) (st : state) : option (cost * list vertex) :=
  match fuel with
  | O => None
  | S fuel' =>
      match heappop (pq st) with
      | None => Some (best_cost st, best_path st)
      | Some (e, pq') => basic_loop fuel' g P S (basic_body g P S e (set_pq st pq'))
      end
  end.

Definition basic_init (g : graph) (P : labelset) (S : gmap vertex labelset)
    : state :=
  foldl (basic_seed P S) init_state (nodes g).

Definition basic (fuel : nat) (g : graph) (P : labelset)
    (S : gmap vertex labelset) : option (cost * list vertex) :=
  basic_loop fuel g P S (basic_init g P S).

(** ** PrunedDP.py *)

(** [c > best * 2 / 3] and [c <= best * 2 / 3] on integer costs. *)
Definition exceeds_two_thirds (c : Z) (best : cost) : bool :=
  match best with
  | Fin b => (2 * b <? 3 * c)%Z
  | Inf => false
  end.

Section PrunedDP.
(** The order in which Python iterates over a set of strings depends on
    their hashes; it is a parameter of the model. *)
Variable set_iter : labelset → list label.

Definition pruned_seed (v : vertex) (st : state) (lbl : label) : state :=
  let labels : labelset := {[ lbl ]} in
  if cost_leb (visited_get (visited st) (v, labels)) (Fin 0)
  then st
  else record st 0 v labels [v].

Definition pruned_seeds (P : labelset) (S : gmap vertex labelset)
    (st : state) (v : vertex) : state :=
  foldl (pruned_seed v) st (set_iter (S_get S v ∩ P)).

Definition pruned_relax (g : graph) (P : labelset)
    (S : gmap vertex labelset) (e : entry) (st : state) (u : vertex)
    : state :=
  let w := edge_weight g (e_v e) u in
  let new_cost := (e_cost e + w)%Z in
  if cost_leb (best_cost st) (Fin new_cost) then st
  else
    let new_labels := e_labels e ∪ (S_get S u ∩ P) in
    if cost_ltb (Fin new_cost) (visited_get (visited st) (u, new_labels))
    then record st new_cost u new_labels (e_path e ++ [u])
    else st.

(** The body of the loop over [list(visited.items())]. *)
Definition pruned_merge (P : labelset) (e : entry) (st : state)
    (item : key * Z) : state :=
  let '((vv, lbls), c) := item in
  let remaining := P ∖ e_labels e in
  if negb (bool_decide (vv = e_v e)) then st
  else if negb (bool_decide (lbls ⊆ remaining)) || bool_decide (lbls = ∅)
  then st
  else
    let new_labels := e_labels e ∪ lbls in
    let new_cost := (e_cost e + c)%Z in
    if negb (exceeds_two_thirds new_cost (best_cost st)) &&
       cost_ltb (Fin new_cost)
         (visited_get (visited st) (e_v e, new_labels))
    then record st new_cost (e_v e) new_labels (e_path e)
    else st.

Definition pruned_expand (g : graph) (P : labelset)
    (S : gmap vertex labelset) (e : entry) (st : state) : state :=
  let st1 := foldl (pruned_relax g P S e) st (neighbors g (e_v e)) in
  foldl (pruned_merge P e) st1 (visited st1).

Definition pruned_body (g : graph) (P : labelset)
    (S : gmap vertex labelset) (e : entry) (st : state) : state :=
  if bool_decide (dict_get (visited st) (e_v e, e_labels e) ≠ Some (e_cost e))
  then st
  else if cost_leb (best_cost st) (Fin (e_cost e)) then st
  else if bool_decide (P ⊆ e_labels e) then
    if cost_ltb (Fin (e_cost e)) (best_cost st)
    then set_best st (e_cost e) (e_path e)
    else st
  else if exceeds_two_thirds (e_cost e) (best_cost st) then st
  else pruned_expand g P S e st.

Fixpoint pruned_loop (fuel : nat) (g : graph) (P : labelset)
    (S : gmap vertex labelset) (st : state)
    : option (cost * list vertex) :=
  match fuel with
  | O => None
  | S fuel' =>
      match heappop (pq st) with
      | None => Some (best_cost st, best_path st)
      | Some (e, pq') =>
          pruned_loop fuel' g P S (pruned_body g P S e (set_pq st pq'))
      end
  end.

Definition pruned_init (g : graph) (P : labelset)
    (S : gmap vertex labelset) : state :=
  foldl (pruned_seeds P S) init_state (nodes g).

Definition pruned_dp (fuel : nat) (g : graph) (P : labelset)
    (S : gmap vertex labelset) : option (cost * list vertex) :=
  pruned_loop fuel g P S (pruned_init g P S).
End PrunedDP.

(** ** Walks and coverage *)

(** Every consecutive pair of [p] is an edge of [g]. *)
Fixpoint is_walk (g : graph) (p : list vertex) : Prop :=
  match p with
  | [] => True
  | v :: p' =>
      match p' with
      | [] => True
      | u :: _ => u ∈ neighbors g v ∧ is_walk g p'
      end
  end.

(** Sum of the weights of the consecutive edges of [p]. *)
Fixpoint walk_weight (g : graph) (p : list vertex) : Z :=
  match p with
  | [] => 0
  | v :: p' =>
      match p' with
      | [] => 0
      | u :: _ => edge_weight g v u + walk_weight g p'
      end
  end%Z.

(** Union of [S(v) ∩ P] over the vertices of [p]. *)
Definition coverage (P : labelset) (S : gmap vertex labelset)
    (p : list vertex) : labelset :=
  ⋃ ((λ v, S_get S v ∩ P) <$> p).

(** A walk of [g] that starts at a vertex of [g] and ends at [v]. *)
Definition walk (g : graph) (p : list vertex) (v : vertex) : Prop :=
  (∃ h, head p = Some h ∧ h ∈ nodes g) ∧ last p = Some v ∧ is_walk g p.

Definition covering_walk (g : graph) (P : labelset)
    (S : gmap vertex labelset) (p : list vertex) : Prop :=
  (∃ v, walk g p v) ∧ coverage P S p = P.

Definition nonneg_weights (g : graph) : Prop :=
  ∀ v u, u ∈ neighbors g v → (0 ≤ edge_weight g v u)%Z.

Definition positive_weights (g : graph) : Prop :=
  ∀ v u, u ∈ neighbors g v → (0 < edge_weight g v u)%Z.

(** Adjacency and weights are symmetric, as [add_edge] builds them. *)
Definition undirected (g : graph) : Prop :=
  ∀ v u, u ∈ neighbors g v →
    v ∈ neighbors g u ∧ edge_weight g u v = edge_weight g v u.

Definition cost_le (a b : cost) : Prop := cost_leb a b = true.
Definition cost_lt (a b : cost) : Prop := cost_ltb a b = true.

(** ** The shape shared by the two [while pq] loops *)

(** One iteration: pop the frontier, run the loop body on the popped entry. *)
Definition pop_step (body : entry → state → state) (st st' : state) : Prop :=
  ∃ e pq', heappop (pq st) = Some (e, pq') ∧ st' = body e (set_pq st pq').

Fixpoint search_loop (body : entry → state → state) (fuel : nat)
    (st : state) : option (cost * list vertex) :=
  match fuel with
  | O => None
  | S fuel' =>
      match heappop (pq st) with
      | None => Some (best_cost st, best_path st)
      | Some (e, pq') => search_loop body fuel' (body e (set_pq st pq'))
      end
  end.

(** ** Invariants of the searches *)

(** A frontier entry describes its own path. *)
Definition entry_ok (g : graph) (P : labelset) (S : gmap vertex labelset)
    (e : entry) : Prop :=
  walk g (e_path e) (e_v e) ∧
  walk_weight g (e_path e) = e_cost e ∧
  coverage P S (e_path e) = e_labels e.

Definition best_ok (g : graph) (P : labelset) (S : gmap vertex labelset)
    (st : state) : Prop :=
  match best_cost st with
  | Fin c => ∃ v labels,
      entry_ok g P S (Entry c v labels (best_path st)) ∧ P ⊆ labels
  | Inf => best_path st = []
  end.

Definition sound (g : graph) (P : labelset) (S : gmap vertex labelset)
    (st : state) : Prop :=
  Forall (entry_ok g P S) (pq st) ∧ best_ok g P S st.

(** A frontier entry for [k] that is not stale. *)
Definition live (st : state) (k : key) (c : Z) : Prop :=
  ∃ e, e ∈ pq st ∧ (e_v e, e_labels e) = k ∧ e_cost e = c.

(** The edge from [k] to [u] has been relaxed from cost [c]. *)
Definition relaxed (g : graph) (P : labelset) (S : gmap vertex labelset)
    (vis : list (key * Z)) (k : key) (c : Z) (u : vertex) : Prop :=
  ∃ c', dict_get vis (u, k.2 ∪ (S_get S u ∩ P)) = Some c' ∧
        (c' ≤ c + edge_weight g k.1 u)%Z.

(** A visited state is waiting in the frontier, or cannot improve the
    answer, or has had the edges in [us] relaxed. *)
Definition settled (g : graph) (P : labelset) (S : gmap vertex labelset)
    (st : state) (k : key) (c : Z) (us : list vertex) : Prop :=
  live st k c ∨ cost_le (best_cost st) (Fin c) ∨
  (¬ P ⊆ k.2 ∧ ∀ u, u ∈ us → relaxed g P S (visited st) k c u).

Definition seeded (P : labelset) (S : gmap vertex labelset) (st : state)
    (vs : list vertex) : Prop :=
  ∀ v, v ∈ vs →
    ∃ c, dict_get (visited st) (v, S_get S v ∩ P) = Some c ∧ (c ≤ 0)%Z.

Definition complete (g : graph) (P : labelset) (S : gmap vertex labelset)
    (st : state) : Prop :=
  seeded P S st (nodes g) ∧
  ∀ k c, dict_get (visited st) k = Some c →
    settled g P S st k c (neighbors g k.1).

(** Every change of an entry of the visited table is a strict decrease. *)
Definition improves (vis vis' : list (key * Z)) : Prop :=
  ∀ k, dict_get vis' k = dict_get vis k ∨
       ∃ c', dict_get vis' k = Some c' ∧ cost_lt (Fin c') (visited_get vis k).

(** While the edges of the popped entry [e] are being relaxed, its own state
    has had the edges in [us] relaxed so far. *)
Definition expanding (g : graph) (P : labelset) (S : gmap vertex labelset)
    (e : entry) (us : list vertex) (st : state) : Prop :=
  ∀ k c, dict_get (visited st) k = Some c →
    settled g P S st k c (neighbors g k.1) ∨
    (k = (e_v e, e_labels e) ∧ c = e_cost e ∧ settled g P S st k c us).

(** ** Termination measure *)

(** All subsets of the set of the labels in [l]. *)
Fixpoint powerlist (l : list label) : list labelset :=
  match l with
  | [] => [∅]
  | x :: l' => powerlist l' ++ ((λ X, {[x]} ∪ X) <$> powerlist l')
  end.

Definition all_vertices (g : graph) : list vertex :=
  nodes g ++ mjoin ((λ a, dict_keys a.2) <$> g).

(** The search states [(v, labels)] with [v] in the graph and
    [labels ⊆ P]. *)
Definition universe (g : graph) (P : labelset) : list key :=
  cprod (all_vertices g) (powerlist (elements P)).

Definition in_universe (g : graph) (P : labelset) (k : key) : Prop :=
  k.1 ∈ all_vertices g ∧ k.2 ⊆ P.

Fixpoint vis_sum (vis : list (key * Z)) : nat :=
  match vis with
  | [] => 0
  | (_, c) :: vis' => Z.to_nat c + vis_sum vis'
  end.

(** Unvisited states first, then total recorded cost plus frontier size. *)
Definition measure (g : graph) (P : labelset) (st : state) : nat * nat :=
  (length (universe g P) - length (visited st),
   vis_sum (visited st) + length (pq st)).

Definition lexlt (a b : nat * nat) : Prop :=
  a.1 < b.1 ∨ (a.1 = b.1 ∧ a.2 < b.2).

Definition lexle (a b : nat * nat) : Prop :=
  a.1 < b.1 ∨ (a.1 = b.1 ∧ a.2 ≤ b.2).

Definition bounded (g : graph) (P : labelset) (st : state) : Prop :=
  NoDup (dict_keys (visited st)) ∧
  (∀ k c, (k, c) ∈ visited st → (0 ≤ c)%Z ∧ in_universe g P k) ∧
  (∀ e, e ∈ pq st → (0 ≤ e_cost e)%Z ∧ in_universe g P (e_v e, e_labels e)).

(** ** Checkable forms of the conditions on graphs *)

Definition edges_forall (f : vertex → vertex → bool) (g : graph) : bool :=
  forallb (λ va, forallb (f va.1) (dict_keys va.2)) g.

Definition nonneg_weightsb (g : graph) : bool :=
  edges_forall (λ v u, 0 <=? edge_weight g v u)%Z g.

Definition positive_weightsb (g : graph) : bool :=
  edges_forall (λ v u, 0 <? edge_weight g v u)%Z g.


(** ** Invariants of the pruned mode *)

(** A state of the pruned search stands for a connected part of the graph
    that contains [v] and collects [labels]: a closed walk through [v]
    traverses it, at no more than twice its cost. *)
Definition tree_ok (g : graph) (P : labelset) (S : gmap vertex labelset)
    (v : vertex) (labels : labelset) (c : Z) : Prop :=
  ∃ p, walk g p v ∧ head p = Some v ∧ labels ⊆ coverage P S p ∧
       (walk_weight g p ≤ 2 * c)%Z.

(** The invariant of the pruned search, for a property [Q] of its states
    [(v, labels)] and their costs. *)
Definition pruned_inv (Q : vertex → labelset → Z → Prop) (P : labelset)
    (st : state) : Prop :=
  (∀ e, e ∈ pq st → Q (e_v e) (e_labels e) (e_cost e)) ∧
  (∀ k c, (k, c) ∈ visited st → Q k.1 k.2 c) ∧
  match best_cost st with
  | Fin c => ∃ v labels, Q v labels c ∧ P ⊆ labels
  | Inf => best_path st = []
  end.

(** [Q] holds of the seeds and is kept by the relaxation of an edge and by
    the merge of two states at a vertex. *)
Definition search_closed (g : graph) (P : labelset)
    (S : gmap vertex labelset) (Q : vertex → labelset → Z → Prop) : Prop :=
  (∀ v lbl, v ∈ nodes g → lbl ∈ S_get S v ∩ P → Q v {[lbl]} 0%Z) ∧
  (∀ v labels c u, Q v labels c → u ∈ neighbors g v →
     Q u (labels ∪ (S_get S u ∩ P)) (c + edge_weight g v u)%Z) ∧
  (∀ v labels1 c1 labels2 c2,
     Q v labels1 c1 → Q v labels2 c2 →
     ¬ P ⊆ labels1 → labels2 ⊆ P ∖ labels1 → labels2 ≠ ∅ →
     Q v (labels1 ∪ labels2) (c1 + c2)%Z).


(** The iteration order of a set enumerates its elements. *)
Definition set_iter_ok (set_iter : labelset → list label) : Prop :=
  ∀ X, set_iter X ≡ₚ elements X.


(** ** Brute-force reference: enumeration of the walks of bounded length *)

(** The walks that start at [v] and have at most [n] edges. *)
Fixpoint walks_from (g : graph) (n : nat) (v : vertex)
    : list (list vertex) :=
  match n with
  | O => [[v]]
  | Datatypes.S n' =>
      [v] :: ((λ p, v :: p) <$> mjoin (walks_from g n' <$> neighbors g v))
  end.

Definition walks_upto (g : graph) (n : nat) : list (list vertex) :=
  mjoin (walks_from g n <$> nodes g).

Definition cost_min (a b : cost) : cost := if cost_leb a b then a else b.

(** The least weight of a walk with at most [n] edges that covers [P]. *)
Definition brute_force (g : graph) (P : labelset)
    (S : gmap vertex labelset) (n : nat) : cost :=
  foldr cost_min Inf
    ((λ p, Fin (walk_weight g p)) <$>
       filter (λ p, coverage P S p = P) (walks_upto g n)).

(** ** The paths of the pruned mode *)

(** The path of a frontier entry is a walk of the graph that ends at the
    vertex of the entry and, on non-negative weights, weighs no more than
    the entry costs. *)
Definition entry_walk (g : graph) (e : entry) : Prop :=
  walk g (e_path e) (e_v e) ∧
  (nonneg_weights g → (walk_weight g (e_path e) ≤ e_cost e)%Z).

Definition walks_inv (g : graph) (st : state) : Prop :=
  (∀ e, e ∈ pq st → entry_walk g e) ∧
  (nonneg_weights g → ∀ k c, (k, c) ∈ visited st → (0 ≤ c)%Z) ∧
  match best_cost st with
  | Fin c => ∃ v labels, entry_walk g (Entry c v labels (best_path st))
  | Inf => best_path st = []
  end.


(** ** The heap order of the frontier *)

(** The heap invariant of [heapq], read through a key: no item has a key
    below its parent's. *)
Definition heap_by {A} (key : A → Z) (heap : list A) : Prop :=
  ∀ i x y, 0 < i → heap !! i = Some x → heap !! Heapq.parent i = Some y →
    (key y ≤ key x)%Z.

(** The same while a sift moves a hole through the heap: the invariant
    holds of all pairs away from [pos], and across [pos] from its parent to
    its children.  The item at [pos] is not looked at. *)
Definition hole_heap {A} (key : A → Z) (heap : list A) (pos : nat) : Prop :=
  (∀ i x y, 0 < i → i ≠ pos → Heapq.parent i ≠ pos →
     heap !! i = Some x → heap !! Heapq.parent i = Some y →
     (key y ≤ key x)%Z) ∧
  (∀ c x y, 0 < c → Heapq.parent c = pos → 0 < pos →
     heap !! c = Some x → heap !! Heapq.parent pos = Some y →
     (key y ≤ key x)%Z).

(** The frontier is a heap by cost. *)
Definition cost_heap (h : list entry) : Prop := heap_by e_cost h.


(** Either no solution has been found yet, or every frontier entry costs at
    least as much as the solution found. *)
Definition drain_inv (st : state) : Prop :=
  cost_heap (pq st) ∧
  match best_cost st with
  | Fin b => ∀ e, e ∈ pq st → (b ≤ e_cost e)%Z
  | Inf => True
  end.

(** ** Completeness of the pruned mode *)










(** ** The pruned mode without its pruning *)

(** The loop body of [pruned_dp] with the three tests against [best_cost]
    taken out: [if new_cost >= best_cost: continue] of the expansion,
    [new_cost <= best_cost * 2 / 3] of the merge and
    [if cost > best_cost * 2 / 3: continue] of the loop.  Everything else is
    as in [pruned_relax], [pruned_merge], [pruned_expand], [pruned_body]. *)
Definition unpruned_relax (g : graph) (P : labelset)
    (S : gmap vertex labelset) (e : entry) (st : state) (u : vertex)
    : state :=
  let w := edge_weight g (e_v e) u in
  let new_cost := (e_cost e + w)%Z in
  let new_labels := e_labels e ∪ (S_get S u ∩ P) in
  if cost_ltb (Fin new_cost) (visited_get (visited st) (u, new_labels))
  then record st new_cost u new_labels (e_path e ++ [u])
  else st.

Definition unpruned_merge (P : labelset) (e : entry) (st : state)
    (item : key * Z) : state :=
  let '((vv, lbls), c) := item in
  let remaining := P ∖ e_labels e in
  if negb (bool_decide (vv = e_v e)) then st
  else if negb (bool_decide (lbls ⊆ remaining)) || bool_decide (lbls = ∅)
  then st
  else
    let new_labels := e_labels e ∪ lbls in
    let new_cost := (e_cost e + c)%Z in
    if cost_ltb (Fin new_cost)
         (visited_get (visited st) (e_v e, new_labels))
    then record st new_cost (e_v e) new_labels (e_path e)
    else st.

Definition unpruned_expand (g : graph) (P : labelset)
    (S : gmap vertex labelset) (e : entry) (st : state) : state :=
  let st1 := foldl (unpruned_relax g P S e) st (neighbors g (e_v e)) in
  foldl (unpruned_merge P e) st1 (visited st1).

Definition unpruned_body (g : graph) (P : labelset)
    (S : gmap vertex labelset) (e : entry) (st : state) : state :=
  if bool_decide (dict_get (visited st) (e_v e, e_labels e) ≠ Some (e_cost e))
  then st
  else if cost_leb (best_cost st) (Fin (e_cost e)) then st
  else if bool_decide (P ⊆ e_labels e) then
    if cost_ltb (Fin (e_cost e)) (best_cost st)
    then set_best st (e_cost e) (e_path e)
    else st
  else unpruned_expand g P S e st.

Definition unpruned_dp (set_iter : labelset → list label) (fuel : nat)
    (g : graph) (P : labelset) (S : gmap vertex labelset)
    : option (cost * list vertex) :=
  search_loop (unpruned_body g P S) fuel (pruned_init set_iter g P S).


(** ** The fallback [Graph] class, [graph_size] and [generate_graph] *)

(** [self._adj[v]] on the [defaultdict(dict)], and [_adj.setdefault(v, {})]:
    a missing vertex is entered with an empty adjacency. *)
Definition adj_default (g : graph) (v : vertex) : graph :=
  match dict_get g v with
  | Some _ => g
  | None => dict_set g v []
  end.

(** [Graph.__getitem__]: the adjacency of [item], and the graph after the
    access. *)
Definition getitem (g : graph) (item : vertex)
    : list (vertex * option Z) * graph :=
  (adj g item, adj_default g item).

(** [Graph.add_edge(u, v, weight)]:
    [_adj[u][v] = {"weight": weight}; _adj[v][u] = {"weight": weight}]. *)
Definition add_edge (g : graph) (u v : vertex) (weight : Z) : graph :=
  let g1 := dict_set g u (dict_set (adj g u) v (Some weight)) in
  dict_set g1 v (dict_set (adj g1 v) u (Some weight)).

(** [sum(len(graph[v]) for v in graph.nodes())] *)
Definition degree_sum (g : graph) : nat :=
  sum_list ((λ v, length (adj g v)) <$> nodes g).

(** [graph_size], on the fallback class (the branch without
    [number_of_nodes]). *)
Definition graph_size (g : graph) : nat * nat :=
  let num_nodes := length (nodes g) in
  let num_edges := degree_sum g / 2 in
  (num_nodes, num_edges).

(** The graphs that the class builds: [Graph()], then [setdefault] and
    [add_edge] calls. *)
Inductive built : graph → Prop :=
  | built_empty : built []
  | built_node g v : built g → built (adj_default g v)
  | built_edge g u v w : built g → built (add_edge g u v w).

(** The same without an edge from a vertex to itself. *)
Inductive simple : graph → Prop :=
  | simple_empty : simple []
  | simple_node g v : simple g → simple (adj_default g v)
  | simple_edge g u v w : simple g → u ≠ v → simple (add_edge g u v w).

(** The outcomes of the calls to [random]: the numbers behind the
    [randint] draws, the positions that [random.sample] picks for the
    vertex [i], and whether [random.random() < edge_prob] for the pair
    [i < j]. *)
Record randomness := Randomness {
  raw_k : nat → nat;
  positions : nat → list nat;
  coin : nat → nat → bool;
  raw_weight : nat → nat → nat
}.

(** [random.randint(a, b)], a value between [a] and [b] inclusive. *)
Definition randint (a b raw : nat) : nat := a + raw mod (b - a + 1).

(** [f"v{i}"] *)
Definition vertex_name (i : nat) : vertex := "v" +:+ pretty i.

(** [random.sample(population, k)]: [None] stands for the [ValueError]
    raised when the sample is larger than the population. *)
Definition sample (population : list label) (k : nat) (pos : list nat)
    : option (list label) :=
  if decide (k ≤ length population)
  then Some (omap (λ i, population !! i) pos)
  else None.

(** The loop that assigns labels; [kmax] is the upper bound of the draw of
    [k]. *)
Fixpoint assign_labels (label_pool : list label) (kmax : nat)
    (rnd : randomness) (todo : list nat) (labels : gmap vertex labelset)
    : option (gmap vertex labelset) :=
  match todo with
  | [] => Some labels
  | i :: todo' =>
      let k := randint 1 kmax (raw_k rnd i) in
      match sample label_pool k (positions rnd i) with
      | None => None
      | Some l =>
          assign_labels label_pool kmax rnd todo'
            (<[vertex_name i := list_to_set l]> labels)
      end
  end.

(** The two nested loops that create the random edges. *)
Definition random_edges (num_vertices : nat) (rnd : randomness)
    (g : graph) : graph :=
  foldl (λ g i,
    foldl (λ g j,
      if coin rnd i j
      then add_edge g (vertex_name i) (vertex_name j)
             (Z.of_nat (randint 1 10 (raw_weight rnd i j)))
      else g)
      g (seq (i + 1) (num_vertices - (i + 1))))
    g (seq 0 num_vertices).

Definition generate (num_vertices : nat) (label_pool : list label)
    (kmax : nat) (rnd : randomness)
    : option (graph * gmap vertex labelset) :=
  let vertices := vertex_name <$> seq 0 num_vertices in
  let g := foldl adj_default [] vertices in
  match assign_labels label_pool kmax rnd (seq 0 num_vertices) ∅ with
  | None => None
  | Some labels => Some (random_edges num_vertices rnd g, labels)
  end.

(** [[chr(ord("a") + i) for i in range(n)]] *)
Definition letters (n : nat) : list label :=
  (λ i, String (Ascii.ascii_of_nat (Ascii.nat_of_ascii "a"%char + i)) EmptyString)
    <$> seq 0 n.

(** [generate_graph] of basic.py: six labels by default,
    [k = random.randint(1, max(1, len(label_pool) // 2))]. *)
Definition generate_graph_basic (num_vertices : nat)
    (label_pool : option (list label)) (rnd : randomness)
    : option (graph * gmap vertex labelset) :=
  let label_pool := default (letters 6) label_pool in
  generate num_vertices label_pool (1 `max` (length label_pool / 2)) rnd.

(** [generate_graph] of PrunedDP.py: twenty labels by default,
    [k = random.randint(1, max(1, 2))]. *)
Definition generate_graph_pruned (num_vertices : nat)
    (label_pool : option (list label)) (rnd : randomness)
    : option (graph * gmap vertex labelset) :=
  let label_pool := default (letters 20) label_pool in
  generate num_vertices label_pool (1 `max` 2) rnd.

(** ** The scripts *)

(** The order of Python's strings. *)
Definition str_le (a b : string) : Prop := String.leb a b = true.

Instance str_le_dec : RelDecision str_le :=
  λ a b, decide (String.leb a b = true).

(** [sorted({p for lbls in labels.values() for p in lbls})] *)
Definition all_labels (labels : gmap vertex labelset) : list label :=
  merge_sort str_le (elements (⋃ (map_to_list labels).*2)).

(** The [__main__] block of basic.py, run with [--nodes nodes]: the values
    that it prints.  [qpos] stands for the positions that [random.sample]
    picks for the query; [None] stands for an exception, or for a search
    that is cut off by the fuel. *)
Definition main_basic (nodes : nat) (rnd : randomness) (qpos : list nat)
    (fuel : nat) : option (nat * nat * labelset * cost * list vertex) :=
  match generate_graph_basic nodes None rnd with
  | None => None
  | Some (G, labels) =>
      let '(n, m) := graph_size G in
      let all_labels := all_labels labels in
      match sample all_labels (4 `min` length all_labels) qpos with
      | None => None
      | Some q =>
          let query : labelset := list_to_set q in
          match basic fuel G query labels with
          | None => None
          | Some (cost, path) => Some (n, m, query, cost, path)
          end
      end
  end.

(** The [__main__] block of PrunedDP.py. *)
Definition main_pruned (set_iter : labelset → list label) (nodes : nat)
    (rnd : randomness) (qpos : list nat) (fuel : nat)
    : option (labelset * cost * list vertex) :=
  match generate_graph_pruned nodes None rnd with
  | None => None
  | Some (G, labels) =>
      let all_labels := all_labels labels in
      match sample all_labels (5 `min` length all_labels) qpos with
      | None => None
      | Some q =>
          let query : labelset := list_to_set q in
          match pruned_dp set_iter fuel G query labels with
          | None => None
          | Some (cost, path) => Some (query, cost, path)
          end
      end
  end.


(** The pairs [(i, j)] with [i < j < n], in the order of the two loops. *)
Definition pairs (n : nat) : list (nat * nat) :=
  i ← seq 0 n; (λ j, (i, j)) <$> seq (i + 1) (n - (i + 1)).

(** One turn of the inner loop of [generate_graph]. *)
Definition random_edge (rnd : randomness) (g : graph) (p : nat * nat)
    : graph :=
  if coin rnd p.1 p.2
  then add_edge g (vertex_name p.1) (vertex_name p.2)
         (Z.of_nat (randint 1 10 (raw_weight rnd p.1 p.2)))
  else g.


(** What [random.sample] guarantees of the positions it picks. *)
Definition sample_ok (label_pool : list label) (kmax : nat)
    (rnd : randomness) (num_vertices : nat) : Prop :=
  ∀ i, i < num_vertices →
    length (positions rnd i) = randint 1 kmax (raw_k rnd i) ∧
    NoDup (positions rnd i) ∧
    ∀ p, p ∈ positions rnd i → p < length label_pool.

(** Every vertex next to another is a vertex of the graph, and no key
    occurs twice. *)
Definition well_formed (g : graph) : Prop :=
  NoDup (nodes g) ∧
  (∀ v, NoDup (neighbors g v)) ∧
  (∀ v u, u ∈ neighbors g v → u ∈ nodes g) ∧
  undirected g.

Definition loop_free (g : graph) : Prop := ∀ v, v ∉ neighbors g v.


(** ** Example inputs *)

Definition xy : labelset := {["x"; "y"]}.
Definition xyz : labelset := {["x"; "y"; "z"]}.

(** The triangle of the specification: A-B of weight 2, B-C of weight 3,
    A-C of weight 10. *)
Definition triangle : graph :=
  [("A", [("B", Some 2%Z); ("C", Some 10%Z)]);
   ("B", [("A", Some 2%Z); ("C", Some 3%Z)]);
   ("C", [("B", Some 3%Z); ("A", Some 10%Z)])].
Definition triangle_S : gmap vertex labelset :=
  <["A" := {["x"]}]> (<["B" := {["y"]}]> (<["C" := ∅]> ∅)).

(** A star: the centre ["m"] without label, three leaves with one label
    each, edges of weight 1. *)
Definition star : graph :=
  [("a", [("m", Some 1%Z)]);
   ("m", [("a", Some 1%Z); ("b", Some 1%Z); ("c", Some 1%Z)]);
   ("b", [("m", Some 1%Z)]);
   ("c", [("m", Some 1%Z)])].
Definition star_S : gmap vertex labelset :=
  <["a" := {["x"]}]> (<["b" := {["y"]}]> (<["c" := {["z"]}]> ∅)).


(** Two vertices without an edge, one label each. *)
Definition apart : graph := [("a", []); ("b", [])].
Definition apart_S : gmap vertex labelset :=
  <["a" := {["x"]}]> (<["b" := {["y"]}]> ∅).

(** A frontier whose only entry costs as much as the best solution. *)
Definition late_state : state :=
  State [(("a", {["x"]}), 3%Z)] [Entry 3 "a" {["x"]} ["a"]] (Fin 3) ["b"].

(** Two partial solutions recorded at ["m"]. *)
Definition meet_state : state :=
  State [(("m", {["x"]}), 1%Z); (("m", {["y"]}), 1%Z)] [] Inf [].
Definition meet_entry : entry := Entry 1 "m" {["x"]} ["a"; "m"].

(** The draws of a run of [generate_graph] with three vertices: one label
    for every vertex, the label at the position of the vertex; the edges
    [v0 - v1] and [v1 - v2]. *)
Definition dice : randomness :=
  Randomness (λ _, 0) (λ i, [i]) (λ i j, bool_decide (j = i + 1))
             (λ i j, i + j).

(** The graph and the labels that [generate_graph] makes of these draws. *)
Definition chain : graph :=
  [("v0", [("v1", Some 2%Z)]);
   ("v1", [("v0", Some 2%Z); ("v2", Some 4%Z)]);
   ("v2", [("v1", Some 4%Z)])].
Definition chain_S : gmap vertex labelset :=
  <["v0" := {["a"]}]> (<["v1" := {["b"]}]> (<["v2" := {["c"]}]> ∅)).



(** The state after the first turn of a loop. *)
Definition first_pop (body : entry → state → state) (st : state) : state :=
  match heappop (pq st) with
  | Some (e, pq') => body e (set_pq st pq')
  | None => st
  end.

(** A frontier of three entries, built by pushes. *)
Definition three_entries : list entry :=
  heappush (heappush (heappush [] (Entry 2 "b" {["y"]} ["b"]))
                     (Entry 0 "a" {["x"]} ["a"]))
           (Entry 1 "c" ∅ ["a"; "c"]).


(** * Facts about the model *)

(** ** heapq keeps the multiset of its items *)

Section heapq_facts.
Context {A : Type} (lt : A → A → bool).
Implicit Types (heap : list A) (x : A).

Lemma insert_swap heap i a x :
  heap !! i = Some a → a :: <[i := x]> heap ≡ₚ x :: heap.
Proof.
  revert i. induction heap as [|y heap IH]; intros [|i] Hi; simplify_eq/=.
  - apply perm_swap.
  - etrans; [apply perm_swap|]. etrans; [|apply perm_swap].
    f_equiv. by apply IH.
Qed.

(** Cancelling the stale copy [b] that a sift leaves in the hole. *)
Lemma hole_cancel (a b c : A) (l1 l2 l3 : list A) :
  b :: l1 ≡ₚ c :: l2 → a :: l2 ≡ₚ b :: l3 → a :: l1 ≡ₚ c :: l3.
Proof.
  intros H1 H2. apply (Permutation_cons_inv (a := b)).
  etrans; [apply perm_swap|]. rewrite H1.
  etrans; [apply perm_swap|]. rewrite H2. apply perm_swap.
Qed.

Lemma parent_lt pos : 0 < pos → Heapq.parent pos < pos.
Proof.
  intros Hpos. unfold Heapq.parent.
  apply Nat.lt_le_trans with (S (pos - 1)); [|lia].
  apply Nat.lt_succ_r, Nat.Div0.div_le_upper_bound. lia.
Qed.

Lemma siftdown_loop_perm fuel heap newitem startpos pos d :
  heap !! pos = Some d →
  d :: Heapq.siftdown_loop lt fuel heap newitem startpos pos
    ≡ₚ newitem :: heap.
Proof.
  revert heap pos d.
  induction fuel as [|fuel IH]; intros heap pos d Hd; simpl.
  { by apply insert_swap. }
  destruct (decide (startpos < pos)) as [Hlt|]; [|by apply insert_swap].
  destruct (heap !! Heapq.parent pos) as [par|] eqn:Hpar;
    [|by apply insert_swap].
  destruct (lt newitem par); [|by apply insert_swap].
  assert (Heapq.parent pos ≠ pos) as Hne.
  { pose proof (parent_lt pos). lia. }
  assert (<[pos := par]> heap !! Heapq.parent pos = Some par) as Hpar'.
  { by rewrite list_lookup_insert_ne. }
  eapply hole_cancel; [by apply IH | by apply insert_swap].
Qed.

Lemma siftdown_perm heap startpos pos :
  Heapq.siftdown lt heap startpos pos ≡ₚ heap.
Proof.
  unfold Heapq.siftdown. destruct (heap !! pos) as [d|] eqn:Hd; [|done].
  apply (Permutation_cons_inv (a := d)). by apply siftdown_loop_perm.
Qed.

Lemma smaller_child_gt heap pos c :
  Heapq.smaller_child lt heap pos = Some c → pos < c.
Proof.
  unfold Heapq.smaller_child. intros H.
  repeat (case_match; simplify_eq); lia.
Qed.

Lemma siftup_loop_perm fuel heap pos d heap' leaf :
  heap !! pos = Some d →
  Heapq.siftup_loop lt fuel heap pos = (heap', leaf) →
  ∃ d', heap' !! leaf = Some d' ∧ d :: heap' ≡ₚ d' :: heap.
Proof.
  revert heap pos d.
  induction fuel as [|fuel IH]; intros heap pos d Hd Hrun; simpl in Hrun.
  { simplify_eq. eauto. }
  destruct (Heapq.smaller_child lt heap pos) as [c|] eqn:Hc;
    [|simplify_eq; eauto].
  destruct (heap !! c) as [x|] eqn:Hx; [|simplify_eq; eauto].
  apply smaller_child_gt in Hc.
  assert (<[pos := x]> heap !! c = Some x) as Hx'.
  { rewrite list_lookup_insert_ne; [done | lia]. }
  destruct (IH _ _ _ Hx' Hrun) as (d' & Hd' & Hperm).
  exists d'. split; [done|].
  eapply hole_cancel; [exact Hperm | by apply insert_swap].
Qed.

Lemma siftup_perm heap pos : Heapq.siftup lt heap pos ≡ₚ heap.
Proof.
  unfold Heapq.siftup. destruct (heap !! pos) as [d|] eqn:Hd; [|done].
  destruct (Heapq.siftup_loop lt (length heap) heap pos)
    as [heap' leaf] eqn:Hrun.
  destruct (siftup_loop_perm _ _ _ _ _ _ Hd Hrun) as (d' & Hd' & Hperm).
  rewrite siftdown_perm.
  apply (Permutation_cons_inv (a := d')).
  rewrite (insert_swap _ _ _ _ Hd'). done.
Qed.

Lemma heappush_perm heap x : Heapq.heappush lt heap x ≡ₚ x :: heap.
Proof.
  unfold Heapq.heappush. rewrite siftdown_perm.
  by rewrite Permutation_app_comm.
Qed.

Lemma heappop_perm heap x heap' :
  Heapq.heappop lt heap = Some (x, heap') → x :: heap' ≡ₚ heap.
Proof.
  unfold Heapq.heappop. intros Hpop.
  destruct (last heap) as [lastelt|] eqn:Hlast; [|done].
  apply last_Some in Hlast as [front ->].
  rewrite removelast_last in Hpop.
  destruct front as [|returnitem rest]; simplify_eq/=; [done|].
  rewrite siftup_perm. f_equiv. by rewrite Permutation_app_comm.
Qed.

Lemma heappop_None heap : Heapq.heappop lt heap = None ↔ heap = [].
Proof.
  unfold Heapq.heappop. split; [|by intros ->].
  destruct (last heap) eqn:Hlast.
  - by destruct (removelast heap).
  - intros _. by apply last_None.
Qed.
(** The fuel given to the two sift loops is never exhausted: any larger
    amount gives the same heap. *)
Lemma siftdown_loop_fuel fuel1 fuel2 heap newitem startpos pos :
  pos ≤ fuel1 → pos ≤ fuel2 →
  Heapq.siftdown_loop lt fuel1 heap newitem startpos pos =
  Heapq.siftdown_loop lt fuel2 heap newitem startpos pos.
Proof.
  revert fuel2 heap pos.
  induction fuel1 as [|fuel1 IH]; intros [|fuel2] heap pos H1 H2; simpl;
    try done.
  - destruct (decide (startpos < pos)); [lia | done].
  - destruct (decide (startpos < pos)); [lia | done].
  - destruct (decide (startpos < pos)) as [Hlt|]; [|done].
    destruct (heap !! Heapq.parent pos) as [par|]; [|done].
    destruct (lt newitem par); [|done].
    pose proof (parent_lt pos). apply IH; lia.
Qed.

Lemma siftup_loop_fuel fuel1 fuel2 heap pos :
  length heap ≤ pos + fuel1 → length heap ≤ pos + fuel2 →
  Heapq.siftup_loop lt fuel1 heap pos = Heapq.siftup_loop lt fuel2 heap pos.
Proof.
  assert (∀ heap pos, length heap ≤ pos →
            Heapq.smaller_child lt heap pos = None) as Hleaf.
  { intros h p Hp. unfold Heapq.smaller_child.
    destruct (decide (2 * p + 1 < length h)); [lia | done]. }
  revert fuel2 heap pos.
  induction fuel1 as [|fuel1 IH]; intros [|fuel2] heap pos H1 H2; simpl;
    try done.
  - rewrite Hleaf by lia. done.
  - rewrite Hleaf by lia. done.
  - destruct (Heapq.smaller_child lt heap pos) as [c|] eqn:Hc; [|done].
    destruct (heap !! c) as [x|]; [|done].
    apply smaller_child_gt in Hc.
    apply IH; rewrite length_insert; lia.
Qed.

End heapq_facts.

(** ** Dictionaries *)

Section dict_facts.
Context {K V : Type} `{EqDecision K}.
Implicit Types (d : list (K * V)) (k : K) (v : V).

Lemma dict_get_set d k v k' :
  dict_get (dict_set d k v) k' =
    if decide (k = k') then Some v else dict_get d k'.
Proof.
  induction d as [|[k0 v0] d IH]; simpl.
  - repeat case_decide; congruence.
  - destruct (decide (k0 = k)) as [->|]; simpl.
    + repeat case_decide; congruence.
    + rewrite IH. repeat case_decide; congruence.
Qed.

Lemma dict_get_set_eq d k v : dict_get (dict_set d k v) k = Some v.
Proof. rewrite dict_get_set. by case_decide. Qed.

Lemma dict_get_set_ne d k v k' :
  k ≠ k' → dict_get (dict_set d k v) k' = dict_get d k'.
Proof. intros. rewrite dict_get_set. by case_decide. Qed.

Lemma dict_get_Some_elem d k v : dict_get d k = Some v → (k, v) ∈ d.
Proof.
  induction d as [|[k0 v0] d IH]; simpl; [done|].
  case_decide; intros; simplify_eq; [left | right; auto].
Qed.

Lemma dict_get_None d k : dict_get d k = None ↔ k ∉ dict_keys d.
Proof.
  unfold dict_keys. induction d as [|[k0 v0] d IH]; simpl.
  - split; [intros _; apply not_elem_of_nil | done].
  - rewrite not_elem_of_cons. case_decide; naive_solver.
Qed.

Lemma dict_elem_key d k v : (k, v) ∈ d → k ∈ dict_keys d.
Proof. intros H. apply list_elem_of_fmap. by exists (k, v). Qed.

Lemma dict_elem_get d k v :
  (k, v) ∈ d → ∃ v', dict_get d k = Some v'.
Proof.
  intros H%dict_elem_key. destruct (dict_get d k) eqn:E; [eauto|].
  by apply dict_get_None in E.
Qed.

Lemma dict_keys_set d k v :
  dict_keys (dict_set d k v) =
    match dict_get d k with
    | Some _ => dict_keys d
    | None => dict_keys d ++ [k]
    end.
Proof.
  unfold dict_keys. induction d as [|[k0 v0] d IH]; simpl; [done|].
  case_decide; simplify_eq/=; [done|].
  rewrite IH. by destruct (dict_get d k).
Qed.

Lemma dict_set_NoDup d k v :
  NoDup (dict_keys d) → NoDup (dict_keys (dict_set d k v)).
Proof.
  intros Hnd. rewrite dict_keys_set.
  destruct (dict_get d k) eqn:E; [done|].
  apply NoDup_app. split_and!; [done | | apply NoDup_singleton].
  intros x Hx ->%list_elem_of_singleton. by apply dict_get_None in E.
Qed.

Lemma dict_set_elem d k v k' v' :
  (k', v') ∈ dict_set d k v → (k' = k ∧ v' = v) ∨ (k', v') ∈ d.
Proof.
  induction d as [|[k0 v0] d IH]; simpl.
  - intros ?%list_elem_of_singleton. simplify_eq. by left.
  - case_decide; rewrite !elem_of_cons; naive_solver.
Qed.
End dict_facts.

(** ** Costs *)

Lemma cost_leb_ltb a b : cost_leb a b = negb (cost_ltb b a).
Proof. destruct a, b; simpl; try done. apply Z.leb_antisym. Qed.

Lemma cost_le_Fin x y : cost_le (Fin x) (Fin y) ↔ (x ≤ y)%Z.
Proof. unfold cost_le; simpl. apply Z.leb_le. Qed.

Lemma cost_lt_Fin x y : cost_lt (Fin x) (Fin y) ↔ (x < y)%Z.
Proof. unfold cost_lt; simpl. apply Z.ltb_lt. Qed.

Lemma cost_le_trans a b c : cost_le a b → cost_le b c → cost_le a c.
Proof.
  unfold cost_le. destruct a, b, c; simpl; try done.
  rewrite !Z.leb_le. lia.
Qed.

Lemma cost_le_refl a : cost_le a a.
Proof. unfold cost_le. destruct a; simpl; [apply Z.leb_refl | done]. Qed.

Lemma cost_lt_le a b : cost_lt a b → cost_le a b.
Proof.
  unfold cost_lt, cost_le. destruct a, b; simpl; try done.
  rewrite Z.ltb_lt, Z.leb_le. lia.
Qed.

Lemma cost_lt_le_trans a b c : cost_lt a b → cost_le b c → cost_lt a c.
Proof.
  unfold cost_lt, cost_le. destruct a, b, c; simpl; try done.
  rewrite !Z.ltb_lt, Z.leb_le. lia.
Qed.

Lemma cost_lt_trans a b c : cost_lt a b → cost_lt b c → cost_lt a c.
Proof. intros H1 H2. eapply cost_lt_le_trans; [done | by apply cost_lt_le]. Qed.

Lemma cost_ltb_false a b : cost_ltb a b = false → cost_le b a.
Proof. intros H. unfold cost_le. by rewrite cost_leb_ltb, H. Qed.

Lemma cost_leb_false a b : cost_leb a b = false → cost_lt b a.
Proof.
  rewrite cost_leb_ltb. intros H. unfold cost_lt.
  by destruct (cost_ltb b a).
Qed.

Lemma visited_get_Fin vis k c :
  visited_get vis k = Fin c ↔ dict_get vis k = Some c.
Proof. unfold visited_get. destruct (dict_get vis k); naive_solver. Qed.

(** ** Walks *)

Lemma is_walk_join g p v t :
  last p = Some v → is_walk g (p ++ t) ↔ is_walk g p ∧ is_walk g (v :: t).
Proof.
  induction p as [|a p IH]; [done|]. intros Hlast.
  destruct p as [|b p].
  - simplify_eq/=. destruct t; naive_solver.
  - rewrite last_cons_cons in Hlast. specialize (IH Hlast).
    change (is_walk g ((a :: b :: p) ++ t))
      with (b ∈ neighbors g a ∧ is_walk g ((b :: p) ++ t)).
    change (is_walk g (a :: b :: p))
      with (b ∈ neighbors g a ∧ is_walk g (b :: p)).
    rewrite IH. naive_solver.
Qed.

Lemma walk_weight_join g p v t :
  last p = Some v →
  walk_weight g (p ++ t) = (walk_weight g p + walk_weight g (v :: t))%Z.
Proof.
  induction p as [|a p IH]; [done|]. intros Hlast.
  destruct p as [|b p].
  - simplify_eq/=. destruct t; lia.
  - rewrite last_cons_cons in Hlast. specialize (IH Hlast).
    change (walk_weight g ((a :: b :: p) ++ t))
      with (edge_weight g a b + walk_weight g ((b :: p) ++ t))%Z.
    change (walk_weight g (a :: b :: p))
      with (edge_weight g a b + walk_weight g (b :: p))%Z.
    rewrite IH. lia.
Qed.

Lemma coverage_app P S p q :
  coverage P S (p ++ q) = coverage P S p ∪ coverage P S q.
Proof. unfold coverage. by rewrite fmap_app, union_list_app_L. Qed.

Lemma coverage_singleton P S v : coverage P S [v] = S_get S v ∩ P.
Proof. unfold coverage. simpl. by rewrite union_empty_r_L. Qed.

Lemma coverage_subseteq P S p : coverage P S p ⊆ P.
Proof.
  unfold coverage. induction p as [|v p IH]; simpl; set_solver.
Qed.

Lemma walk_singleton g v : v ∈ nodes g → walk g [v] v.
Proof. intros Hv. split_and!; simpl; eauto. Qed.

Lemma walk_snoc g p v u :
  walk g p v → u ∈ neighbors g v → walk g (p ++ [u]) u.
Proof.
  intros ((h & Hh & Hnode) & Hlast & Hwalk) Hu. split_and!.
  - exists h. split; [|done]. destruct p; simplify_eq/=; done.
  - apply last_snoc.
  - apply (is_walk_join _ _ v); [done|]. simpl. auto.
Qed.

Lemma walk_weight_snoc g p v u :
  last p = Some v →
  walk_weight g (p ++ [u]) = (walk_weight g p + edge_weight g v u)%Z.
Proof. intros Hlast. rewrite (walk_weight_join _ _ v) by done. simpl. lia. Qed.

Lemma coverage_snoc P S p u :
  coverage P S (p ++ [u]) = coverage P S p ∪ (S_get S u ∩ P).
Proof. by rewrite coverage_app, coverage_singleton. Qed.

(** Walks are built by extending them at the end. *)
Lemma walk_ind_snoc g (Q : list vertex → vertex → Prop) :
  (∀ v, v ∈ nodes g → Q [v] v) →
  (∀ p v u, walk g p v → Q p v → u ∈ neighbors g v → Q (p ++ [u]) u) →
  ∀ p v, walk g p v → Q p v.
Proof.
  intros Hbase Hstep p.
  induction p as [|u p IH] using rev_ind; intros v Hw.
  { by destruct Hw as ((h & ? & _) & _). }
  destruct Hw as ((h & Hh & Hnode) & Hlast & Hwalk).
  rewrite last_snoc in Hlast. injection Hlast as <-.
  destruct (last p) as [w|] eqn:Hp.
  - destruct (proj1 (is_walk_join g p w [u] Hp) Hwalk) as [Hwp Hedge].
    assert (walk g p w) as Hpw.
    { split_and!; [|done..]. exists h. split; [|done].
      destruct p; simplify_eq/=; done. }
    apply (Hstep p w); [done | by apply IH | by destruct Hedge].
  - apply last_None in Hp as ->. simplify_eq/=. by apply Hbase.
Qed.

Lemma walk_weight_nonneg g p :
  nonneg_weights g → is_walk g p → (0 ≤ walk_weight g p)%Z.
Proof.
  intros Hg. induction p as [|a [|b p] IH]; simpl; [done..|].
  intros [Hb Hw]. specialize (IH Hw). specialize (Hg _ _ Hb). simpl in IH. lia.
Qed.

(** ** The loops *)

Lemma basic_loop_search fuel g P S st :
  basic_loop fuel g P S st = search_loop (basic_body g P S) fuel st.
Proof.
  revert st. induction fuel as [|fuel IH]; intros st; simpl; [done|].
  destruct (heappop (pq st)) as [[e pq']|]; [apply IH | done].
Qed.

Lemma pruned_loop_search fuel g P S st :
  pruned_loop fuel g P S st = search_loop (pruned_body g P S) fuel st.
Proof.
  revert st. induction fuel as [|fuel IH]; intros st; simpl; [done|].
  destruct (heappop (pq st)) as [[e pq']|]; [apply IH | done].
Qed.

(** A run that returns has emptied the frontier by a sequence of steps. *)
Lemma search_loop_Some body fuel st r :
  search_loop body fuel st = Some r →
  ∃ st', rtc (pop_step body) st st' ∧ pq st' = [] ∧
         r = (best_cost st', best_path st').
Proof.
  revert st. induction fuel as [|fuel IH]; intros st; simpl; [done|].
  destruct (heappop (pq st)) as [[e pq']|] eqn:Hpop.
  - intros (st' & Hrtc & Hst')%IH. exists st'. split; [|done].
    eapply rtc_l; [|done]. by exists e, pq'.
  - intros [= <-]. exists st. split_and!; [done | | done].
    by apply (heappop_None entry_lt).
Qed.

Lemma pop_steps_inv body (I : state → Prop) st st' :
  (∀ st e pq', I st → heappop (pq st) = Some (e, pq') →
     I (body e (set_pq st pq'))) →
  rtc (pop_step body) st st' → I st → I st'.
Proof.
  intros Hstep. induction 1 as [|st1 st2 st3 (e & pq' & Hpop & ->)]; [done|].
  eauto.
Qed.

Lemma foldl_inv {A B} (f : A → B → A) (I : A → Prop) (l : list B) (a : A) :
  (∀ a b, b ∈ l → I a → I (f a b)) → I a → I (foldl f a l).
Proof.
  revert a. induction l as [|b l IH]; intros a Hf Ha; simpl; [done|].
  apply IH.
  - intros a' b' Hb'. apply Hf. by right.
  - apply Hf; [left | done].
Qed.

Lemma elem_of_heappush (h : list entry) e e' :
  e' ∈ heappush h e ↔ e' = e ∨ e' ∈ h.
Proof.
  unfold heappush. rewrite (heappush_perm entry_lt h e).
  apply elem_of_cons.
Qed.

Lemma elem_of_heappop (h h' : list entry) e e' :
  heappop h = Some (e, h') → e' ∈ h ↔ e' = e ∨ e' ∈ h'.
Proof.
  intros Hpop%(heappop_perm entry_lt). rewrite <-Hpop.
  apply elem_of_cons.
Qed.

(** ** Exact mode: every frontier entry carries a walk *)

Section basic_sound.
Context (g : graph) (P : labelset) (S : gmap vertex labelset).

Lemma sound_record st c v labels path :
  sound g P S st → entry_ok g P S (Entry c v labels path) →
  sound g P S (record st c v labels path).
Proof.
  intros [Hpq Hbest] He. split; [|done]. simpl.
  apply Forall_forall. intros e' [->|He']%elem_of_heappush; [done|].
  by eapply Forall_forall in Hpq.
Qed.

Lemma sound_pop st e pq' :
  heappop (pq st) = Some (e, pq') → sound g P S st →
  entry_ok g P S e ∧ sound g P S (set_pq st pq').
Proof.
  intros Hpop [Hpq Hbest]. rewrite Forall_forall in Hpq. split.
  - apply Hpq. rewrite (elem_of_heappop _ _ _ _ Hpop). by left.
  - split; [|done]. apply Forall_forall. intros e' He'.
    apply Hpq. rewrite (elem_of_heappop _ _ _ _ Hpop). by right.
Qed.

Lemma entry_ok_seed v :
  v ∈ nodes g → entry_ok g P S (Entry 0 v (S_get S v ∩ P) [v]).
Proof.
  intros Hv. split_and!; simpl.
  - by apply walk_singleton.
  - done.
  - apply coverage_singleton.
Qed.

Lemma entry_ok_extend e u :
  entry_ok g P S e → u ∈ neighbors g (e_v e) →
  entry_ok g P S
    (Entry (e_cost e + edge_weight g (e_v e) u) u
       (e_labels e ∪ (S_get S u ∩ P)) (e_path e ++ [u])).
Proof.
  intros (Hw & Hcost & Hcov) Hu. split_and!; simpl.
  - by eapply walk_snoc.
  - rewrite (walk_weight_snoc _ _ (e_v e)); [by rewrite Hcost|].
    by destruct Hw as (_ & ? & _).
  - by rewrite coverage_snoc, Hcov.
Qed.

Lemma basic_relax_sound e st u :
  entry_ok g P S e → u ∈ neighbors g (e_v e) →
  sound g P S st → sound g P S (basic_relax g P S e st u).
Proof.
  intros He Hu Hst. unfold basic_relax. case_match; [|done].
  apply sound_record; [done|]. by apply entry_ok_extend.
Qed.

Lemma basic_body_sound st e pq' :
  sound g P S st → heappop (pq st) = Some (e, pq') →
  sound g P S (basic_body g P S e (set_pq st pq')).
Proof.
  intros Hst Hpop. destruct (sound_pop _ _ _ Hpop Hst) as [He Hst'].
  unfold basic_body. repeat case_match; try done.
  - destruct Hst' as [Hpq _]. split; [done|].
    unfold best_ok; simpl. exists (e_v e), (e_labels e).
    split; [by destruct e | by eapply bool_decide_eq_true_1].
  - apply foldl_inv; [|done]. intros st1 u Hu.
    by apply basic_relax_sound.
Qed.

Lemma basic_init_sound : sound g P S (basic_init g P S).
Proof.
  unfold basic_init. apply foldl_inv.
  - intros st v Hv Hst. apply sound_record; [done|].
    by apply entry_ok_seed.
  - split; [constructor | done].
Qed.

Lemma basic_sound fuel r :
  basic fuel g P S = Some r →
  ∃ st, sound g P S st ∧ r = (best_cost st, best_path st).
Proof.
  unfold basic. rewrite basic_loop_search.
  intros (st & Hrtc & _ & ->)%search_loop_Some.
  exists st. split; [|done].
  eapply pop_steps_inv; [|done|apply basic_init_sound].
  intros. by apply basic_body_sound.
Qed.
End basic_sound.

(** ** Exact mode: no covering walk is cheaper than the answer *)

Section basic_complete.
Context (g : graph) (P : labelset) (S : gmap vertex labelset).

Lemma relaxed_record vis k c u k1 c1 :
  cost_lt (Fin c1) (visited_get vis k1) →
  relaxed g P S vis k c u → relaxed g P S (dict_set vis k1 c1) k c u.
Proof.
  intros Hlt (c' & Hget & Hle). unfold relaxed. rewrite dict_get_set.
  case_decide as Hk; [|eauto]. subst k1. exists c1. split; [done|].
  unfold visited_get in Hlt. rewrite Hget in Hlt.
  apply cost_lt_Fin in Hlt. lia.
Qed.

Lemma settled_record st k c us c1 v1 labels1 path :
  cost_lt (Fin c1) (visited_get (visited st) (v1, labels1)) →
  settled g P S st k c us →
  settled g P S (record st c1 v1 labels1 path) k c us.
Proof.
  intros Hlt [(e & He & Hk & Hc)|[Hbest|[Hfull Hrel]]].
  - left. exists e. split; [|done]. simpl. apply elem_of_heappush. by right.
  - right; left. done.
  - right; right. split; [done|]. intros u Hu. simpl.
    apply relaxed_record; auto.
Qed.

Lemma settled_extend st k c us u :
  settled g P S st k c us → relaxed g P S (visited st) k c u →
  settled g P S st k c (us ++ [u]).
Proof.
  intros [?|[?|[Hfull Hrel]]] Hu; [by left | by right; left |].
  right; right. split; [done|].
  intros u' [?| ->%list_elem_of_singleton]%elem_of_app; auto.
Qed.

Lemma expanding_record e us st c1 v1 labels1 path :
  cost_lt (Fin c1) (visited_get (visited st) (v1, labels1)) →
  expanding g P S e us st →
  expanding g P S e us (record st c1 v1 labels1 path).
Proof.
  intros Hlt Hexp k c. simpl. rewrite dict_get_set.
  case_decide as Hk.
  - intros [= <-]. subst k. left. left.
    exists (Entry c1 v1 labels1 path). split; [|done].
    simpl. apply elem_of_heappush. by left.
  - intros [Hs|(-> & -> & Hs)]%Hexp.
    + left. by apply settled_record.
    + right. split_and!; [done..|]. by apply settled_record.
Qed.

Lemma basic_relax_relaxed e st u :
  relaxed g P S (visited (basic_relax g P S e st u))
    (e_v e, e_labels e) (e_cost e) u.
Proof.
  unfold basic_relax.
  destruct (cost_ltb _ _) eqn:Hlt; unfold relaxed; simpl.
  - rewrite dict_get_set_eq. eexists. split; [done | lia].
  - apply cost_ltb_false in Hlt. unfold visited_get in Hlt.
    destruct (dict_get (visited st) _) as [c'|]; [|done].
    apply cost_le_Fin in Hlt. eauto.
Qed.

Lemma expanding_relax e us st u :
  expanding g P S e us st →
  expanding g P S e (us ++ [u]) (basic_relax g P S e st u).
Proof.
  intros Hexp.
  assert (expanding g P S e us (basic_relax g P S e st u)) as Hexp'.
  { unfold basic_relax. destruct (cost_ltb _ _) eqn:Hlt; [|done].
    by apply expanding_record. }
  intros k c [Hs|(-> & -> & Hs)]%Hexp'; [by left|].
  right. split_and!; [done..|].
  apply settled_extend; [done|]. apply basic_relax_relaxed.
Qed.

Lemma expanding_foldl e l us st :
  expanding g P S e us st →
  expanding g P S e (us ++ l) (foldl (basic_relax g P S e) st l).
Proof.
  revert us st. induction l as [|u l IH]; intros us st Hexp; simpl.
  - by rewrite app_nil_r.
  - rewrite (cons_middle u us l), (assoc_L (++)).
    apply IH. by apply expanding_relax.
Qed.

Lemma seeded_record st vs c1 v1 labels1 path :
  cost_lt (Fin c1) (visited_get (visited st) (v1, labels1)) →
  seeded P S st vs → seeded P S (record st c1 v1 labels1 path) vs.
Proof.
  intros Hlt Hseed v (c & Hget & Hc)%Hseed. simpl. rewrite dict_get_set.
  case_decide as Hk; [|eauto]. exists c1. split; [done|].
  rewrite Hk in Hlt. unfold visited_get in Hlt. rewrite Hget in Hlt.
  apply cost_lt_Fin in Hlt. lia.
Qed.

Lemma basic_relax_seeded e st u vs :
  seeded P S st vs → seeded P S (basic_relax g P S e st u) vs.
Proof.
  intros Hseed. unfold basic_relax.
  destruct (cost_ltb _ _) eqn:Hlt; [|done]. by apply seeded_record.
Qed.

Lemma settled_pop st e pq' k c us :
  heappop (pq st) = Some (e, pq') → settled g P S st k c us →
  settled g P S (set_pq st pq') k c us ∨
  (k = (e_v e, e_labels e) ∧ c = e_cost e).
Proof.
  intros Hpop [(e' & He' & Hk & Hc)|[Hbest|Hrel]].
  - apply (elem_of_heappop _ _ _ _ Hpop) in He' as [->|He'].
    + by right.
    + left. left. by exists e'.
  - left. right; left. done.
  - left. right; right. done.
Qed.

Lemma settled_set_best st k c us c1 path :
  cost_lt (Fin c1) (best_cost st) →
  settled g P S st k c us → settled g P S (set_best st c1 path) k c us.
Proof.
  intros Hlt [?|[Hbest|?]]; [by left | | by right; right].
  right; left. simpl. apply cost_lt_le. by eapply cost_lt_le_trans.
Qed.

Lemma basic_body_complete st e pq' :
  complete g P S st → heappop (pq st) = Some (e, pq') →
  complete g P S (basic_body g P S e (set_pq st pq')).
Proof.
  intros [Hseed Hset] Hpop. unfold basic_body.
  destruct (bool_decide _) eqn:Hstale.
  { (* stale entry *)
    split; [done|]. intros k c Hget. simpl in Hget.
    destruct (settled_pop _ _ _ _ _ _ Hpop (Hset _ _ Hget))
      as [?|[-> ->]]; [done|].
    apply bool_decide_eq_true_1 in Hstale. done. }
  destruct (cost_leb _ _) eqn:Hcut.
  { (* cannot improve the answer *)
    split; [done|]. intros k c Hget. simpl in Hget.
    destruct (settled_pop _ _ _ _ _ _ Hpop (Hset _ _ Hget))
      as [?|[-> ->]]; [done|].
    right; left. done. }
  apply cost_leb_false in Hcut.
  destruct (bool_decide (P ⊆ e_labels e)) eqn:Hfull.
  { (* a full solution *)
    rewrite Hcut. split; [done|]. intros k c Hget. simpl in Hget.
    destruct (settled_pop _ _ _ _ _ _ Hpop (Hset _ _ Hget))
      as [?|[-> ->]].
    - by apply settled_set_best.
    - right; left. apply cost_le_refl. }
  apply bool_decide_eq_false_1 in Hfull.
  (* expansion *)
  split.
  { apply foldl_inv; [|done]. intros. by apply basic_relax_seeded. }
  assert (expanding g P S e [] (set_pq st pq')) as Hexp.
  { intros k c Hget. simpl in Hget.
    destruct (settled_pop _ _ _ _ _ _ Hpop (Hset _ _ Hget))
      as [?|[-> ->]]; [by left|].
    right. split_and!; [done..|]. right; right. split; [done|].
    by intros u ?%elem_of_nil. }
  apply (expanding_foldl _ (neighbors g (e_v e))) in Hexp.
  intros k c [?|(-> & -> & ?)]%Hexp; done.
Qed.

Lemma basic_init_complete : complete g P S (basic_init g P S).
Proof.
  unfold basic_init, complete.
  cut (∀ vs st,
    (∀ k c, dict_get (visited st) k = Some c → live st k c) →
    let st' := foldl (basic_seed P S) st vs in
    seeded P S st' vs ∧
    (∀ k c, dict_get (visited st) k = Some c →
       ∃ c', dict_get (visited st') k = Some c' ∧ (c = 0 → c' = 0)%Z) ∧
    (∀ k c, dict_get (visited st') k = Some c → live st' k c)).
  { intros H. destruct (H (nodes g) init_state) as (Hs & _ & Hl); [done|].
    split; [done|]. intros k c Hget. left. by apply Hl. }
  induction vs as [|v vs IH]; intros st Hlive; simpl.
  { split_and!; [by intros v ?%elem_of_nil | eauto | done]. }
  set (st1 := basic_seed P S st v).
  assert (∀ k c, dict_get (visited st1) k = Some c → live st1 k c) as Hl1.
  { intros k c. unfold st1, basic_seed. simpl. rewrite dict_get_set.
    case_decide as Hk.
    - intros [= <-]. subst k.
      exists (Entry 0 v (S_get S v ∩ P) [v]). split; [|done].
      simpl. apply elem_of_heappush. by left.
    - intros (e & He & ?)%Hlive. exists e. split; [|done].
      simpl. apply elem_of_heappush. by right. }
  destruct (IH st1 Hl1) as (Hs & Hkeep & Hl). split_and!; [| |done].
  - intros v' [->|Hv']%elem_of_cons; [|by apply Hs].
    destruct (Hkeep (v, S_get S v ∩ P) 0%Z) as (c' & Hc' & H0).
    { unfold st1, basic_seed. simpl. apply dict_get_set_eq. }
    exists c'. split; [done|]. rewrite H0; done.
  - intros k c Hget.
    destruct (decide ((v, S_get S v ∩ P) = k)) as [<-|Hk].
    + destruct (Hkeep (v, S_get S v ∩ P) 0%Z) as (c' & Hc' & H0).
      { unfold st1, basic_seed. simpl. apply dict_get_set_eq. }
      exists c'. split; [done|]. intros _. by apply H0.
    + apply Hkeep. unfold st1, basic_seed. simpl.
      by rewrite dict_get_set_ne.
Qed.

(** With the frontier empty, the prefix of any walk either exceeds the
    answer or ends in a visited state that is at least as cheap. *)
Lemma complete_walk st p v :
  nonneg_weights g → complete g P S st → pq st = [] → walk g p v →
  cost_le (best_cost st) (Fin (walk_weight g p)) ∨
  ∃ c, dict_get (visited st) (v, coverage P S p) = Some c ∧
       (c ≤ walk_weight g p)%Z.
Proof.
  intros Hg [Hseed Hset] Hpq. revert p v. apply walk_ind_snoc.
  - intros v Hv. right. rewrite coverage_singleton. by apply Hseed.
  - intros p v u Hw IH Hu.
    assert (last p = Some v) as Hlast by by destruct Hw as (_ & ? & _).
    rewrite (walk_weight_snoc _ _ _ _ Hlast), coverage_snoc.
    specialize (Hg _ _ Hu).
    destruct IH as [Hbest|(c & Hget & Hc)].
    { left. eapply cost_le_trans; [done|]. apply cost_le_Fin. lia. }
    destruct (Hset _ _ Hget) as [(e & He & _)|[Hbest|[_ Hrel]]].
    + rewrite Hpq in He. by apply elem_of_nil in He.
    + left. eapply cost_le_trans; [done|]. apply cost_le_Fin. lia.
    + right. destruct (Hrel u Hu) as (c' & Hget' & Hc').
      exists c'. split; [done|]. simpl in Hc'. lia.
Qed.

Lemma complete_optimal st p :
  nonneg_weights g → complete g P S st → pq st = [] →
  covering_walk g P S p →
  cost_le (best_cost st) (Fin (walk_weight g p)).
Proof.
  intros Hg Hc Hpq [[v Hw] Hcov].
  destruct (complete_walk st p v Hg Hc Hpq Hw) as [?|(c & Hget & Hle)];
    [done|].
  destruct Hc as [_ Hset].
  destruct (Hset _ _ Hget) as [(e & He & _)|[Hbest|[Hfull _]]].
  - rewrite Hpq in He. by apply elem_of_nil in He.
  - eapply cost_le_trans; [done|]. by apply cost_le_Fin.
  - simpl in Hfull. by rewrite Hcov in Hfull.
Qed.

Lemma basic_optimal fuel c path p :
  nonneg_weights g → basic fuel g P S = Some (c, path) →
  covering_walk g P S p → cost_le c (Fin (walk_weight g p)).
Proof.
  intros Hg Hrun Hp. unfold basic in Hrun.
  rewrite basic_loop_search in Hrun.
  apply search_loop_Some in Hrun as (st & Hrtc & Hpq & [= -> ->]).
  apply complete_optimal; [done | | done..].
  eapply pop_steps_inv; [|done|apply basic_init_complete].
  intros. by apply basic_body_complete.
Qed.
End basic_complete.

(** ** Termination *)

Lemma lexlt_wf_ind (Q : nat * nat → Prop) :
  (∀ a, (∀ b, lexlt b a → Q b) → Q a) → ∀ a, Q a.
Proof.
  intros Hind [x y]. revert y.
  induction x as [x IHx] using lt_wf_ind. intros y.
  induction y as [y IHy] using lt_wf_ind.
  apply Hind. intros [x' y'] [Hlt|[Heq Hlt]]; simpl in *.
  - by apply IHx.
  - subst x'. by apply IHy.
Qed.

Lemma lexle_refl a : lexle a a.
Proof. right. done. Qed.

Lemma lexle_trans a b c : lexle a b → lexle b c → lexle a c.
Proof. unfold lexle. lia. Qed.

Lemma lexle_lt_trans a b c : lexle a b → lexlt b c → lexlt a c.
Proof. unfold lexle, lexlt. lia. Qed.

Lemma search_terminates body (I : state → Prop) (mu : state → nat * nat) :
  (∀ st e pq', I st → heappop (pq st) = Some (e, pq') →
     I (body e (set_pq st pq')) ∧ lexlt (mu (body e (set_pq st pq'))) (mu st)) →
  ∀ st, I st → ∃ fuel r, search_loop body fuel st = Some r.
Proof.
  intros Hstep st. remember (mu st) as a eqn:Ha. revert st Ha.
  induction a as [a IH] using lexlt_wf_ind. intros st -> Hst.
  destruct (heappop (pq st)) as [[e pq']|] eqn:Hpop.
  - destruct (Hstep _ _ _ Hst Hpop) as [Hst' Hlt].
    destruct (IH _ Hlt _ eq_refl Hst') as (fuel & r & Hrun).
    exists (Datatypes.S fuel), r. simpl. by rewrite Hpop.
  - exists 1, (best_cost st, best_path st). simpl. by rewrite Hpop.
Qed.

Lemma elem_of_powerlist l (X : labelset) :
  X ⊆ list_to_set l → X ∈ powerlist l.
Proof.
  revert X. induction l as [|x l IH]; intros X HX; simpl in *.
  { apply list_elem_of_singleton. set_solver. }
  apply elem_of_app. destruct (decide (x ∈ X)) as [Hx|Hx].
  - right. apply list_elem_of_fmap. exists (X ∖ {[x]}). split.
    + apply union_difference_L. set_solver.
    + apply IH. set_solver.
  - left. apply IH. set_solver.
Qed.

Lemma in_universe_elem g P k : in_universe g P k → k ∈ universe g P.
Proof.
  destruct k as [v X]. intros [Hv HX]. simpl in *.
  apply list_elem_of_cprod. split; [done|]. simpl.
  apply elem_of_powerlist. by rewrite list_to_set_elements_L.
Qed.

Lemma neighbors_all_vertices g v u : u ∈ neighbors g v → u ∈ all_vertices g.
Proof.
  unfold neighbors, adj, all_vertices. intros Hu. apply elem_of_app. right.
  destruct (dict_get g v) as [a|] eqn:Ha; simpl in Hu;
    [|by apply elem_of_nil in Hu].
  apply dict_get_Some_elem in Ha.
  apply list_elem_of_join. exists (dict_keys a). split; [done|].
  apply list_elem_of_fmap. by exists (v, a).
Qed.

Lemma neighbors_nodes g v u : u ∈ neighbors g v → v ∈ nodes g.
Proof.
  unfold neighbors, adj, nodes. intros Hu.
  destruct (dict_get g v) as [a|] eqn:Ha; simpl in Hu;
    [|by apply elem_of_nil in Hu].
  apply dict_get_Some_elem in Ha. by eapply dict_elem_key.
Qed.

Lemma nodes_all_vertices g v : v ∈ nodes g → v ∈ all_vertices g.
Proof. intros. apply elem_of_app. by left. Qed.

Lemma vis_sum_set_lt (vis : list (key * Z)) k c c0 :
  dict_get vis k = Some c0 → (0 ≤ c < c0)%Z →
  vis_sum (dict_set vis k c) < vis_sum vis.
Proof.
  induction vis as [|[k1 c1] vis IH]; simpl; [done|].
  case_decide; simpl.
  - intros [= ->] Hc. lia.
  - intros Hget Hc. specialize (IH Hget Hc). lia.
Qed.

Lemma dict_set_length_Some {K V} `{EqDecision K} (d : list (K * V)) k v :
  is_Some (dict_get d k) → length (dict_set d k v) = length d.
Proof.
  intros [v0 Hv]. rewrite <-!(length_fmap fst).
  change (length (dict_keys (dict_set d k v)) = length (dict_keys d)).
  by rewrite dict_keys_set, Hv.
Qed.

Lemma dict_set_length_None {K V} `{EqDecision K} (d : list (K * V)) k v :
  dict_get d k = None → length (dict_set d k v) = Datatypes.S (length d).
Proof.
  intros Hv. rewrite <-!(length_fmap fst).
  change (length (dict_keys (dict_set d k v))
          = Datatypes.S (length (dict_keys d))).
  rewrite dict_keys_set, Hv, length_app. simpl. lia.
Qed.

Lemma heappush_length (h : list entry) e :
  length (heappush h e) = Datatypes.S (length h).
Proof. unfold heappush. by rewrite (heappush_perm entry_lt h e). Qed.

Lemma heappop_length (h h' : list entry) e :
  heappop h = Some (e, h') → length h = Datatypes.S (length h').
Proof. intros Hpop%(heappop_perm entry_lt). by rewrite <-Hpop. Qed.

Section termination.
Context (g : graph) (P : labelset) (S : gmap vertex labelset).

Lemma bounded_length st :
  bounded g P st → length (visited st) ≤ length (universe g P).
Proof.
  intros (Hnd & Hvis & _). rewrite <-(length_fmap fst).
  apply submseteq_length, NoDup_submseteq; [done|].
  intros k [[k' c] [-> Hkc]]%list_elem_of_fmap. simpl.
  apply in_universe_elem. by apply (Hvis _ c).
Qed.

Lemma bounded_record st c v labels path :
  bounded g P st → (0 ≤ c)%Z → in_universe g P (v, labels) →
  bounded g P (record st c v labels path).
Proof.
  intros (Hnd & Hvis & Hpq) Hc Hk. split_and!; simpl.
  - by apply dict_set_NoDup.
  - intros k' c' [[-> ->]|?]%dict_set_elem; auto.
  - intros e' [->|?]%elem_of_heappush; auto.
Qed.

Lemma record_measure st c v labels path :
  bounded g P st → (0 ≤ c)%Z → in_universe g P (v, labels) →
  cost_lt (Fin c) (visited_get (visited st) (v, labels)) →
  lexle (measure g P (record st c v labels path)) (measure g P st).
Proof.
  intros Hst Hc Hk Hlt.
  pose proof (bounded_length _ (bounded_record _ _ _ _ path Hst Hc Hk))
    as Hlen.
  unfold measure, lexle. simpl in *. rewrite heappush_length.
  unfold visited_get in Hlt.
  destruct (dict_get (visited st) (v, labels)) as [c0|] eqn:Hget.
  - apply cost_lt_Fin in Hlt. right.
    rewrite dict_set_length_Some by eauto. split; [done|].
    pose proof (vis_sum_set_lt _ _ c _ Hget). lia.
  - left. rewrite dict_set_length_None in * by done. lia.
Qed.

Lemma bounded_pop st e pq' :
  bounded g P st → heappop (pq st) = Some (e, pq') →
  bounded g P (set_pq st pq') ∧
  lexlt (measure g P (set_pq st pq')) (measure g P st) ∧
  (0 ≤ e_cost e)%Z ∧ in_universe g P (e_v e, e_labels e).
Proof.
  intros (Hnd & Hvis & Hpq) Hpop. split_and!.
  - split_and!; [done..|]. simpl. intros e' He'. apply Hpq.
    apply (elem_of_heappop _ _ _ _ Hpop). by right.
  - right. simpl. rewrite (heappop_length _ _ _ Hpop). lia.
  - apply Hpq, (elem_of_heappop _ _ _ _ Hpop). by left.
  - apply Hpq, (elem_of_heappop _ _ _ _ Hpop). by left.
Qed.

Lemma bounded_set_best st c path :
  bounded g P st → bounded g P (set_best st c path).
Proof. done. Qed.

Lemma basic_relax_bounded e st u m :
  nonneg_weights g → (0 ≤ e_cost e)%Z → e_labels e ⊆ P →
  u ∈ neighbors g (e_v e) →
  bounded g P st ∧ lexle (measure g P st) m →
  bounded g P (basic_relax g P S e st u) ∧
  lexle (measure g P (basic_relax g P S e st u)) m.
Proof.
  intros Hg Hc HL Hu [Hst Hm]. unfold basic_relax.
  destruct (cost_ltb _ _) eqn:Hlt; [|done].
  specialize (Hg _ _ Hu).
  assert (in_universe g P (u, e_labels e ∪ S_get S u ∩ P)) as Hk.
  { split; simpl; [by eapply neighbors_all_vertices | set_solver]. }
  split.
  - apply bounded_record; [done | lia | done].
  - eapply lexle_trans; [|done]. apply record_measure; [done | lia | done..].
Qed.

Lemma basic_body_bounded st e pq' :
  nonneg_weights g → bounded g P st → heappop (pq st) = Some (e, pq') →
  bounded g P (basic_body g P S e (set_pq st pq')) ∧
  lexlt (measure g P (basic_body g P S e (set_pq st pq'))) (measure g P st).
Proof.
  intros Hg Hst Hpop.
  destruct (bounded_pop _ _ _ Hst Hpop) as (Hst' & Hlt & Hc & _ & HL).
  unfold basic_body. repeat case_match; try done.
  cut (bounded g P (foldl (basic_relax g P S e) (set_pq st pq')
                      (neighbors g (e_v e))) ∧
       lexle (measure g P (foldl (basic_relax g P S e) (set_pq st pq')
                      (neighbors g (e_v e))))
             (measure g P (set_pq st pq'))).
  { intros [? ?]. split; [done|]. by eapply lexle_lt_trans. }
  apply (foldl_inv _ (λ st1, bounded g P st1 ∧
           lexle (measure g P st1) (measure g P (set_pq st pq')))).
  - intros st1 u Hu. by apply basic_relax_bounded.
  - split; [done | apply lexle_refl].
Qed.

Lemma basic_init_bounded : bounded g P (basic_init g P S).
Proof.
  unfold basic_init. apply foldl_inv.
  - intros st v Hv Hst. apply bounded_record; [done..|].
    split; simpl; [by apply nodes_all_vertices | set_solver].
  - split_and!; simpl; [constructor | |]; by intros ? ? ?%elem_of_nil
      || by intros ? ?%elem_of_nil.
Qed.

Lemma basic_terminates :
  nonneg_weights g → ∃ fuel r, basic fuel g P S = Some r.
Proof.
  intros Hg. unfold basic.
  destruct (search_terminates (basic_body g P S) (bounded g P)
              (measure g P)) with (st := basic_init g P S)
    as (fuel & r & Hrun).
  - intros. by apply basic_body_bounded.
  - apply basic_init_bounded.
  - exists fuel, r. by rewrite basic_loop_search.
Qed.
End termination.

(** ** Fuel *)

Lemma search_loop_mono body fuel fuel' st r :
  search_loop body fuel st = Some r → fuel ≤ fuel' →
  search_loop body fuel' st = Some r.
Proof.
  revert fuel' st. induction fuel as [|fuel IH]; intros fuel' st; [done|].
  intros Hrun Hle. destruct fuel' as [|fuel']; [lia|]. simpl in *.
  destruct (heappop (pq st)) as [[e pq']|]; [|done].
  apply IH; [done | lia].
Qed.

Lemma search_loop_det body fuel1 fuel2 st r1 r2 :
  search_loop body fuel1 st = Some r1 → search_loop body fuel2 st = Some r2 →
  r1 = r2.
Proof.
  intros H1 H2.
  apply (search_loop_mono _ _ (fuel1 `max` fuel2)) in H1; [|lia].
  apply (search_loop_mono _ _ (fuel1 `max` fuel2)) in H2; [|lia].
  congruence.
Qed.


Lemma pruned_dp_det set_iter fuel1 fuel2 g P S r1 r2 :
  pruned_dp set_iter fuel1 g P S = Some r1 →
  pruned_dp set_iter fuel2 g P S = Some r2 → r1 = r2.
Proof. unfold pruned_dp. rewrite !pruned_loop_search. apply search_loop_det. Qed.

(** ** Checking the conditions on a concrete graph *)

Lemma edges_forall_spec f g v u :
  edges_forall f g = true → u ∈ neighbors g v → f v u = true.
Proof.
  unfold edges_forall, neighbors, adj. intros Hall Hu.
  destruct (dict_get g v) as [a|] eqn:Ha; simpl in Hu;
    [|by apply elem_of_nil in Hu].
  apply dict_get_Some_elem, list_elem_of_In in Ha.
  rewrite forallb_forall in Hall. specialize (Hall _ Ha). simpl in Hall.
  rewrite forallb_forall in Hall. by apply Hall, list_elem_of_In.
Qed.

Lemma nonneg_weightsb_spec g : nonneg_weightsb g = true → nonneg_weights g.
Proof.
  intros H v u Hu. apply (edges_forall_spec _ _ _ _ H) in Hu.
  by apply Z.leb_le.
Qed.

Lemma positive_weightsb_spec g :
  positive_weightsb g = true → positive_weights g.
Proof.
  intros H v u Hu. apply (edges_forall_spec _ _ _ _ H) in Hu.
  by apply Z.ltb_lt.
Qed.


Lemma positive_nonneg g : positive_weights g → nonneg_weights g.
Proof. intros Hg v u Hu. specialize (Hg v u Hu). lia. Qed.

(** ** Properties of the exact mode *)

Lemma best_ok_covering g P S st c :
  best_ok g P S st → best_cost st = Fin c →
  covering_walk g P S (best_path st) ∧ walk_weight g (best_path st) = c.
Proof.
  unfold best_ok. intros Hbest Hc. rewrite Hc in Hbest. clear Hc.
  destruct Hbest as (v & labels & (Hw & Hc & Hcov) & Hfull). simpl in *.
  split; [|done]. split; [by exists v|].
  apply (anti_symm (⊆)); [apply coverage_subseteq | by rewrite Hcov].
Qed.


(** ** Pruned mode: closed walks behind the recorded costs *)

Lemma last_app_cons {A} (p t : list A) v :
  last p = Some v → last (p ++ t) = last (v :: t).
Proof.
  intros Hp. destruct t as [|x t] using rev_ind.
  - by rewrite app_nil_r.
  - by rewrite (assoc_L (++)), app_comm_cons, !last_snoc.
Qed.

Section tree_ok_facts.
Context (g : graph) (P : labelset) (S : gmap vertex labelset).

Lemma tree_ok_seed v lbl :
  v ∈ nodes g → lbl ∈ S_get S v ∩ P → tree_ok g P S v {[lbl]} 0.
Proof.
  intros Hv Hlbl. exists [v]. split_and!.
  - by apply walk_singleton.
  - done.
  - rewrite coverage_singleton. set_solver.
  - done.
Qed.

Lemma tree_ok_extend v labels c u :
  undirected g → tree_ok g P S v labels c → u ∈ neighbors g v →
  tree_ok g P S u (labels ∪ (S_get S u ∩ P)) (c + edge_weight g v u).
Proof.
  intros Hsym (p & Hw & Hhead & Hcov & Hc) Hu.
  destruct (Hsym _ _ Hu) as [Hv Hweight].
  destruct (walk_snoc _ _ _ _ Hw Hu) as (_ & Hlast & Hwalk).
  destruct Hw as (_ & Hlastp & _).
  destruct p as [|v' p]; [done|]. injection Hhead as ->.
  exists (u :: (v :: p) ++ [u]). split_and!.
  - split_and!.
    + exists u. split; [done|]. by eapply neighbors_nodes.
    + by rewrite app_comm_cons, last_snoc.
    + simpl. split; [done|]. exact Hwalk.
  - done.
  - change (u :: (v :: p) ++ [u]) with ([u] ++ ((v :: p) ++ [u])).
    rewrite !coverage_app, coverage_singleton. set_solver.
  - change (walk_weight g (u :: (v :: p) ++ [u]))
      with (edge_weight g u v + walk_weight g ((v :: p) ++ [u]))%Z.
    rewrite (walk_weight_snoc _ _ v) by done. lia.
Qed.

Lemma tree_ok_merge v labels1 c1 labels2 c2 :
  tree_ok g P S v labels1 c1 → tree_ok g P S v labels2 c2 →
  tree_ok g P S v (labels1 ∪ labels2) (c1 + c2).
Proof.
  intros (p1 & Hw1 & Hh1 & Hcov1 & Hc1) (p2 & Hw2 & Hh2 & Hcov2 & Hc2).
  destruct Hw1 as (Hn1 & Hl1 & Hwalk1). destruct Hw2 as (_ & Hl2 & Hwalk2).
  destruct p2 as [|v' t2]; [done|]. injection Hh2 as ->.
  exists (p1 ++ t2). split_and!.
  - split_and!.
    + destruct Hn1 as (h & Hh & Hnode). exists h. split; [|done].
      destruct p1; simplify_eq/=; done.
    + by rewrite (last_app_cons _ _ v).
    + by apply (is_walk_join _ _ v).
  - destruct p1; simplify_eq/=; done.
  - rewrite coverage_app.
    assert (S_get S v ∩ P ⊆ coverage P S p1) as Hv.
    { destruct p1 as [|v' t1]; [done|]. injection Hh1 as ->.
      change (v :: t1) with ([v] ++ t1).
      rewrite coverage_app, coverage_singleton. set_solver. }
    change (v :: t2) with ([v] ++ t2) in Hcov2.
    rewrite coverage_app, coverage_singleton in Hcov2. set_solver.
  - rewrite (walk_weight_join _ _ v) by done. lia.
Qed.

Lemma tree_ok_covering v labels c :
  tree_ok g P S v labels c → P ⊆ labels →
  ∃ p, covering_walk g P S p ∧ (walk_weight g p ≤ 2 * c)%Z.
Proof.
  intros (p & Hw & _ & Hcov & Hc) Hfull. exists p. split; [|done].
  split; [by exists v|].
  apply (anti_symm (⊆)); [apply coverage_subseteq | set_solver].
Qed.
End tree_ok_facts.

Section pruned_inv_facts.
Context (set_iter : labelset → list label).
Context (g : graph) (P : labelset) (S : gmap vertex labelset).
Context (Q : vertex → labelset → Z → Prop).
Hypothesis HQ : search_closed g P S Q.

Lemma pruned_inv_record st c v labels path :
  pruned_inv Q P st → Q v labels c →
  pruned_inv Q P (record st c v labels path).
Proof.
  intros (Hpq & Hvis & Hbest) Hk. split_and!; simpl; [| |done].
  - intros e' [->|?]%elem_of_heappush; auto.
  - intros k' c' [[-> ->]|?]%dict_set_elem; auto.
Qed.

Lemma pruned_inv_pop st e pq' :
  heappop (pq st) = Some (e, pq') → pruned_inv Q P st →
  Q (e_v e) (e_labels e) (e_cost e) ∧ pruned_inv Q P (set_pq st pq').
Proof.
  intros Hpop (Hpq & Hvis & Hbest). split.
  - apply Hpq, (elem_of_heappop _ _ _ _ Hpop). by left.
  - split_and!; [|done..]. simpl. intros e' He'.
    apply Hpq, (elem_of_heappop _ _ _ _ Hpop). by right.
Qed.

Lemma pruned_seed_inv v st lbl :
  v ∈ nodes g → lbl ∈ S_get S v ∩ P →
  pruned_inv Q P st → pruned_inv Q P (pruned_seed v st lbl).
Proof.
  intros Hv Hlbl Hst. unfold pruned_seed. case_match; [done|].
  apply pruned_inv_record; [done|]. by apply (proj1 HQ).
Qed.

Lemma pruned_init_inv :
  set_iter_ok set_iter → pruned_inv Q P (pruned_init set_iter g P S).
Proof.
  intros Hiter. unfold pruned_init. apply foldl_inv.
  - intros st v Hv Hst. unfold pruned_seeds. apply foldl_inv; [|done].
    intros st' lbl Hlbl. apply pruned_seed_inv; [done|].
    rewrite (Hiter _) in Hlbl. by apply elem_of_elements in Hlbl.
  - split_and!; simpl; [| |done].
    + by intros ? ?%elem_of_nil.
    + by intros ? ? ?%elem_of_nil.
Qed.

Lemma pruned_relax_inv e st u :
  Q (e_v e) (e_labels e) (e_cost e) → u ∈ neighbors g (e_v e) →
  pruned_inv Q P st → pruned_inv Q P (pruned_relax g P S e st u).
Proof.
  intros He Hu Hst. unfold pruned_relax.
  destruct (cost_leb _ _); [done|].
  destruct (cost_ltb _ _); [|done].
  apply pruned_inv_record; [done|]. by apply (proj1 (proj2 HQ)).
Qed.

Lemma pruned_merge_inv e st item :
  Q (e_v e) (e_labels e) (e_cost e) → ¬ P ⊆ e_labels e →
  Q item.1.1 item.1.2 item.2 →
  pruned_inv Q P st → pruned_inv Q P (pruned_merge P e st item).
Proof.
  intros He Hfull Hitem Hst. destruct item as [[vv lbls] c].
  unfold pruned_merge.
  destruct (bool_decide (vv = e_v e)) eqn:Hvv; [|done].
  apply bool_decide_eq_true_1 in Hvv as ->. simpl.
  destruct (negb _ || _) eqn:Hskip; [done|].
  apply orb_false_iff in Hskip as [Hsub%negb_false_iff Hne].
  apply bool_decide_eq_true_1 in Hsub.
  apply bool_decide_eq_false_1 in Hne.
  destruct (negb _ && _); [|done].
  apply pruned_inv_record; [done|]. by apply (proj2 (proj2 HQ)).
Qed.

Lemma pruned_expand_inv e st :
  Q (e_v e) (e_labels e) (e_cost e) → ¬ P ⊆ e_labels e →
  pruned_inv Q P st → pruned_inv Q P (pruned_expand g P S e st).
Proof.
  intros He Hfull Hst. unfold pruned_expand.
  set (st1 := foldl (pruned_relax g P S e) st (neighbors g (e_v e))).
  assert (pruned_inv Q P st1) as Hst1.
  { apply foldl_inv; [|done]. intros st' u Hu.
    by apply pruned_relax_inv. }
  apply foldl_inv; [|done]. intros st' [k c] Hitem.
  apply pruned_merge_inv; [done..|]. simpl.
  destruct Hst1 as (_ & Hvis & _). by apply Hvis.
Qed.

Lemma pruned_body_inv st e pq' :
  pruned_inv Q P st → heappop (pq st) = Some (e, pq') →
  pruned_inv Q P (pruned_body g P S e (set_pq st pq')).
Proof.
  intros Hst Hpop.
  destruct (pruned_inv_pop _ _ _ Hpop Hst) as [He Hst'].
  unfold pruned_body.
  destruct (bool_decide (dict_get _ _ ≠ _)); [done|].
  destruct (cost_leb _ _); [done|].
  destruct (bool_decide (P ⊆ e_labels e)) eqn:Hfull.
  - apply bool_decide_eq_true_1 in Hfull.
    destruct (cost_ltb _ _); [|done].
    destruct Hst' as (Hpq & Hvis & _). split_and!; [done..|]. simpl.
    by exists (e_v e), (e_labels e).
  - apply bool_decide_eq_false_1 in Hfull.
    destruct (exceeds_two_thirds _ _); [done|].
    by apply pruned_expand_inv.
Qed.

Lemma pruned_dp_inv fuel r :
  set_iter_ok set_iter → pruned_dp set_iter fuel g P S = Some r →
  ∃ st, pruned_inv Q P st ∧ r = (best_cost st, best_path st).
Proof.
  intros Hiter. unfold pruned_dp. rewrite pruned_loop_search.
  intros (st & Hrtc & _ & ->)%search_loop_Some.
  exists st. split; [|done].
  eapply pop_steps_inv; [|done|by apply pruned_init_inv].
  intros. by apply pruned_body_inv.
Qed.
End pruned_inv_facts.

Lemma tree_ok_closed g P S :
  undirected g → search_closed g P S (tree_ok g P S).
Proof.
  intros Hsym. split_and!.
  - apply tree_ok_seed.
  - intros. by apply tree_ok_extend.
  - intros. by apply tree_ok_merge.
Qed.

Lemma pruned_dp_sound set_iter g P S fuel r :
  undirected g → set_iter_ok set_iter →
  pruned_dp set_iter fuel g P S = Some r →
  ∃ st, pruned_inv (tree_ok g P S) P st ∧ r = (best_cost st, best_path st).
Proof. intros Hsym. by apply pruned_dp_inv, tree_ok_closed. Qed.

Section pruned_termination.
Context (set_iter : labelset → list label).
Context (g : graph) (P : labelset) (S : gmap vertex labelset).

(** *** Termination of the pruned mode *)

Lemma record_bounded st c v labels path m :
  bounded g P st ∧ lexle (measure g P st) m →
  (0 ≤ c)%Z → in_universe g P (v, labels) →
  cost_lt (Fin c) (visited_get (visited st) (v, labels)) →
  bounded g P (record st c v labels path) ∧
  lexle (measure g P (record st c v labels path)) m.
Proof.
  intros [Hst Hm] Hc Hk Hlt. split.
  - by apply bounded_record.
  - eapply lexle_trans; [|done]. by apply record_measure.
Qed.

Lemma pruned_seed_bounded v st lbl m :
  v ∈ nodes g → lbl ∈ P →
  bounded g P st ∧ lexle (measure g P st) m →
  bounded g P (pruned_seed v st lbl) ∧
  lexle (measure g P (pruned_seed v st lbl)) m.
Proof.
  intros Hv Hlbl Hst. unfold pruned_seed.
  destruct (cost_leb _ _) eqn:Hle; [done|].
  apply cost_leb_false in Hle. apply record_bounded; [done..| |done].
  split; simpl; [by apply nodes_all_vertices | set_solver].
Qed.

Lemma pruned_relax_bounded e st u m :
  nonneg_weights g → (0 ≤ e_cost e)%Z → e_labels e ⊆ P →
  u ∈ neighbors g (e_v e) →
  bounded g P st ∧ lexle (measure g P st) m →
  bounded g P (pruned_relax g P S e st u) ∧
  lexle (measure g P (pruned_relax g P S e st u)) m.
Proof.
  intros Hg Hc HL Hu Hst. unfold pruned_relax.
  destruct (cost_leb _ _); [done|].
  destruct (cost_ltb _ _) eqn:Hlt; [|done].
  specialize (Hg _ _ Hu).
  apply record_bounded; [done | lia | | done].
  split; simpl; [by eapply neighbors_all_vertices | set_solver].
Qed.

Lemma pruned_merge_bounded e st item m :
  (0 ≤ e_cost e)%Z → in_universe g P (e_v e, e_labels e) →
  (0 ≤ item.2)%Z →
  bounded g P st ∧ lexle (measure g P st) m →
  bounded g P (pruned_merge P e st item) ∧
  lexle (measure g P (pruned_merge P e st item)) m.
Proof.
  intros Hc [Hv HL] Hitem Hst. destruct item as [[vv lbls] c].
  unfold pruned_merge. simpl in *.
  destruct (negb (bool_decide (vv = e_v e))); [done|].
  destruct (negb (bool_decide (lbls ⊆ P ∖ e_labels e)) || _) eqn:Hskip;
    [done|].
  apply orb_false_iff in Hskip as [Hsub%negb_false_iff _].
  apply bool_decide_eq_true_1 in Hsub.
  destruct (negb _ && _) eqn:Hpush; [|done].
  apply andb_true_iff in Hpush as [_ Hlt].
  apply record_bounded; [done | lia | | done].
  split; simpl; [done | set_solver].
Qed.

Lemma pruned_body_bounded st e pq' :
  nonneg_weights g → bounded g P st → heappop (pq st) = Some (e, pq') →
  bounded g P (pruned_body g P S e (set_pq st pq')) ∧
  lexlt (measure g P (pruned_body g P S e (set_pq st pq')))
        (measure g P st).
Proof.
  intros Hg Hst Hpop.
  destruct (bounded_pop _ _ _ _ _ Hst Hpop) as (Hst' & Hlt & Hc & Hk).
  unfold pruned_body. repeat case_match; try done.
  set (I := λ st1, bounded g P st1 ∧
              lexle (measure g P st1) (measure g P (set_pq st pq'))).
  cut (I (pruned_expand g P S e (set_pq st pq'))).
  { intros [? ?]. split; [done|]. by eapply lexle_lt_trans. }
  unfold pruned_expand.
  set (st1 := foldl (pruned_relax g P S e) (set_pq st pq')
                (neighbors g (e_v e))).
  assert (I st1) as Hst1.
  { apply (foldl_inv _ I).
    - intros st' u Hu. apply pruned_relax_bounded; [done..|by destruct Hk|done].
    - split; [done | apply lexle_refl]. }
  apply (foldl_inv _ I); [|done]. intros st' item Hitem.
  apply pruned_merge_bounded; [done..|].
  destruct Hst1 as [(_ & Hvis & _) _]. destruct item as [k c].
  by apply (Hvis k c).
Qed.

Lemma pruned_init_bounded :
  set_iter_ok set_iter → bounded g P (pruned_init set_iter g P S).
Proof.
  intros Hiter.
  cut (bounded g P (pruned_init set_iter g P S) ∧
       lexle (measure g P (pruned_init set_iter g P S))
             (measure g P init_state)); [by intros [? _]|].
  unfold pruned_init. apply foldl_inv.
  - intros st v Hv Hst. unfold pruned_seeds. apply foldl_inv; [|done].
    intros st' lbl Hlbl. apply pruned_seed_bounded; [done|].
    rewrite (Hiter _) in Hlbl. apply elem_of_elements in Hlbl.
    set_solver.
  - split; [|apply lexle_refl].
    split_and!; simpl; [constructor | |].
    + by intros ? ? ?%elem_of_nil.
    + by intros ? ?%elem_of_nil.
Qed.

Lemma pruned_dp_terminates :
  nonneg_weights g → set_iter_ok set_iter →
  ∃ fuel r, pruned_dp set_iter fuel g P S = Some r.
Proof.
  intros Hg Hiter. unfold pruned_dp.
  destruct (search_terminates (pruned_body g P S) (bounded g P)
              (measure g P)) with (st := pruned_init set_iter g P S)
    as (fuel & r & Hrun).
  - intros. by apply pruned_body_bounded.
  - by apply pruned_init_bounded.
  - exists fuel, r. by rewrite pruned_loop_search.
Qed.
End pruned_termination.

(** ** The brute-force reference *)






Lemma cost_le_total a b : cost_le a b ∨ cost_le b a.
Proof.
  unfold cost_le. destruct a, b; simpl; auto.
  rewrite !Z.leb_le. lia.
Qed.






(** ** Pruned mode with at most two labels: walks behind the costs *)

Section reverse_walks.
Context (g : graph) (P : labelset) (S : gmap vertex labelset).





End reverse_walks.



Lemma pruned_dp_covering set_iter fuel g P S c path :
  undirected g → set_iter_ok set_iter →
  pruned_dp set_iter fuel g P S = Some (Fin c, path) →
  ∃ p, covering_walk g P S p ∧ (walk_weight g p ≤ 2 * c)%Z.
Proof.
  intros Hsym Hiter Hrun.
  destruct (pruned_dp_sound _ _ _ _ _ _ Hsym Hiter Hrun)
    as (st & (_ & _ & Hbest) & [= Hc ->]).
  rewrite <-Hc in Hbest. destruct Hbest as (v & labels & Hk & Hfull).
  by eapply tree_ok_covering.
Qed.

Lemma pruned_dp_Inf_path set_iter fuel g P S path :
  undirected g → set_iter_ok set_iter →
  pruned_dp set_iter fuel g P S = Some (Inf, path) → path = [].
Proof.
  intros Hsym Hiter Hrun.
  destruct (pruned_dp_sound _ _ _ _ _ _ Hsym Hiter Hrun)
    as (st & (_ & _ & Hbest) & [= Hc ->]).
  by rewrite <-Hc in Hbest.
Qed.


Lemma set_iter_ok_elements : set_iter_ok elements.
Proof. intros X. reflexivity. Defined.


(** ** The visited table only improves *)

Lemma improves_refl vis : improves vis vis.
Proof. intros k. by left. Qed.

Lemma improves_trans vis1 vis2 vis3 :
  improves vis1 vis2 → improves vis2 vis3 → improves vis1 vis3.
Proof.
  intros H12 H23 k. destruct (H23 k) as [Heq|(c3 & Hget3 & Hlt3)].
  - rewrite Heq. apply H12.
  - right. exists c3. split; [done|].
    destruct (H12 k) as [Heq|(c2 & Hget2 & Hlt2)].
    + unfold visited_get in *. by rewrite <-Heq.
    + unfold visited_get in Hlt3. rewrite Hget2 in Hlt3.
      by eapply cost_lt_trans.
Qed.

Lemma improves_record st c v labels path :
  cost_lt (Fin c) (visited_get (visited st) (v, labels)) →
  improves (visited st) (visited (record st c v labels path)).
Proof.
  intros Hlt k. simpl. rewrite dict_get_set. case_decide as Hk.
  - subst k. right. eauto.
  - by left.
Qed.

Lemma improves_foldl {B} (f : state → B → state) (l : list B) st :
  (∀ st b, improves (visited st) (visited (f st b))) →
  improves (visited st) (visited (foldl f st l)).
Proof.
  intros Hf. revert st. induction l as [|b l IH]; intros st; simpl.
  - apply improves_refl.
  - eapply improves_trans; [apply Hf | apply IH].
Qed.

Lemma basic_relax_improves g P S e st u :
  improves (visited st) (visited (basic_relax g P S e st u)).
Proof.
  unfold basic_relax. destruct (cost_ltb _ _) eqn:Hlt.
  - by apply improves_record.
  - apply improves_refl.
Qed.

Lemma basic_body_improves g P S e st :
  improves (visited st) (visited (basic_body g P S e st)).
Proof.
  unfold basic_body. repeat case_match; try apply improves_refl.
  apply improves_foldl. intros. apply basic_relax_improves.
Qed.

Lemma pruned_seed_improves v st lbl :
  improves (visited st) (visited (pruned_seed v st lbl)).
Proof.
  unfold pruned_seed. destruct (cost_leb _ _) eqn:Hle.
  - apply improves_refl.
  - apply improves_record. by apply cost_leb_false.
Qed.

Lemma pruned_relax_improves g P S e st u :
  improves (visited st) (visited (pruned_relax g P S e st u)).
Proof.
  unfold pruned_relax. destruct (cost_leb _ _); [apply improves_refl|].
  destruct (cost_ltb _ _) eqn:Hlt.
  - by apply improves_record.
  - apply improves_refl.
Qed.

Lemma pruned_merge_improves P e st item :
  improves (visited st) (visited (pruned_merge P e st item)).
Proof.
  destruct item as [[vv lbls] c]. unfold pruned_merge.
  destruct (negb (bool_decide _)); [apply improves_refl|].
  destruct (negb _ || _); [apply improves_refl|].
  destruct (negb _ && _) eqn:Hpush; [|apply improves_refl].
  apply andb_true_iff in Hpush as [_ Hlt]. by apply improves_record.
Qed.

Lemma pruned_body_improves g P S e st :
  improves (visited st) (visited (pruned_body g P S e st)).
Proof.
  unfold pruned_body. repeat case_match; try apply improves_refl.
  unfold pruned_expand.
  set (st1 := foldl (pruned_relax g P S e) st (neighbors g (e_v e))).
  apply (improves_trans _ (visited st1)).
  - apply improves_foldl. intros. apply pruned_relax_improves.
  - apply improves_foldl. intros. apply pruned_merge_improves.
Qed.

Lemma pop_steps_improve body st st' :
  (∀ e st, improves (visited st) (visited (body e st))) →
  rtc (pop_step body) st st' → improves (visited st) (visited st').
Proof.
  intros Hbody. induction 1 as [|st1 st2 st3 (e & pq' & Hpop & ->) _ IH].
  - apply improves_refl.
  - eapply improves_trans; [|exact IH]. apply (Hbody e (set_pq st1 pq')).
Qed.

(** During the seeding of [basic] every recorded cost is zero. *)
Lemma basic_seeding_zero P S vs k c :
  dict_get (visited (foldl (basic_seed P S) init_state vs)) k = Some c →
  c = 0%Z.
Proof.
  revert k c. apply (foldl_inv _ (λ st, ∀ k c,
    dict_get (visited st) k = Some c → c = 0%Z)); [|done].
  intros st v _ IH k c. unfold basic_seed. simpl. rewrite dict_get_set.
  case_decide; [congruence | apply IH].
Qed.

Lemma basic_seeding_improves P S vs1 vs2 :
  improves (visited (foldl (basic_seed P S) init_state vs1))
           (visited (foldl (basic_seed P S) init_state (vs1 ++ vs2))).
Proof.
  induction vs2 as [|v vs2 IH] using rev_ind.
  { rewrite app_nil_r. apply improves_refl. }
  eapply improves_trans; [exact IH|].
  assert (foldl (basic_seed P S) init_state (vs1 ++ vs2 ++ [v])
          = basic_seed P S (foldl (basic_seed P S) init_state (vs1 ++ vs2)) v)
    as -> by by rewrite (assoc_L (++)), foldl_app.
  set (st := foldl (basic_seed P S) init_state (vs1 ++ vs2)).
  intros k. unfold basic_seed. simpl. rewrite dict_get_set.
  case_decide as Hk; [|by left]. subst k.
  destruct (dict_get (visited st) (v, S_get S v ∩ P)) as [c|] eqn:Hget.
  - left. by rewrite (basic_seeding_zero _ _ _ _ _ Hget).
  - right. exists 0%Z. split; [done|]. unfold visited_get. by rewrite Hget.
Qed.

(** ** The best cost is never negative *)

Lemma pruned_record_best st c v labels path :
  best_cost (record st c v labels path) = best_cost st.
Proof. done. Qed.

Lemma pruned_expand_best g P S e st :
  best_cost (pruned_expand g P S e st) = best_cost st.
Proof.
  unfold pruned_expand.
  set (st1 := foldl (pruned_relax g P S e) st (neighbors g (e_v e))).
  assert (best_cost st1 = best_cost st) as <-.
  { apply (foldl_inv _ (λ st', best_cost st' = best_cost st)); [|done].
    intros st' u _ <-. unfold pruned_relax. by repeat case_match. }
  apply (foldl_inv _ (λ st', best_cost st' = best_cost st1)); [|done].
  intros st' [[vv lbls] c] _ <-. unfold pruned_merge. by repeat case_match.
Qed.

Lemma pruned_body_best g P S e st :
  best_cost (pruned_body g P S e st) = best_cost st ∨
  best_cost (pruned_body g P S e st) = Fin (e_cost e).
Proof.
  unfold pruned_body. repeat case_match; auto.
  left. apply pruned_expand_best.
Qed.

Lemma pruned_dp_nonneg set_iter fuel g P S c path :
  nonneg_weights g → set_iter_ok set_iter →
  pruned_dp set_iter fuel g P S = Some (Fin c, path) → (0 ≤ c)%Z.
Proof.
  intros Hg Hiter. unfold pruned_dp. rewrite pruned_loop_search.
  intros (st & Hrtc & _ & [= Hc _])%search_loop_Some.
  cut (bounded g P st ∧ ∀ z, best_cost st = Fin z → (0 ≤ z)%Z).
  { intros [_ Hbest]. by apply Hbest. }
  eapply (pop_steps_inv _ (λ st, bounded g P st ∧
            ∀ z, best_cost st = Fin z → (0 ≤ z)%Z)); [|done|].
  - clear Hrtc Hc. intros st0 e pq' [Hst Hbest] Hpop. split.
    + by apply pruned_body_bounded.
    + intros z Hz.
      destruct (pruned_body_best g P S e (set_pq st0 pq')) as [Heq|Heq];
        rewrite Heq in Hz.
      * by apply Hbest.
      * injection Hz as <-.
        by destruct (bounded_pop _ _ _ _ _ Hst Hpop) as (_ & _ & ? & _).
  - split; [by apply pruned_init_bounded|].
    cut (best_cost (pruned_init set_iter g P S) = Inf); [by intros ->|].
    unfold pruned_init.
    apply (foldl_inv _ (λ st', best_cost st' = Inf)); [|done].
    intros st' v _ Hst'. unfold pruned_seeds.
    apply (foldl_inv _ (λ st', best_cost st' = Inf)); [|done].
    intros st'' lbl _ <-. unfold pruned_seed. by case_match.
Qed.

Lemma basic_nonneg fuel g P S c path :
  nonneg_weights g → basic fuel g P S = Some (Fin c, path) → (0 ≤ c)%Z.
Proof.
  intros Hg Hrun.
  destruct (basic_sound _ _ _ _ _ Hrun) as (st & [_ Hbest] & [= Hc ->]).
  symmetry in Hc.
  destruct (best_ok_covering _ _ _ _ _ Hbest Hc)
    as [[[v (_ & _ & Hwalk)] _] <-].
  by apply walk_weight_nonneg.
Qed.

(** ** Pruning and merging *)

Lemma pruned_merge_pq P e st item e' :
  e' ∈ pq (pruned_merge P e st item) →
  e' ∈ pq st ∨
  (item.1.1 = e_v e ∧
   exceeds_two_thirds (e_cost e') (best_cost st) = false ∧
   e' = Entry (e_cost e + item.2) (e_v e) (e_labels e ∪ item.1.2) (e_path e)).
Proof.
  destruct item as [[vv lbls] c]. unfold pruned_merge. simpl.
  destruct (bool_decide (vv = e_v e)) eqn:Hvv; simpl; [|by left].
  apply bool_decide_eq_true_1 in Hvv as ->.
  destruct (negb _ || _); [by left|].
  destruct (negb _ && _) eqn:Hpush; [|by left].
  apply andb_true_iff in Hpush as [Hbound%negb_true_iff _].
  simpl. intros [->|?]%elem_of_heappush; [right | by left]. done.
Qed.

Lemma pruned_merge_best P e st item :
  best_cost (pruned_merge P e st item) = best_cost st.
Proof.
  destruct item as [[vv lbls] c]. unfold pruned_merge. by repeat case_match.
Qed.

Lemma pruned_merge_visited P e st item k c :
  (k, c) ∈ visited (pruned_merge P e st item) →
  (k, c) ∈ visited st ∨ k.1 = e_v e.
Proof.
  destruct item as [[vv lbls] c0]. unfold pruned_merge.
  repeat case_match; try (by left).
  simpl. intros [[-> ->]|?]%dict_set_elem; [by right | by left].
Qed.

Lemma pruned_merge_loop_pq P e items st e' :
  e' ∈ pq (foldl (pruned_merge P e) st items) →
  e' ∈ pq st ∨
  ∃ lbls c, ((e_v e, lbls), c) ∈ items ∧
    e' = Entry (e_cost e + c) (e_v e) (e_labels e ∪ lbls) (e_path e).
Proof.
  induction items as [|item items IH] using rev_ind; simpl.
  { by left. }
  rewrite foldl_app. simpl.
  intros [He'|(Hv & _ & ->)]%pruned_merge_pq.
  - destruct (IH He') as [?|(lbls & c & Hin & ->)]; [by left|].
    right. exists lbls, c. split; [|done]. apply elem_of_app. by left.
  - right. destruct item as [[vv lbls] c]. simpl in *. subst vv.
    exists lbls, c. split; [|done].
    apply elem_of_app. right. by apply list_elem_of_singleton.
Qed.

(** ** The empty query and single-vertex solutions *)

Lemma basic_init_pq_length g P S :
  length (pq (basic_init g P S)) = length (nodes g).
Proof.
  unfold basic_init.
  cut (∀ vs st, length (pq (foldl (basic_seed P S) st vs))
                = length (pq st) + length vs).
  { intros H. by rewrite H. }
  induction vs as [|v vs IH]; intros st; simpl; [lia|].
  rewrite IH. simpl. rewrite heappush_length. lia.
Qed.

(** After seeding, the frontier holds single-vertex paths of cost zero whose
    states are recorded at cost zero. *)
Lemma basic_init_entries g P S e :
  e ∈ pq (basic_init g P S) →
  e_cost e = 0%Z ∧ e_path e = [e_v e] ∧ e_v e ∈ nodes g ∧
  e_labels e = S_get S (e_v e) ∩ P ∧
  dict_get (visited (basic_init g P S)) (e_v e, e_labels e) = Some 0%Z.
Proof.
  unfold basic_init. revert e.
  apply (foldl_inv _ (λ st,
    (∀ k c, dict_get (visited st) k = Some c → c = 0%Z) ∧
    ∀ e, e ∈ pq st →
      e_cost e = 0%Z ∧ e_path e = [e_v e] ∧ e_v e ∈ nodes g ∧
      e_labels e = S_get S (e_v e) ∩ P ∧
      dict_get (visited st) (e_v e, e_labels e) = Some 0%Z)).
  - intros st v Hv [Hzero Hpq]. split.
    + intros k c. unfold basic_seed. simpl. rewrite dict_get_set.
      case_decide; [congruence | apply Hzero].
    + intros e. unfold basic_seed. simpl.
      intros [->|He]%elem_of_heappush; simpl.
      * split_and!; try done. apply dict_get_set_eq.
      * destruct (Hpq e He) as (? & ? & ? & ? & Hget).
        split_and!; try done. rewrite dict_get_set. by case_decide.
  - split; [done|]. by intros e ?%elem_of_nil.
Qed.

Lemma basic_init_best g P S :
  best_cost (basic_init g P S) = Inf ∧ best_path (basic_init g P S) = [].
Proof.
  unfold basic_init.
  apply (foldl_inv _ (λ st, best_cost st = Inf ∧ best_path st = []));
    [|done].
  by intros st v _ [? ?].
Qed.

Lemma basic_empty_query_loop g S n st :
  length (pq st) = n →
  (∀ e, e ∈ pq st →
     e_cost e = 0%Z ∧ e_path e = [e_v e] ∧ e_v e ∈ nodes g ∧
     dict_get (visited st) (e_v e, e_labels e) = Some 0%Z) →
  (best_cost st = Inf ∧ pq st ≠ []) ∨
  (∃ v, best_cost st = Fin 0 ∧ best_path st = [v] ∧ v ∈ nodes g) →
  ∃ v, search_loop (basic_body g ∅ S) (Datatypes.S n) st = Some (Fin 0, [v]) ∧
       v ∈ nodes g.
Proof.
  revert st. induction n as [|n IH]; intros st Hlen Hpq Hbest.
  { apply nil_length_inv in Hlen. simpl. rewrite Hlen. simpl.
    destruct Hbest as [[_ ?]|(v & -> & -> & ?)]; [done | eauto]. }
  destruct (heappop (pq st)) as [[e pq']|] eqn:Hpop; cycle 1.
  { apply (heappop_None entry_lt) in Hpop. by rewrite Hpop in Hlen. }
  change (search_loop (basic_body g ∅ S) (Datatypes.S (Datatypes.S n)) st)
    with (match heappop (pq st) with
          | None => Some (best_cost st, best_path st)
          | Some (e, pq') =>
              search_loop (basic_body g ∅ S) (Datatypes.S n)
                (basic_body g ∅ S e (set_pq st pq'))
          end).
  rewrite Hpop.
  assert (e ∈ pq st) as He.
  { apply (elem_of_heappop _ _ _ _ Hpop). by left. }
  destruct (Hpq e He) as (Hc & Hpath & Hnode & Hget).
  assert (length pq' = n) as Hlen'.
  { apply heappop_length in Hpop. lia. }
  assert (∀ e', e' ∈ pq' → e' ∈ pq st) as Hsub.
  { intros e' ?. apply (elem_of_heappop _ _ _ _ Hpop). by right. }
  set (st' := basic_body g ∅ S e (set_pq st pq')).
  assert (pq st' = pq' ∧ visited st' = visited st ∧
          ∃ v, best_cost st' = Fin 0 ∧ best_path st' = [v] ∧ v ∈ nodes g)
    as (Hpq' & Hvis' & Hbest').
  { unfold st', basic_body. simpl. rewrite Hget, Hc.
    rewrite bool_decide_eq_false_2 by (intros Hne; by apply Hne).
    rewrite (bool_decide_eq_true_2 (∅ ⊆ e_labels e)) by set_solver.
    destruct Hbest as [[Hinf _]|(v & Hv & Hp & Hvn)].
    - rewrite Hinf. simpl. split_and!; [done..|].
      exists (e_v e). by rewrite Hpath.
    - rewrite Hv. simpl. split_and!; [done..|]. eauto. }
  apply IH; [by rewrite Hpq' | | by right].
  rewrite Hpq', Hvis'. auto.
Qed.

Lemma basic_empty_query g S :
  nodes g ≠ [] →
  ∃ fuel v, basic fuel g ∅ S = Some (Fin 0, [v]) ∧ v ∈ nodes g.
Proof.
  intros Hne. exists (Datatypes.S (length (pq (basic_init g ∅ S)))).
  unfold basic. rewrite basic_loop_search.
  apply basic_empty_query_loop; [done | |].
  - intros e He.
    by destruct (basic_init_entries _ _ _ _ He) as (? & ? & ? & _ & ?).
  - left. split; [apply basic_init_best|].
    intros Hnil. apply (f_equal length) in Hnil.
    rewrite basic_init_pq_length in Hnil. by destruct (nodes g).
Qed.

Lemma pruned_empty_query set_iter g S fuel :
  set_iter_ok set_iter →
  pruned_dp set_iter (Datatypes.S fuel) g ∅ S = Some (Inf, []).
Proof.
  intros Hiter. unfold pruned_dp.
  assert (pruned_init set_iter g ∅ S = init_state) as ->; [|done].
  unfold pruned_init.
  apply (foldl_inv _ (λ st, st = init_state)); [|done].
  intros st v _ ->. unfold pruned_seeds.
  assert (S_get S v ∩ ∅ = (∅ : labelset)) as -> by set_solver.
  assert (set_iter ∅ = []) as ->; [|done].
  apply Permutation_nil_r. by rewrite (Hiter ∅), elements_empty.
Qed.


(** * The claims *)



(** The reference run on the triangle of the specification. *)
Example brute_force_triangle :
  brute_force triangle xy triangle_S 3 = Fin 2 ∧
  basic 100 triangle xy triangle_S = Some (Fin 2, ["B"; "A"]).
Proof. split; vm_compute; reflexivity. Qed.




(** With two labels the triangle of the specification is solved alike by
    both searches. *)
Example pruned_triangle :
  pruned_dp elements 100 triangle xy triangle_S = Some (Fin 2, ["B"; "A"]).
Proof. vm_compute. reflexivity. Qed.

(** C3.  For the empty query [basic] returns cost 0 and a single vertex of
    the graph, as the claim says; [pruned_dp] seeds one state per label of
    [S(v) ∩ P], so it seeds nothing, and returns an infinite cost and the
    empty path. *)
Theorem empty_query (set_iter : labelset → list label) (g : graph)
    (S : gmap vertex labelset) :
  nodes g ≠ [] → set_iter_ok set_iter →
  (∃ fuel v, basic fuel g ∅ S = Some (Fin 0, [v]) ∧ v ∈ nodes g) ∧
  ∀ fuel, pruned_dp set_iter (Datatypes.S fuel) g ∅ S = Some (Inf, []).
Proof.
  intros Hne Hiter. split.
  - by apply basic_empty_query.
  - intros fuel. by apply pruned_empty_query.
Qed.

Lemma empty_query_witness :
  nodes apart ≠ [] ∧ set_iter_ok elements ∧
  (∃ fuel v, basic fuel apart ∅ apart_S = Some (Fin 0, [v]) ∧
             v ∈ nodes apart) ∧
  ∀ fuel, pruned_dp elements (Datatypes.S fuel) apart ∅ apart_S
          = Some (Inf, []).
Proof.
  assert (nodes apart ≠ []) as Hne by discriminate.
  split_and!; [exact Hne | exact set_iter_ok_elements | |].
  - exact (proj1 (empty_query elements apart apart_S Hne
                    set_iter_ok_elements)).
  - exact (proj2 (empty_query elements apart apart_S Hne
                    set_iter_ok_elements)).
Defined.



(** C5. When [basic] returns a finite cost, the labels of [P] carried by the
    vertices of the returned path are all of [P]. *)
Theorem basic_path_covers (fuel : nat) (g : graph) (P : labelset)
    (S : gmap vertex labelset) (c : Z) (path : list vertex) :
  basic fuel g P S = Some (Fin c, path) → coverage P S path = P.
Proof.
  intros Hrun.
  destruct (basic_sound _ _ _ _ _ Hrun) as (st & [_ Hbest] & [= Hc ->]).
  symmetry in Hc.
  by destruct (best_ok_covering _ _ _ _ _ Hbest Hc) as [[_ Hcov] _].
Qed.

Lemma basic_path_covers_witness :
  basic 100 triangle xy triangle_S = Some (Fin 2, ["B"; "A"]) ∧
  coverage xy triangle_S ["B"; "A"] = xy.
Proof.
  assert (basic 100 triangle xy triangle_S = Some (Fin 2, ["B"; "A"]))
    as Hrun by (vm_compute; reflexivity).
  split; [exact Hrun|].
  exact (basic_path_covers 100 triangle xy triangle_S 2 ["B"; "A"] Hrun).
Defined.



(** C7. In both searches an entry of the visited table, once set, changes
    only to a strictly lower cost: this holds while the start states are
    seeded and over any number of iterations of the main loop.  On graphs
    with non-negative weights the best cost reported is not negative. *)
Theorem visited_only_improves (set_iter : labelset → list label)
    (g : graph) (P : labelset) (S : gmap vertex labelset) :
  (∀ vs1 vs2,
     improves (visited (foldl (basic_seed P S) init_state vs1))
              (visited (foldl (basic_seed P S) init_state (vs1 ++ vs2)))) ∧
  (∀ st st', rtc (pop_step (basic_body g P S)) st st' →
     improves (visited st) (visited st')) ∧
  (∀ st vs,
     improves (visited st)
              (visited (foldl (pruned_seeds set_iter P S) st vs))) ∧
  (∀ st st', rtc (pop_step (pruned_body g P S)) st st' →
     improves (visited st) (visited st')) ∧
  (nonneg_weights g →
   ∀ fuel c path, basic fuel g P S = Some (Fin c, path) → (0 ≤ c)%Z) ∧
  (nonneg_weights g → set_iter_ok set_iter →
   ∀ fuel c path,
     pruned_dp set_iter fuel g P S = Some (Fin c, path) → (0 ≤ c)%Z).
Proof.
  split_and!.
  - apply basic_seeding_improves.
  - intros st st'. apply pop_steps_improve. intros. apply basic_body_improves.
  - intros st vs. apply improves_foldl. intros st' v.
    unfold pruned_seeds. apply improves_foldl. intros.
    apply pruned_seed_improves.
  - intros st st'. apply pop_steps_improve. intros.
    apply pruned_body_improves.
  - intros Hg fuel c path. by apply basic_nonneg.
  - intros Hg Hiter fuel c path. by apply pruned_dp_nonneg.
Qed.

Lemma visited_only_improves_witness :
  nonneg_weights star ∧ set_iter_ok elements ∧
  pruned_dp elements 100 star xyz star_S = Some (Fin 3, ["b"; "m"; "a"]) ∧
  (0 ≤ 3)%Z.
Proof.
  assert (nonneg_weights star) as Hg.
  { apply nonneg_weightsb_spec. vm_compute. reflexivity. }
  assert (pruned_dp elements 100 star xyz star_S
          = Some (Fin 3, ["b"; "m"; "a"])) as Hrun
    by (vm_compute; reflexivity).
  split_and!; [exact Hg | exact set_iter_ok_elements | exact Hrun |].
  exact (proj2 (proj2 (proj2 (proj2 (proj2
           (visited_only_improves elements star xyz star_S)))))
           Hg set_iter_ok_elements 100 3%Z ["b"; "m"; "a"] Hrun).
Defined.

(** C8. A state popped with a cost above two thirds of the current best
    cost is not expanded: the iteration leaves the visited table as it was
    and pushes nothing, so neither the relaxation of its edges nor the merge
    step has run.  Nor does the merge step ever push a state above the
    bound. *)
Theorem pruned_no_expansion_above_bound (g : graph) (P : labelset)
    (S : gmap vertex labelset) (st : state) (e : entry) (pq' : list entry) :
  heappop (pq st) = Some (e, pq') →
  exceeds_two_thirds (e_cost e) (best_cost st) = true →
  visited (pruned_body g P S e (set_pq st pq')) = visited st ∧
  pq (pruned_body g P S e (set_pq st pq')) = pq' ∧
  ∀ e0 st0 item e',
    e' ∈ pq (pruned_merge P e0 st0 item) →
    e' ∈ pq st0 ∨ exceeds_two_thirds (e_cost e') (best_cost st0) = false.
Proof.
  intros _ Hex. split_and!.
  - unfold pruned_body. simpl. rewrite Hex. by repeat case_match.
  - unfold pruned_body. simpl. rewrite Hex. by repeat case_match.
  - intros e0 st0 item e' [?|(_ & ? & _)]%pruned_merge_pq; auto.
Qed.

Lemma pruned_no_expansion_above_bound_witness :
  heappop (pq late_state) = Some (Entry 3 "a" {["x"]} ["a"], []) ∧
  exceeds_two_thirds 3 (best_cost late_state) = true ∧
  visited (pruned_body star xyz star_S (Entry 3 "a" {["x"]} ["a"])
             (set_pq late_state [])) = visited late_state ∧
  pq (pruned_body star xyz star_S (Entry 3 "a" {["x"]} ["a"])
        (set_pq late_state [])) = [].
Proof.
  assert (heappop (pq late_state) = Some (Entry 3 "a" {["x"]} ["a"], []))
    as Hpop by reflexivity.
  assert (exceeds_two_thirds 3 (best_cost late_state) = true)
    as Hex by reflexivity.
  split_and!; [exact Hpop | exact Hex | |].
  - exact (proj1 (pruned_no_expansion_above_bound star xyz star_S
                    late_state _ _ Hpop Hex)).
  - exact (proj1 (proj2 (pruned_no_expansion_above_bound star xyz star_S
                    late_state _ _ Hpop Hex))).
Defined.

(** C9. Every entry that the merge loop of an iteration pushes carries the
    path of the popped entry unchanged, for the vertex of the popped entry,
    the union of the two label sets and the sum of the two costs. *)
Theorem merge_keeps_path (g : graph) (P : labelset)
    (S : gmap vertex labelset) (e : entry) (st : state) (e' : entry) :
  let st1 := foldl (pruned_relax g P S e) st (neighbors g (e_v e)) in
  e' ∈ pq (pruned_expand g P S e st) →
  e' ∈ pq st1 ∨
  ∃ lbls c, ((e_v e, lbls), c) ∈ visited st1 ∧
    e' = Entry (e_cost e + c) (e_v e) (e_labels e ∪ lbls) (e_path e).
Proof.
  intros st1. unfold pruned_expand. fold st1. apply pruned_merge_loop_pq.
Qed.

Lemma merge_keeps_path_witness :
  Entry 2 "m" xy ["a"; "m"] ∈ pq (pruned_expand apart xy apart_S
                                    meet_entry meet_state) ∧
  (Entry 2 "m" xy ["a"; "m"] ∈
     pq (foldl (pruned_relax apart xy apart_S meet_entry) meet_state
           (neighbors apart (e_v meet_entry))) ∨
   ∃ lbls c,
     ((e_v meet_entry, lbls), c) ∈
       visited (foldl (pruned_relax apart xy apart_S meet_entry) meet_state
                  (neighbors apart (e_v meet_entry))) ∧
     Entry 2 "m" xy ["a"; "m"] =
       Entry (e_cost meet_entry + c) (e_v meet_entry)
         (e_labels meet_entry ∪ lbls) (e_path meet_entry)).
Proof.
  assert (Entry 2 "m" xy ["a"; "m"] ∈
            pq (pruned_expand apart xy apart_S meet_entry meet_state))
    as Hin.
  { assert (pq (pruned_expand apart xy apart_S meet_entry meet_state)
            = [Entry 2 "m" xy ["a"; "m"]]) as ->
      by (vm_compute; reflexivity).
    apply list_elem_of_singleton. reflexivity. }
  split; [exact Hin|].
  exact (merge_keeps_path apart xy apart_S meet_entry meet_state _ Hin).
Defined.




(** * Further properties of the code *)

(** ** The fallback [Graph] class *)

Section dict_more.
Context {K V : Type} `{EqDecision K}.
Implicit Types (d : list (K * V)) (k : K) (v : V).

Lemma dict_keys_set_elem d k v x :
  x ∈ dict_keys (dict_set d k v) ↔ x ∈ dict_keys d ∨ x = k.
Proof.
  rewrite dict_keys_set. destruct (dict_get d k) eqn:Hk.
  - split; [by left|]. intros [?| ->]; [done|].
    apply dict_get_Some_elem in Hk. by eapply dict_elem_key.
  - rewrite elem_of_app, list_elem_of_singleton. done.
Qed.

Lemma dict_get_is_Some d k : is_Some (dict_get d k) ↔ k ∈ dict_keys d.
Proof.
  destruct (dict_get d k) eqn:Hk.
  - split; [|eauto]. intros _. apply dict_get_Some_elem in Hk.
    by eapply dict_elem_key.
  - split; [by intros [? ?]|]. intros Hin. by apply dict_get_None in Hk.
Qed.

Lemma dict_set_length d k v :
  length (dict_set d k v) =
    if decide (k ∈ dict_keys d) then length d else Datatypes.S (length d).
Proof.
  case_decide as Hk.
  - apply dict_set_length_Some. by apply dict_get_is_Some.
  - apply dict_set_length_None. by apply dict_get_None.
Qed.

Lemma dict_keys_length d : length (dict_keys d) = length d.
Proof. apply length_fmap. Qed.
End dict_more.

Lemma adj_dict_set g k a v :
  adj (dict_set g k a) v = if decide (k = v) then a else adj g v.
Proof. unfold adj. rewrite dict_get_set. by case_decide. Qed.

Lemma nodes_dict_set g k a :
  nodes (dict_set g k a) =
    if decide (k ∈ nodes g) then nodes g else nodes g ++ [k].
Proof.
  unfold nodes. rewrite dict_keys_set. case_decide as Hk.
  - apply dict_get_is_Some in Hk as [x ->]. done.
  - apply dict_get_None in Hk. by rewrite Hk.
Qed.

Lemma adj_add_edge g u v w a :
  adj (add_edge g u v w) a =
    if decide (v = a) then
      dict_set (if decide (u = v) then dict_set (adj g u) v (Some w)
                else adj g v) u (Some w)
    else if decide (u = a) then dict_set (adj g u) v (Some w)
    else adj g a.
Proof. unfold add_edge. by rewrite !adj_dict_set. Qed.

Lemma neighbors_add_edge g u v w a b :
  b ∈ neighbors (add_edge g u v w) a ↔
  b ∈ neighbors g a ∨ (a = u ∧ b = v) ∨ (a = v ∧ b = u).
Proof.
  unfold neighbors. rewrite adj_add_edge.
  repeat case_decide; subst; rewrite ?dict_keys_set_elem; naive_solver.
Qed.

Lemma edge_weight_add_edge g u v w a b :
  edge_weight (add_edge g u v w) a b =
    if decide ((a = u ∧ b = v) ∨ (a = v ∧ b = u)) then w
    else edge_weight g a b.
Proof.
  unfold edge_weight. rewrite adj_add_edge.
  repeat case_decide; subst; rewrite ?dict_get_set;
    repeat case_decide; subst; try done; naive_solver.
Qed.

Lemma nodes_add_edge g u v w :
  nodes (add_edge g u v w) =
    nodes g ++ (if decide (u ∈ nodes g) then [] else [u])
            ++ (if decide (v ∈ nodes g ∨ v = u) then [] else [v]).
Proof.
  unfold add_edge. rewrite !nodes_dict_set.
  destruct (decide (u ∈ nodes g)) as [Hu|Hu].
  - rewrite app_nil_l. repeat case_decide; try done; try naive_solver.
    by rewrite app_nil_r.
  - destruct (decide (v ∈ nodes g ∨ v = u)) as [Hv|Hv].
    + rewrite decide_True; [done|].
      rewrite elem_of_app, list_elem_of_singleton. done.
    + rewrite decide_False; [by rewrite <-(assoc_L (++))|].
      rewrite elem_of_app, list_elem_of_singleton. done.
Qed.

Lemma nodes_adj_default g v :
  nodes (adj_default g v) =
    if decide (v ∈ nodes g) then nodes g else nodes g ++ [v].
Proof.
  unfold adj_default. destruct (dict_get g v) eqn:Hv.
  - rewrite decide_True; [done|]. apply dict_get_is_Some. eauto.
  - rewrite nodes_dict_set. done.
Qed.

Lemma adj_adj_default g v a : adj (adj_default g v) a = adj g a.
Proof.
  unfold adj_default. destruct (dict_get g v) eqn:Hv; [done|].
  rewrite adj_dict_set. case_decide; [|done]. subst a.
  unfold adj. by rewrite Hv.
Qed.

Lemma neighbors_adj_default g v a :
  neighbors (adj_default g v) a = neighbors g a.
Proof. unfold neighbors. by rewrite adj_adj_default. Qed.

Lemma edge_weight_adj_default g v a b :
  edge_weight (adj_default g v) a b = edge_weight g a b.
Proof. unfold edge_weight. by rewrite adj_adj_default. Qed.

Lemma elem_of_nodes_add_edge g u v w x :
  x ∈ nodes (add_edge g u v w) ↔ x ∈ nodes g ∨ x = u ∨ x = v.
Proof.
  unfold add_edge, nodes. rewrite !dict_keys_set_elem. naive_solver.
Qed.

Lemma adj_not_node g v : v ∉ nodes g → adj g v = [].
Proof. unfold adj, nodes. intros Hv%dict_get_None. by rewrite Hv. Qed.

Lemma well_formed_nil : well_formed [].
Proof.
  split_and!.
  - constructor.
  - intros v. constructor.
  - by intros v u ?%elem_of_nil.
  - by intros v u ?%elem_of_nil.
Qed.

Lemma well_formed_adj_default g v :
  well_formed g → well_formed (adj_default g v).
Proof.
  intros (Hnd & Hnb & Hclosed & Hsym). split_and!.
  - unfold adj_default. case_match; [done|]. by apply dict_set_NoDup.
  - intros a. by rewrite neighbors_adj_default.
  - intros a b. rewrite neighbors_adj_default, nodes_adj_default.
    intros Hb%Hclosed. case_decide; [done|]. apply elem_of_app. by left.
  - intros a b. rewrite !neighbors_adj_default, !edge_weight_adj_default.
    apply Hsym.
Qed.

Lemma well_formed_add_edge g u v w :
  well_formed g → well_formed (add_edge g u v w).
Proof.
  intros (Hnd & Hnb & Hclosed & Hsym). split_and!.
  - unfold add_edge, nodes. by do 2 apply dict_set_NoDup.
  - intros a. unfold neighbors. rewrite adj_add_edge.
    repeat case_decide; repeat apply dict_set_NoDup; apply Hnb.
  - intros a b. rewrite neighbors_add_edge, !elem_of_nodes_add_edge.
    intros [Hb%Hclosed|[[-> ->]|[-> ->]]]; auto.
  - intros a b. rewrite !neighbors_add_edge, !edge_weight_add_edge.
    intros [Hb|[[-> ->]|[-> ->]]].
    + destruct (Hsym _ _ Hb) as [Ha Hweight]. split; [by left|].
      repeat case_decide; try done; naive_solver.
    + split; [by right; right|]. by rewrite !decide_True by naive_solver.
    + split; [by right; left|]. by rewrite !decide_True by naive_solver.
Qed.

Lemma built_is_well_formed g : built g → well_formed g.
Proof.
  induction 1; [apply well_formed_nil | by apply well_formed_adj_default
               | by apply well_formed_add_edge].
Qed.

Lemma simple_built g : simple g → built g.
Proof. induction 1; by constructor. Qed.

Lemma simple_loop_free g : simple g → loop_free g.
Proof.
  induction 1 as [|g v _ IH|g u v w _ IH Hne]; intros a.
  - by intros ?%elem_of_nil.
  - rewrite neighbors_adj_default. apply IH.
  - rewrite neighbors_add_edge. intros [?|[[-> ->]|[-> ->]]]; [|done..].
    by apply (IH a).
Qed.

(** *** Degrees *)

Lemma sum_list_update (l : list vertex) (f f' : vertex → nat) k :
  NoDup l → k ∈ l → (∀ v, v ≠ k → f' v = f v) →
  sum_list (f' <$> l) + f k = sum_list (f <$> l) + f' k.
Proof.
  intros Hnd Hk Hf. induction l as [|a l IH]; [by apply elem_of_nil in Hk|].
  apply NoDup_cons in Hnd as [Ha Hnd]. csimpl.
  destruct (decide (a = k)) as [->|Hne].
  - assert (sum_list (f' <$> l) = sum_list (f <$> l)) as ->; [|lia].
    f_equal. apply list_fmap_ext. intros i v Hv%list_elem_of_lookup_2.
    apply Hf. by intros ->.
  - apply elem_of_cons in Hk as [->|Hk]; [done|].
    specialize (IH Hnd Hk). rewrite (Hf a Hne). lia.
Qed.

Lemma degree_sum_dict_set g k a :
  NoDup (nodes g) →
  degree_sum (dict_set g k a) + length (adj g k) = degree_sum g + length a.
Proof.
  intros Hnd. unfold degree_sum. rewrite nodes_dict_set.
  case_decide as Hk.
  - rewrite (sum_list_update (nodes g) (λ v, length (adj g v))
               (λ v, length (adj (dict_set g k a) v)) k Hnd Hk).
    + rewrite adj_dict_set. by rewrite decide_True.
    + intros v Hv. rewrite adj_dict_set. by rewrite decide_False.
  - rewrite fmap_app, sum_list_with_app. csimpl.
    rewrite adj_dict_set, decide_True by done.
    rewrite (adj_not_node _ _ Hk). csimpl.
    assert (sum_list ((λ v, length (adj (dict_set g k a) v)) <$> nodes g)
            = sum_list ((λ v, length (adj g v)) <$> nodes g)) as ->; [|lia].
    f_equal. apply list_fmap_ext. intros i v Hv%list_elem_of_lookup_2.
    rewrite adj_dict_set. rewrite decide_False; [done|]. by intros ->.
Qed.

Lemma degree_sum_adj_default g v :
  NoDup (nodes g) → degree_sum (adj_default g v) = degree_sum g.
Proof.
  intros Hnd. unfold adj_default. destruct (dict_get g v) eqn:Hv; [done|].
  pose proof (degree_sum_dict_set g v [] Hnd) as H.
  rewrite adj_not_node in H by (by apply dict_get_None). simpl in H. lia.
Qed.

Lemma degree_sum_add_edge g u v w :
  NoDup (nodes g) →
  degree_sum (add_edge g u v w) =
    degree_sum g + (if decide (v ∈ neighbors g u) then 0 else 1)
                 + (if decide (u ∈ neighbors g v ∨ u = v) then 0 else 1).
Proof.
  intros Hnd. unfold add_edge.
  set (g1 := dict_set g u (dict_set (adj g u) v (Some w))).
  assert (NoDup (nodes g1)) as Hnd1 by by apply dict_set_NoDup.
  pose proof (degree_sum_dict_set g u (dict_set (adj g u) v (Some w)) Hnd)
    as H1. fold g1 in H1.
  pose proof (degree_sum_dict_set g1 v (dict_set (adj g1 v) u (Some w)) Hnd1)
    as H2.
  assert (adj g1 v = if decide (u = v) then dict_set (adj g u) v (Some w)
                     else adj g v) as Hadj by apply adj_dict_set.
  rewrite Hadj in H2. rewrite Hadj. clear Hadj.
  assert (∀ (d : list (vertex * option Z)) k x,
            length (dict_set d k x) =
              length d + (if decide (k ∈ dict_keys d) then 0 else 1)) as Hlen.
  { intros d k x. destruct (decide (k ∈ dict_keys d)) as [Hk|Hk].
    - rewrite dict_set_length_Some by (by apply dict_get_is_Some). lia.
    - rewrite dict_set_length_None by (by apply dict_get_None). lia. }
  destruct (decide (u = v)) as [->|Hne].
  - rewrite Hlen in H1.
    rewrite (Hlen (dict_set (adj g v) v (Some w))), !(Hlen (adj g v)) in H2.
    unfold neighbors.
    destruct (decide (v ∈ dict_keys (adj g v))) as [Hv|Hv].
    + rewrite (decide_True (P := v ∈ dict_keys (dict_set _ _ _))) in H2
        by (apply dict_keys_set_elem; by right).
      rewrite decide_True by by right. lia.
    + rewrite (decide_True (P := v ∈ dict_keys (dict_set _ _ _))) in H2
        by (apply dict_keys_set_elem; by right).
      rewrite decide_True by by right. lia.
  - rewrite Hlen in H1. rewrite Hlen in H2. unfold neighbors.
    destruct (decide (v ∈ dict_keys (adj g u)));
      destruct (decide (u ∈ dict_keys (adj g v))).
    + rewrite decide_True by by left. lia.
    + rewrite decide_False by naive_solver. lia.
    + rewrite decide_True by by left. lia.
    + rewrite decide_False by naive_solver. lia.
Qed.

Lemma simple_degree_even g : simple g → ∃ k, degree_sum g = 2 * k.
Proof.
  induction 1 as [|g v Hg IH|g u v w Hg IH Hne].
  - by exists 0.
  - rewrite degree_sum_adj_default; [done|].
    by destruct (built_is_well_formed g (simple_built g Hg)).
  - destruct IH as [k Hk].
    destruct (built_is_well_formed g (simple_built g Hg))
      as (Hnd & _ & _ & Hsym).
    rewrite degree_sum_add_edge by done.
    destruct (decide (v ∈ neighbors g u)) as [Hv|Hv].
    + rewrite decide_True by (left; by apply Hsym). exists k. lia.
    + rewrite decide_False; [exists (k + 1); lia|].
      intros [Hu|?]; [|done]. apply Hv. by apply Hsym.
Qed.

Lemma neighbors_add_edge_existing g u v w a :
  v ∈ neighbors g u → u ∈ neighbors g v →
  neighbors (add_edge g u v w) a = neighbors g a.
Proof.
  intros Hv Hu. unfold neighbors in *. rewrite adj_add_edge.
  assert (∀ (d : list (vertex * option Z)) k x,
            k ∈ dict_keys d → dict_keys (dict_set d k x) = dict_keys d)
    as Hkeep.
  { intros d k x [y Hy]%dict_get_is_Some. by rewrite dict_keys_set, Hy. }
  repeat case_decide; subst; rewrite ?Hkeep; try done.
  apply dict_keys_set_elem. by left.
Qed.

Lemma star_simple : simple star.
Proof.
  change star with
    (add_edge (add_edge (add_edge [] "a" "m" 1) "m" "b" 1) "m" "c" 1).
  repeat constructor; done.
Defined.

(** X1. After [add_edge(u, v, weight)] the two vertices are neighbours of
    each other with that weight, in both directions; every other pair of
    vertices is adjacent exactly when it was before, with the weight it had
    before. *)
Theorem add_edge_adjacency (g : graph) (u v : vertex) (w : Z)
    (a b : vertex) :
  (b ∈ neighbors (add_edge g u v w) a ↔
     b ∈ neighbors g a ∨ (a = u ∧ b = v) ∨ (a = v ∧ b = u)) ∧
  edge_weight (add_edge g u v w) a b =
    (if decide ((a = u ∧ b = v) ∨ (a = v ∧ b = u)) then w
     else edge_weight g a b).
Proof. split; [apply neighbors_add_edge | apply edge_weight_add_edge]. Qed.

(** X2. [add_edge] keeps the vertices of the graph in their order and
    enters [u], then [v], at the end when they are new. *)
Theorem add_edge_nodes (g : graph) (u v : vertex) (w : Z) :
  nodes (add_edge g u v w) =
    nodes g ++ (if decide (u ∈ nodes g) then [] else [u])
            ++ (if decide (v ∈ nodes g ∨ v = u) then [] else [v]).
Proof. apply nodes_add_edge. Qed.

(** X3. A graph built with the class, from [Graph()] by [setdefault] and
    [add_edge] calls, has no vertex and no neighbour twice, has all its
    neighbours among its vertices, and is undirected: adjacency and weights
    are symmetric. *)
Theorem built_graph_undirected (g : graph) :
  built g →
  NoDup (nodes g) ∧ (∀ v, NoDup (neighbors g v)) ∧
  (∀ v u, u ∈ neighbors g v → u ∈ nodes g) ∧
  (∀ v u, u ∈ neighbors g v →
     v ∈ neighbors g u ∧ edge_weight g u v = edge_weight g v u).
Proof. apply built_is_well_formed. Qed.

Lemma built_graph_undirected_witness :
  built star ∧
  NoDup (nodes star) ∧ (∀ v, NoDup (neighbors star v)) ∧
  (∀ v u, u ∈ neighbors star v → u ∈ nodes star) ∧
  (∀ v u, u ∈ neighbors star v →
     v ∈ neighbors star u ∧ edge_weight star u v = edge_weight star v u).
Proof.
  assert (built star) as Hb by exact (simple_built star star_simple).
  split; [exact Hb|]. exact (built_graph_undirected star Hb).
Defined.

(** X4. [add_edge] on an edge that exists replaces its weight and nothing
    else: the vertices, every list of neighbours and the sizes that
    [graph_size] reports stay as they are. *)
Theorem add_edge_existing (g : graph) (u v : vertex) (w : Z) :
  built g → v ∈ neighbors g u →
  nodes (add_edge g u v w) = nodes g ∧
  (∀ a, neighbors (add_edge g u v w) a = neighbors g a) ∧
  graph_size (add_edge g u v w) = graph_size g ∧
  edge_weight (add_edge g u v w) u v = w ∧
  edge_weight (add_edge g u v w) v u = w.
Proof.
  intros Hb Hv.
  destruct (built_is_well_formed g Hb) as (Hnd & _ & Hclosed & Hsym).
  destruct (Hsym _ _ Hv) as [Hu _].
  assert (nodes (add_edge g u v w) = nodes g) as Hnodes.
  { rewrite nodes_add_edge.
    rewrite decide_True by (by eapply neighbors_nodes).
    rewrite decide_True by (left; by eapply neighbors_nodes).
    by rewrite !app_nil_r. }
  split_and!; [done | | | |].
  - intros a. by apply neighbors_add_edge_existing.
  - unfold graph_size. rewrite Hnodes. f_equal.
    rewrite degree_sum_add_edge by done.
    rewrite !decide_True by auto. by rewrite !Nat.add_0_r.
  - rewrite edge_weight_add_edge. by rewrite decide_True by auto.
  - rewrite edge_weight_add_edge. by rewrite decide_True by auto.
Qed.

Lemma add_edge_existing_witness :
  built star ∧ "m" ∈ neighbors star "a" ∧
  nodes (add_edge star "a" "m" 7) = nodes star ∧
  (∀ a, neighbors (add_edge star "a" "m" 7) a = neighbors star a) ∧
  graph_size (add_edge star "a" "m" 7) = graph_size star ∧
  edge_weight (add_edge star "a" "m" 7) "a" "m" = 7%Z ∧
  edge_weight (add_edge star "a" "m" 7) "m" "a" = 7%Z.
Proof.
  assert (built star) as Hb by exact (simple_built star star_simple).
  assert ("m" ∈ neighbors star "a") as Hm.
  { apply (bool_decide_unpack _). vm_compute. exact I. }
  split_and!; [exact Hb | exact Hm | ..];
    apply (add_edge_existing star "a" "m" 7 Hb Hm).
Defined.

(** X5. [graph[item]] on a vertex that the graph does not have returns an
    empty adjacency and, because [_adj] is a [defaultdict], enters the
    vertex: it becomes the last vertex, without neighbours, and
    [graph_size] counts one vertex more and the same edges.  On a vertex of
    the graph the access changes nothing. *)
Theorem getitem_missing (g : graph) (item : vertex) :
  (item ∈ nodes g → (getitem g item).2 = g) ∧
  (item ∉ nodes g → NoDup (nodes g) →
     fst (getitem g item) = [] ∧
     nodes (getitem g item).2 = nodes g ++ [item] ∧
     (∀ a, neighbors (getitem g item).2 a = neighbors g a) ∧
     graph_size (getitem g item).2 =
       (Datatypes.S (graph_size g).1, (graph_size g).2)).
Proof.
  unfold getitem. simpl. split.
  - intros [x Hx]%dict_get_is_Some. unfold adj_default. by rewrite Hx.
  - intros Hitem Hnd. split_and!.
    + by apply adj_not_node.
    + rewrite nodes_adj_default. by rewrite decide_False.
    + intros a. apply neighbors_adj_default.
    + unfold graph_size. rewrite degree_sum_adj_default by done.
      rewrite nodes_adj_default, decide_False by done.
      rewrite length_app. simpl. f_equal. lia.
Qed.

Lemma getitem_missing_witness :
  ("z" ∉ nodes star) ∧ NoDup (nodes star) ∧
  fst (getitem star "z") = [] ∧
  nodes (getitem star "z").2 = nodes star ++ ["z"] ∧
  (∀ a, neighbors (getitem star "z").2 a = neighbors star a) ∧
  graph_size (getitem star "z").2 =
    (Datatypes.S (graph_size star).1, (graph_size star).2).
Proof.
  assert ("z" ∉ nodes star) as Hz.
  { apply (bool_decide_unpack _). vm_compute. exact I. }
  assert (NoDup (nodes star)) as Hnd.
  { apply (bool_decide_unpack _). vm_compute. exact I. }
  split_and!; [exact Hz | exact Hnd | ..];
    apply (proj2 (getitem_missing star "z") Hz Hnd).
Defined.

(** X6. On a graph built without self-loops, [graph_size] counts one edge
    more after [add_edge] between two distinct vertices that were not
    adjacent, whereas an edge from a vertex to itself is stored, the vertex
    becomes its own neighbour, but the number of edges reported does not
    change. *)
Theorem graph_size_add_edge (g : graph) (u v : vertex) (w : Z) :
  simple g →
  (u ≠ v → v ∉ neighbors g u →
     (graph_size (add_edge g u v w)).2 = Datatypes.S (graph_size g).2) ∧
  (u ∈ neighbors (add_edge g u u w) u ∧
   (graph_size (add_edge g u u w)).2 = (graph_size g).2).
Proof.
  intros Hs.
  destruct (built_is_well_formed g (simple_built g Hs))
    as (Hnd & _ & _ & Hsym).
  destruct (simple_degree_even g Hs) as [k Hk].
  assert (∀ g', (graph_size g').2 = degree_sum g' / 2) as Hsize by done.
  assert (∀ n, n * 2 / 2 = n) as Hdiv by (intros; by apply Nat.div_mul).
  rewrite !Hsize. split; [|split].
  - intros Hne Hv. rewrite degree_sum_add_edge by done.
    rewrite decide_False by done.
    rewrite decide_False; cycle 1.
    { intros [Hu|?]; [|done]. apply Hv. by apply Hsym. }
    rewrite Hk. replace (2 * k + 1 + 1) with ((k + 1) * 2) by lia.
    replace (2 * k) with (k * 2) by lia. rewrite !Hdiv. lia.
  - apply neighbors_add_edge. right; by left.
  - rewrite degree_sum_add_edge by done.
    rewrite decide_False by apply (simple_loop_free g Hs).
    rewrite decide_True by by right.
    rewrite Hk. replace (2 * k + 1 + 0) with (1 + k * 2) by lia.
    rewrite Nat.div_add by done.
    replace (2 * k) with (k * 2) by lia. rewrite Hdiv. done.
Qed.

Lemma graph_size_add_edge_witness :
  simple star ∧
  ("a" ≠ "b" → "b" ∉ neighbors star "a" →
     (graph_size (add_edge star "a" "b" 1)).2
     = Datatypes.S (graph_size star).2) ∧
  ("a" ∈ neighbors (add_edge star "a" "a" 1) "a" ∧
   (graph_size (add_edge star "a" "a" 1)).2 = (graph_size star).2).
Proof.
  split; [exact star_simple|].
  exact (graph_size_add_edge star "a" "b" 1 star_simple).
Defined.

(** ** [generate_graph] *)

Lemma randint_bounds a b raw : a ≤ b → a ≤ randint a b raw ≤ b.
Proof.
  intros Hab. unfold randint.
  pose proof (Nat.mod_upper_bound raw (b - a + 1)). lia.
Qed.

Lemma vertex_name_inj i j : vertex_name i = vertex_name j → i = j.
Proof. unfold vertex_name. simpl. intros [= H]. by apply (inj pretty). Qed.

Lemma nodes_foldl_adj_default g vs :
  NoDup (nodes g ++ vs) →
  nodes (foldl adj_default g vs) = nodes g ++ vs.
Proof.
  revert g. induction vs as [|v vs IH]; intros g Hnd; simpl.
  { by rewrite app_nil_r. }
  assert (v ∉ nodes g) as Hv.
  { apply NoDup_app in Hnd as (_ & Hdisj & _). intros Hin.
    apply (Hdisj v Hin). by left. }
  rewrite IH; rewrite nodes_adj_default, decide_False by done.
  - by rewrite <-(assoc_L (++)).
  - by rewrite <-(assoc_L (++)).
Qed.

Lemma simple_foldl_adj_default g vs :
  simple g → simple (foldl adj_default g vs).
Proof.
  revert g. induction vs as [|v vs IH]; intros g Hg; simpl; [done|].
  apply IH. by constructor.
Qed.

Lemma neighbors_foldl_adj_default g vs a :
  neighbors (foldl adj_default g vs) a = neighbors g a.
Proof.
  revert g. induction vs as [|v vs IH]; intros g; simpl; [done|].
  by rewrite IH, neighbors_adj_default.
Qed.

Lemma vertex_names_NoDup n : NoDup (vertex_name <$> seq 0 n).
Proof.
  apply NoDup_fmap_2; [|apply NoDup_seq].
  intros i j. apply vertex_name_inj.
Qed.

Lemma elem_of_pairs n i j : (i, j) ∈ pairs n ↔ i < j < n.
Proof.
  unfold pairs. rewrite list_elem_of_bind. split.
  - intros (i' & Hj & Hi). apply list_elem_of_fmap in Hj as (j' & [= -> ->] & Hj).
    apply elem_of_seq in Hi, Hj. lia.
  - intros Hij. exists i. split.
    + apply list_elem_of_fmap. exists j. split; [done|].
      apply elem_of_seq. lia.
    + apply elem_of_seq. lia.
Qed.

Lemma pairs_NoDup n : NoDup (pairs n).
Proof.
  unfold pairs. apply NoDup_bind.
  - intros i1 i2 p _ _ (j1 & -> & _)%list_elem_of_fmap
      (j2 & [= -> _] & _)%list_elem_of_fmap. done.
  - intros i _. apply NoDup_fmap_2; [|apply NoDup_seq].
    by intros j1 j2 [= ->].
  - apply NoDup_seq.
Qed.

Lemma random_edges_pairs n rnd g :
  random_edges n rnd g = foldl (random_edge rnd) g (pairs n).
Proof.
  unfold random_edges, pairs. generalize (seq 0 n). intros l. revert g.
  induction l as [|i l IH]; intros g; [done|].
  rewrite bind_cons, foldl_app. simpl. rewrite <-IH. f_equal.
  generalize (seq (i + 1) (n - (i + 1))). intros js. revert g.
  induction js as [|j js IHj]; intros g; [done|].
  simpl. apply IHj.
Qed.

Lemma neighbors_random_edges rnd ps g a b :
  b ∈ neighbors (foldl (random_edge rnd) g ps) a ↔
  b ∈ neighbors g a ∨
  ∃ i j, (i, j) ∈ ps ∧ coin rnd i j = true ∧
         ((a = vertex_name i ∧ b = vertex_name j) ∨
          (a = vertex_name j ∧ b = vertex_name i)).
Proof.
  induction ps as [|[i j] ps IH] using rev_ind; simpl.
  { split; [by left|]. intros [?|(i & j & ?%elem_of_nil & _)]; done. }
  rewrite foldl_app. simpl. unfold random_edge at 1. simpl.
  destruct (coin rnd i j) eqn:Hc.
  - rewrite neighbors_add_edge, IH. split.
    + intros [[?|(i' & j' & Hin & ?)]|Hnew]; [by left | |].
      * right. exists i', j'. split; [|done]. apply elem_of_app. by left.
      * right. exists i, j. split; [|done].
        apply elem_of_app. right. by apply list_elem_of_singleton.
    + intros [?|(i' & j' & [Hin|Hin%list_elem_of_singleton]%elem_of_app
                     & Hc' & Hab)]; [by left; left | |].
      * left. right. by exists i', j'.
      * injection Hin as -> ->. by right.
  - rewrite IH. split.
    + intros [?|(i' & j' & Hin & ?)]; [by left|].
      right. exists i', j'. split; [|done]. apply elem_of_app. by left.
    + intros [?|(i' & j' & [Hin|Hin%list_elem_of_singleton]%elem_of_app
                     & Hc' & Hab)]; [by left | |].
      * right. by exists i', j'.
      * injection Hin as -> ->. congruence.
Qed.

Lemma simple_random_edges rnd ps g :
  (∀ i j, (i, j) ∈ ps → i < j) → simple g →
  simple (foldl (random_edge rnd) g ps).
Proof.
  intros Hlt Hg. apply foldl_inv; [|done].
  intros g' [i j] Hin Hg'. unfold random_edge. simpl.
  destruct (coin rnd i j); [|done]. constructor; [done|].
  intros Heq%vertex_name_inj. specialize (Hlt _ _ Hin). lia.
Qed.

Lemma nodes_random_edges rnd ps g :
  (∀ i j, (i, j) ∈ ps →
     vertex_name i ∈ nodes g ∧ vertex_name j ∈ nodes g) →
  nodes (foldl (random_edge rnd) g ps) = nodes g.
Proof.
  intros Hin. apply (foldl_inv _ (λ g', nodes g' = nodes g)); [|done].
  intros g' [i j] Hp Hg'. unfold random_edge. simpl.
  destruct (coin rnd i j); [|done].
  destruct (Hin _ _ Hp) as [Hi Hj].
  rewrite nodes_add_edge, Hg'.
  rewrite !decide_True by auto. by rewrite !app_nil_r.
Qed.

Lemma edge_weight_random_edges rnd ps g i j :
  (∀ i' j', (i', j') ∈ ps → i' < j') →
  (i, j) ∈ ps → coin rnd i j = true →
  edge_weight (foldl (random_edge rnd) g ps) (vertex_name i) (vertex_name j)
    = Z.of_nat (randint 1 10 (raw_weight rnd i j)) ∧
  edge_weight (foldl (random_edge rnd) g ps) (vertex_name j) (vertex_name i)
    = Z.of_nat (randint 1 10 (raw_weight rnd i j)).
Proof.
  intros Hlt Hin Hc.
  induction ps as [|[i' j'] ps IH] using rev_ind.
  { by apply elem_of_nil in Hin. }
  rewrite foldl_app. simpl. unfold random_edge at 1 3. simpl.
  assert (i < j) as Hij by (by apply Hlt).
  assert (i' < j') as Hij'.
  { apply Hlt, elem_of_app. right. by apply list_elem_of_singleton. }
  destruct (decide ((i', j') = (i, j))) as [[= -> ->]|Hne].
  { rewrite Hc, !edge_weight_add_edge.
    by rewrite !decide_True by auto. }
  assert ((i, j) ∈ ps) as Hin'.
  { apply elem_of_app in Hin as [?|Heq%list_elem_of_singleton]; [done|].
    congruence. }
  assert (∀ i0 j0, (i0, j0) ∈ ps → i0 < j0) as Hlt'.
  { intros. apply Hlt, elem_of_app. by left. }
  specialize (IH Hlt' Hin').
  destruct (coin rnd i' j'); [|done].
  rewrite !edge_weight_add_edge.
  rewrite !decide_False; [done | |].
  - intros [[?%vertex_name_inj ?%vertex_name_inj]
           |[?%vertex_name_inj ?%vertex_name_inj]]; subst; [lia | done].
  - intros [[?%vertex_name_inj ?%vertex_name_inj]
           |[?%vertex_name_inj ?%vertex_name_inj]]; subst; [done | lia].
Qed.

Lemma degree_sum_no_edges g : (∀ a, neighbors g a = []) → degree_sum g = 0.
Proof.
  intros Hg. unfold degree_sum.
  induction (nodes g) as [|v l IH]; [done|]. csimpl. rewrite IH.
  specialize (Hg v). unfold neighbors, dict_keys in Hg.
  apply fmap_nil_inv in Hg. by rewrite Hg.
Qed.

Lemma degree_sum_random_edges rnd ps g :
  simple g → (∀ a, neighbors g a = []) →
  NoDup ps → (∀ i j, (i, j) ∈ ps → i < j) →
  degree_sum (foldl (random_edge rnd) g ps)
    = 2 * length (filter (λ p, coin rnd p.1 p.2 = true) ps).
Proof.
  intros Hg Hempty Hnd Hlt.
  induction ps as [|[i j] ps IH] using rev_ind.
  { simpl. by apply degree_sum_no_edges. }
  apply NoDup_app in Hnd as (Hnd & Hdisj & _).
  assert (∀ i0 j0, (i0, j0) ∈ ps → i0 < j0) as Hlt'.
  { intros. apply Hlt, elem_of_app. by left. }
  specialize (IH Hnd Hlt').
  assert (i < j) as Hij.
  { apply Hlt, elem_of_app. right. by apply list_elem_of_singleton. }
  rewrite foldl_app, filter_app, length_app. simpl.
  unfold random_edge at 1. simpl.
  rewrite filter_cons. simpl. destruct (coin rnd i j) eqn:Hc.
  - rewrite decide_True by done. simpl.
    pose proof (simple_random_edges rnd ps g Hlt' Hg) as Hs.
    destruct (built_is_well_formed _ (simple_built _ Hs)) as (Hnd' & _).
    rewrite degree_sum_add_edge by done.
    assert (∀ a b, (a = i ∧ b = j) ∨ (a = j ∧ b = i) →
      vertex_name b ∉ neighbors (foldl (random_edge rnd) g ps)
                        (vertex_name a)) as Hnew.
    { intros a b Hab. rewrite neighbors_random_edges, Hempty.
      intros [?%elem_of_nil|(i' & j' & Hin & _ & Hn)]; [done|].
      specialize (Hlt' _ _ Hin).
      assert ((i', j') = (i, j)) as Heq.
      { destruct Hab as [[-> ->]|[-> ->]];
          destruct Hn as [[?%vertex_name_inj ?%vertex_name_inj]
                         |[?%vertex_name_inj ?%vertex_name_inj]];
          subst; try done; lia. }
      rewrite Heq in Hin. apply (Hdisj _ Hin).
      by apply list_elem_of_singleton. }
    rewrite decide_False by (apply Hnew; by left).
    rewrite decide_False.
    + rewrite IH. lia.
    + intros [Hn|?%vertex_name_inj]; [|lia].
      revert Hn. apply Hnew. by right.
  - rewrite decide_False by done. simpl. rewrite IH. lia.
Qed.

Lemma assign_labels_is_Some label_pool kmax rnd todo labels :
  is_Some (assign_labels label_pool kmax rnd todo labels) ↔
  ∀ i, i ∈ todo → randint 1 kmax (raw_k rnd i) ≤ length label_pool.
Proof.
  revert labels. induction todo as [|i todo IH]; intros labels; simpl.
  { split; [|done]. by intros _ i ?%elem_of_nil. }
  unfold sample. destruct (decide _) as [Hk|Hk].
  - rewrite IH. split.
    + intros H j [->|?]%elem_of_cons; auto.
    + intros H j ?. apply H. by right.
  - split; [by intros []|]. intros H. destruct Hk. apply H. by left.
Qed.

Lemma assign_labels_lookup label_pool kmax rnd todo labels labels' :
  assign_labels label_pool kmax rnd todo labels = Some labels' →
  (∀ i, i ∈ todo →
     labels' !! vertex_name i
       = Some (list_to_set (omap (λ p, label_pool !! p) (positions rnd i)))) ∧
  (∀ v, (∀ i, i ∈ todo → v ≠ vertex_name i) → labels' !! v = labels !! v).
Proof.
  revert labels. induction todo as [|i todo IH]; intros labels; simpl.
  { intros [= ->]. split; [|done]. by intros i ?%elem_of_nil. }
  unfold sample. destruct (decide _) as [Hk|Hk]; [|done].
  intros [IH1 IH2]%IH. split.
  - intros j [->|Hj]%elem_of_cons; [|by apply IH1].
    destruct (decide (i ∈ todo)) as [Hi|Hi]; [by apply IH1|].
    rewrite IH2, lookup_insert_eq; [done|].
    intros j Hj ->%vertex_name_inj. done.
  - intros v Hv. rewrite IH2.
    + rewrite lookup_insert_ne; [done|]. intros <-.
      apply (Hv i); [|done]. apply elem_of_cons. by left.
    + intros j Hj. apply (Hv j). apply elem_of_cons. by right.
Qed.

Lemma size_list_to_set_le (l : list label) :
  size (list_to_set l : labelset) ≤ length l.
Proof.
  induction l as [|x l IH].
  { by rewrite list_to_set_nil, size_empty. }
  rewrite list_to_set_cons, size_union_alt, size_singleton. simpl.
  apply le_n_S. etrans; [|apply IH]. apply subseteq_size. set_solver.
Qed.

Lemma omap_lookup_length {A} (pool : list A) (pos : list nat) :
  (∀ p, p ∈ pos → p < length pool) →
  length (omap (λ p, pool !! p) pos) = length pos.
Proof.
  induction pos as [|p pos IH]; intros Hpos; [done|]. simpl.
  destruct (lookup_lt_is_Some_2 pool p) as [x Hx].
  { apply Hpos. by left. }
  rewrite Hx. simpl. f_equal. apply IH.
  intros q ?. apply Hpos. apply elem_of_cons. by right.
Qed.

Lemma omap_lookup_NoDup {A} (pool : list A) (pos : list nat) :
  NoDup pool → NoDup pos → NoDup (omap (λ p, pool !! p) pos).
Proof.
  intros Hpool. induction 1 as [|p pos Hp Hnd IH]; simpl; [constructor|].
  destruct (pool !! p) as [x|] eqn:Hx; [|done]. simpl.
  constructor; [|done].
  intros (q & Hq & Hx')%list_elem_of_omap.
  assert (p = q) as ->; [|done].
  by apply (NoDup_lookup pool p q x).
Qed.

(** The labels drawn for one vertex. *)
Lemma drawn_labels label_pool (pos : list nat) k :
  length pos = k → 1 ≤ k → (∀ p, p ∈ pos → p < length label_pool) →
  let X : labelset := list_to_set (omap (λ p, label_pool !! p) pos) in
  X ≠ ∅ ∧ X ⊆ list_to_set label_pool ∧ size X ≤ k ∧
  (NoDup label_pool → NoDup pos → size X = k).
Proof.
  intros Hlen Hk Hpos X. split_and!.
  - destruct pos as [|p pos]; simpl in *; [lia|].
    destruct (lookup_lt_is_Some_2 label_pool p) as [x Hx].
    { apply Hpos. by left. }
    unfold X. simpl. rewrite Hx. simpl. set_solver.
  - unfold X. intros x (p & Hp & Hx)%elem_of_list_to_set%list_elem_of_omap.
    apply elem_of_list_to_set. by eapply list_elem_of_lookup_2.
  - unfold X. etrans; [apply size_list_to_set_le|].
    rewrite omap_lookup_length by done. lia.
  - intros Hpool Hnd. unfold X.
    rewrite size_list_to_set by by apply omap_lookup_NoDup.
    by rewrite omap_lookup_length.
Qed.

Lemma generate_Some num_vertices label_pool kmax rnd g labels :
  generate num_vertices label_pool kmax rnd = Some (g, labels) →
  g = foldl (random_edge rnd)
        (foldl adj_default [] (vertex_name <$> seq 0 num_vertices))
        (pairs num_vertices) ∧
  assign_labels label_pool kmax rnd (seq 0 num_vertices) ∅ = Some labels.
Proof.
  unfold generate. destruct (assign_labels _ _ _ _ _) as [l|]; [|done].
  intros [= <- <-]. by rewrite random_edges_pairs.
Qed.

Lemma generate_is_Some num_vertices label_pool kmax rnd :
  is_Some (generate num_vertices label_pool kmax rnd) ↔
  ∀ i, i < num_vertices → randint 1 kmax (raw_k rnd i) ≤ length label_pool.
Proof.
  unfold generate.
  pose proof (assign_labels_is_Some label_pool kmax rnd
                (seq 0 num_vertices) ∅) as Hl.
  destruct (assign_labels _ _ _ _ _) as [l|].
  - split; [|done]. intros _ i Hi. apply Hl; [done|]. apply elem_of_seq. lia.
  - split; [by intros []|]. intros H.
    destruct (proj2 Hl) as [? ?]; [|done].
    intros i Hi%elem_of_seq. apply H. lia.
Qed.

(** The graph that the edge loops leave. *)
Lemma generated_graph rnd n :
  let g := foldl (random_edge rnd)
        (foldl adj_default [] (vertex_name <$> seq 0 n)) (pairs n) in
  nodes g = vertex_name <$> seq 0 n ∧ simple g ∧
  (∀ a b, b ∈ neighbors g a ↔
     ∃ i j, i < j < n ∧ coin rnd i j = true ∧
       ((a = vertex_name i ∧ b = vertex_name j) ∨
        (a = vertex_name j ∧ b = vertex_name i))) ∧
  (∀ i j, i < j < n → coin rnd i j = true →
     edge_weight g (vertex_name i) (vertex_name j)
       = Z.of_nat (randint 1 10 (raw_weight rnd i j)) ∧
     edge_weight g (vertex_name j) (vertex_name i)
       = Z.of_nat (randint 1 10 (raw_weight rnd i j))) ∧
  degree_sum g = 2 * length (filter (λ p, coin rnd p.1 p.2 = true) (pairs n)).
Proof.
  intros g.
  assert (nodes (foldl adj_default [] (vertex_name <$> seq 0 n))
          = vertex_name <$> seq 0 n) as Hnodes.
  { rewrite nodes_foldl_adj_default; [done|]. apply vertex_names_NoDup. }
  assert (simple (foldl adj_default [] (vertex_name <$> seq 0 n))) as Hs.
  { apply simple_foldl_adj_default. constructor. }
  assert (∀ a, neighbors (foldl adj_default [] (vertex_name <$> seq 0 n)) a
               = []) as Hempty.
  { intros a. by rewrite neighbors_foldl_adj_default. }
  assert (∀ i j, (i, j) ∈ pairs n → i < j) as Hlt.
  { intros i j ?%elem_of_pairs. lia. }
  split_and!.
  - unfold g. rewrite nodes_random_edges; [done|].
    intros i j Hij%elem_of_pairs. rewrite Hnodes.
    split; apply list_elem_of_fmap_2, elem_of_seq; lia.
  - by apply simple_random_edges.
  - intros a b. unfold g. rewrite neighbors_random_edges, Hempty. split.
    + intros [?%elem_of_nil|(i & j & Hij%elem_of_pairs & ?)]; [done|].
      by exists i, j.
    + intros (i & j & Hij%elem_of_pairs & ?). right. by exists i, j.
  - intros i j Hij Hc. apply edge_weight_random_edges; [done| |done].
    by apply elem_of_pairs.
  - apply degree_sum_random_edges; [done..|apply pairs_NoDup|done].
Qed.



Lemma letters_length n : length (letters n) = n.
Proof. unfold letters. by rewrite length_fmap, length_seq. Qed.

Lemma generated_either n label_pool rnd g labels :
  generate_graph_basic n label_pool rnd = Some (g, labels) ∨
  generate_graph_pruned n label_pool rnd = Some (g, labels) →
  g = foldl (random_edge rnd)
        (foldl adj_default [] (vertex_name <$> seq 0 n)) (pairs n).
Proof. by intros [[-> _]%generate_Some|[-> _]%generate_Some]. Qed.

Lemma generate_labels n label_pool kmax rnd g labels :
  generate n label_pool kmax rnd = Some (g, labels) →
  1 ≤ kmax → sample_ok label_pool kmax rnd n →
  (∀ v, v ∉ nodes g → labels !! v = None) ∧
  ∀ v, v ∈ nodes g →
    ∃ X, labels !! v = Some X ∧ S_get labels v = X ∧
         X ≠ ∅ ∧ X ⊆ list_to_set label_pool ∧ 1 ≤ size X ≤ kmax.
Proof.
  intros Hgen Hkmax Hok.
  destruct (generate_Some _ _ _ _ _ _ Hgen) as [-> Hlab].
  destruct (generated_graph rnd n) as (Hnodes & _).
  rewrite Hnodes. clear Hnodes.
  apply assign_labels_lookup in Hlab as [Hin Hout]. split.
  - intros v Hv. rewrite Hout; [done|].
    intros i Hi%elem_of_seq ->. apply Hv.
    apply list_elem_of_fmap_2, elem_of_seq. lia.
  - intros v (i & -> & Hi%elem_of_seq)%list_elem_of_fmap.
    destruct (Hok i) as (Hlen & Hnd & Hpos); [lia|].
    pose proof (randint_bounds 1 kmax (raw_k rnd i) Hkmax) as Hk.
    destruct (drawn_labels label_pool (positions rnd i) _ Hlen)
      as (Hne & Hsub & Hsize & _); [lia | done |].
    eexists. split; [apply Hin, elem_of_seq; lia|].
    split; [unfold S_get; by rewrite Hin by (apply elem_of_seq; lia)|].
    split_and!; [done | done | | etrans; [apply Hsize|lia]].
    apply Nat.le_succ_l, Nat.neq_0_lt_0. intros Hz.
    by apply size_empty_inv, leibniz_equiv in Hz.
Qed.



(** X9. The graph that [generate_graph] returns (either module) has the
    vertices [v0 .. v(n-1)] in this order, each once; two vertices are
    adjacent exactly when they are [vi] and [vj] for a pair [i < j] for
    which [random.random() < edge_prob] held, so adjacency is symmetric, no
    vertex is adjacent to itself and every neighbour is a vertex of the
    graph. *)
Theorem generate_graph_shape (num_vertices : nat)
    (label_pool : option (list label)) (rnd : randomness) (g : graph)
    (labels : gmap vertex labelset) :
  generate_graph_basic num_vertices label_pool rnd = Some (g, labels) ∨
  generate_graph_pruned num_vertices label_pool rnd = Some (g, labels) →
  nodes g = vertex_name <$> seq 0 num_vertices ∧
  (∀ a b, b ∈ neighbors g a ↔
     ∃ i j, i < j < num_vertices ∧ coin rnd i j = true ∧
       ((a = vertex_name i ∧ b = vertex_name j) ∨
        (a = vertex_name j ∧ b = vertex_name i))) ∧
  well_formed g ∧ loop_free g.
Proof.
  intros ->%generated_either.
  destruct (generated_graph rnd num_vertices) as (Hnodes & Hs & Hadj & _).
  split_and!; [done | done | |].
  - by apply built_is_well_formed, simple_built.
  - by apply simple_loop_free.
Qed.

Lemma dice_basic : generate_graph_basic 3 None dice = Some (chain, chain_S).
Proof. vm_compute. reflexivity. Defined.

Lemma dice_pruned : generate_graph_pruned 3 None dice = Some (chain, chain_S).
Proof. vm_compute. reflexivity. Defined.

Lemma generate_graph_shape_witness :
  (generate_graph_basic 3 None dice = Some (chain, chain_S) ∨
   generate_graph_pruned 3 None dice = Some (chain, chain_S)) ∧
  nodes chain = vertex_name <$> seq 0 3 ∧
  (∀ a b, b ∈ neighbors chain a ↔
     ∃ i j, i < j < 3 ∧ coin dice i j = true ∧
       ((a = vertex_name i ∧ b = vertex_name j) ∨
        (a = vertex_name j ∧ b = vertex_name i))) ∧
  well_formed chain ∧ loop_free chain.
Proof.
  split; [left; exact dice_basic|].
  exact (generate_graph_shape 3 None dice chain chain_S
           (or_introl dice_basic)).
Defined.

Lemma generated_weights rnd n a b :
  let g := foldl (random_edge rnd)
        (foldl adj_default [] (vertex_name <$> seq 0 n)) (pairs n) in
  b ∈ neighbors g a →
  (1 ≤ edge_weight g a b ≤ 10)%Z ∧ edge_weight g b a = edge_weight g a b.
Proof.
  intros g Hb.
  destruct (generated_graph rnd n) as (_ & _ & Hadj & Hw & _).
  apply Hadj in Hb as (i & j & Hij & Hc & Hab).
  destruct (Hw i j Hij Hc) as [Hw1 Hw2].
  pose proof (randint_bounds 1 10 (raw_weight rnd i j)).
  destruct Hab as [[-> ->]|[-> ->]]; fold g in Hw1, Hw2;
    rewrite Hw1, Hw2; lia.
Qed.

Lemma generated_positive rnd n :
  positive_weights (foldl (random_edge rnd)
    (foldl adj_default [] (vertex_name <$> seq 0 n)) (pairs n)).
Proof. intros v u Hu. destruct (generated_weights rnd n v u Hu). lia. Qed.

Lemma generated_undirected rnd n :
  undirected (foldl (random_edge rnd)
    (foldl adj_default [] (vertex_name <$> seq 0 n)) (pairs n)).
Proof.
  destruct (generated_graph rnd n) as (_ & Hs & _).
  by apply built_is_well_formed, simple_built.
Qed.

Lemma pairs_length_from a k :
  2 * length (i ← seq a k; (λ j, (i, j)) <$> seq (i + 1) (a + k - (i + 1)))
    = k * (k - 1).
Proof.
  revert a. induction k as [|k IH]; intros a; [done|].
  rewrite <-cons_seq, bind_cons, length_app, length_fmap, length_seq.
  replace (a + S k) with (S a + k) by lia. rewrite Nat.mul_add_distr_l, IH.
  destruct k; simpl; lia.
Qed.

Lemma pairs_length n : 2 * length (pairs n) = n * (n - 1).
Proof. apply (pairs_length_from 0 n). Qed.

(** X10. Every edge of the graph that [generate_graph] returns (either
    module) carries the weight drawn for its pair, the same in both
    directions, and this weight is an integer between 1 and 10. *)
Theorem generate_graph_weights (num_vertices : nat)
    (label_pool : option (list label)) (rnd : randomness) (g : graph)
    (labels : gmap vertex labelset) :
  generate_graph_basic num_vertices label_pool rnd = Some (g, labels) ∨
  generate_graph_pruned num_vertices label_pool rnd = Some (g, labels) →
  (∀ i j, i < j < num_vertices → coin rnd i j = true →
     edge_weight g (vertex_name i) (vertex_name j)
       = Z.of_nat (randint 1 10 (raw_weight rnd i j)) ∧
     edge_weight g (vertex_name j) (vertex_name i)
       = Z.of_nat (randint 1 10 (raw_weight rnd i j))) ∧
  (∀ v u, u ∈ neighbors g v → (1 ≤ edge_weight g v u ≤ 10)%Z) ∧
  positive_weights g.
Proof.
  intros ->%generated_either.
  destruct (generated_graph rnd num_vertices) as (_ & _ & _ & Hw & _).
  split_and!; [done | |apply generated_positive].
  intros v u Hu. by destruct (generated_weights rnd num_vertices v u Hu).
Qed.

Lemma generate_graph_weights_witness :
  (generate_graph_basic 3 None dice = Some (chain, chain_S) ∨
   generate_graph_pruned 3 None dice = Some (chain, chain_S)) ∧
  (∀ i j, i < j < 3 → coin dice i j = true →
     edge_weight chain (vertex_name i) (vertex_name j)
       = Z.of_nat (randint 1 10 (raw_weight dice i j)) ∧
     edge_weight chain (vertex_name j) (vertex_name i)
       = Z.of_nat (randint 1 10 (raw_weight dice i j))) ∧
  (∀ v u, u ∈ neighbors chain v → (1 ≤ edge_weight chain v u ≤ 10)%Z) ∧
  positive_weights chain.
Proof.
  split; [right; exact dice_pruned|].
  exact (generate_graph_weights 3 None dice chain chain_S
           (or_intror dice_pruned)).
Defined.

(** X11. When [generate_graph] of basic.py returns, the label dictionary
    has exactly the vertices of the graph as keys, and every vertex has a
    set of labels that is not empty, consists of labels of the pool and has
    at most [max(1, len(label_pool) // 2)] elements.  [sample_ok] states
    what [random.sample] picks: as many distinct positions of the pool as
    were asked for. *)
Theorem generate_graph_basic_labels (num_vertices : nat)
    (label_pool : option (list label)) (rnd : randomness) (g : graph)
    (labels : gmap vertex labelset) :
  generate_graph_basic num_vertices label_pool rnd = Some (g, labels) →
  sample_ok (default (letters 6) label_pool)
    (1 `max` (length (default (letters 6) label_pool) / 2))
    rnd num_vertices →
  (∀ v, v ∉ nodes g → labels !! v = None) ∧
  ∀ v, v ∈ nodes g →
    ∃ X, labels !! v = Some X ∧ S_get labels v = X ∧ X ≠ ∅ ∧
         X ⊆ list_to_set (default (letters 6) label_pool) ∧
         1 ≤ size X ≤ 1 `max` (length (default (letters 6) label_pool) / 2).
Proof.
  intros Hgen Hok. eapply generate_labels; [exact Hgen | lia | exact Hok].
Qed.

(** X12. When [generate_graph] of PrunedDP.py returns, the label dictionary
    has exactly the vertices of the graph as keys, and every vertex has one
    or two labels, all of them labels of the pool. *)
Theorem generate_graph_pruned_labels (num_vertices : nat)
    (label_pool : option (list label)) (rnd : randomness) (g : graph)
    (labels : gmap vertex labelset) :
  generate_graph_pruned num_vertices label_pool rnd = Some (g, labels) →
  sample_ok (default (letters 20) label_pool) (1 `max` 2) rnd num_vertices →
  (∀ v, v ∉ nodes g → labels !! v = None) ∧
  ∀ v, v ∈ nodes g →
    ∃ X, labels !! v = Some X ∧ S_get labels v = X ∧ X ≠ ∅ ∧
         X ⊆ list_to_set (default (letters 20) label_pool) ∧
         1 ≤ size X ≤ 2.
Proof.
  intros Hgen Hok.
  by eapply (generate_labels _ _ (1 `max` 2)); [exact Hgen | lia | exact Hok].
Qed.

Lemma dice_sample_ok pool kmax :
  3 ≤ length pool → sample_ok pool kmax dice 3.
Proof.
  intros Hpool i Hi. split_and!.
  - unfold randint. simpl. by rewrite Nat.Div0.mod_0_l.
  - apply NoDup_singleton.
  - intros p ->%list_elem_of_singleton. lia.
Defined.

Lemma generate_graph_basic_labels_witness :
  generate_graph_basic 3 None dice = Some (chain, chain_S) ∧
  sample_ok (default (letters 6) None)
    (1 `max` (length (default (letters 6) None) / 2)) dice 3 ∧
  (∀ v, v ∉ nodes chain → chain_S !! v = None) ∧
  ∀ v, v ∈ nodes chain →
    ∃ X, chain_S !! v = Some X ∧ S_get chain_S v = X ∧ X ≠ ∅ ∧
         X ⊆ list_to_set (default (letters 6) None) ∧
         1 ≤ size X ≤ 1 `max` (length (default (letters 6) None) / 2).
Proof.
  assert (sample_ok (default (letters 6) None)
    (1 `max` (length (default (letters 6) None) / 2)) dice 3) as Hok.
  { apply dice_sample_ok. vm_compute. lia. }
  split; [exact dice_basic|]. split; [exact Hok|].
  exact (generate_graph_basic_labels 3 None dice chain chain_S dice_basic Hok).
Defined.

Lemma generate_graph_pruned_labels_witness :
  generate_graph_pruned 3 None dice = Some (chain, chain_S) ∧
  sample_ok (default (letters 20) None) (1 `max` 2) dice 3 ∧
  (∀ v, v ∉ nodes chain → chain_S !! v = None) ∧
  ∀ v, v ∈ nodes chain →
    ∃ X, chain_S !! v = Some X ∧ S_get chain_S v = X ∧ X ≠ ∅ ∧
         X ⊆ list_to_set (default (letters 20) None) ∧
         1 ≤ size X ≤ 2.
Proof.
  assert (sample_ok (default (letters 20) None) (1 `max` 2) dice 3) as Hok.
  { apply dice_sample_ok. vm_compute. lia. }
  split; [exact dice_pruned|]. split; [exact Hok|].
  exact (generate_graph_pruned_labels 3 None dice chain chain_S dice_pruned
           Hok).
Defined.

(** X13. [graph_size] of the graph that [generate_graph] returns (either
    module) is the number of vertices asked for and the number of pairs
    [i < j] for which an edge was drawn; the latter is at most
    [n * (n - 1) / 2]. *)
Theorem graph_size_generated (num_vertices : nat)
    (label_pool : option (list label)) (rnd : randomness) (g : graph)
    (labels : gmap vertex labelset) :
  generate_graph_basic num_vertices label_pool rnd = Some (g, labels) ∨
  generate_graph_pruned num_vertices label_pool rnd = Some (g, labels) →
  graph_size g =
    (num_vertices,
     length (filter (λ p, coin rnd p.1 p.2 = true) (pairs num_vertices))) ∧
  2 * (graph_size g).2 ≤ num_vertices * (num_vertices - 1).
Proof.
  intros ->%generated_either.
  destruct (generated_graph rnd num_vertices) as (Hnodes & _ & _ & _ & Hdeg).
  assert (graph_size (foldl (random_edge rnd)
            (foldl adj_default [] (vertex_name <$> seq 0 num_vertices))
            (pairs num_vertices)) =
    (num_vertices,
     length (filter (λ p, coin rnd p.1 p.2 = true) (pairs num_vertices))))
    as Hsize.
  { unfold graph_size. rewrite Hnodes, Hdeg, length_fmap, length_seq.
    f_equal. rewrite Nat.mul_comm. apply Nat.div_mul. lia. }
  split; [done|]. rewrite Hsize. cbn [snd].
  rewrite <-pairs_length.
  pose proof (length_filter (λ p, coin rnd p.1 p.2 = true)
                (pairs num_vertices)). lia.
Qed.

Lemma graph_size_generated_witness :
  (generate_graph_basic 3 None dice = Some (chain, chain_S) ∨
   generate_graph_pruned 3 None dice = Some (chain, chain_S)) ∧
  graph_size chain =
    (3, length (filter (λ p, coin dice p.1 p.2 = true) (pairs 3))) ∧
  2 * (graph_size chain).2 ≤ 3 * (3 - 1).
Proof.
  split; [left; exact dice_basic|].
  exact (graph_size_generated 3 None dice chain chain_S
           (or_introl dice_basic)).
Defined.



(** ** The paths of the pruned mode *)

Section pruned_paths.
Context (set_iter : labelset → list label).
Context (g : graph) (P : labelset) (S : gmap vertex labelset).

Lemma entry_walk_nonneg e :
  entry_walk g e → nonneg_weights g → (0 ≤ e_cost e)%Z.
Proof.
  intros [(_ & _ & Hwalk) Hle] Hg. specialize (Hle Hg).
  pose proof (walk_weight_nonneg g _ Hg Hwalk). lia.
Qed.

Lemma walks_inv_record st c v labels path :
  walks_inv g st → entry_walk g (Entry c v labels path) →
  walks_inv g (record st c v labels path).
Proof.
  intros (Hpq & Hvis & Hbest) He. split_and!; simpl; [| |done].
  - intros e' [->|?]%elem_of_heappush; auto.
  - intros Hg k' c' [[-> ->]|?]%dict_set_elem; [|by eapply Hvis].
    apply (entry_walk_nonneg _ He Hg).
Qed.

Lemma walks_inv_pop st e pq' :
  heappop (pq st) = Some (e, pq') → walks_inv g st →
  entry_walk g e ∧ walks_inv g (set_pq st pq').
Proof.
  intros Hpop (Hpq & Hvis & Hbest). split.
  - apply Hpq, (elem_of_heappop _ _ _ _ Hpop). by left.
  - split_and!; [|done..]. simpl. intros e' He'.
    apply Hpq, (elem_of_heappop _ _ _ _ Hpop). by right.
Qed.

Lemma pruned_init_walks : walks_inv g (pruned_init set_iter g P S).
Proof.
  unfold pruned_init. apply foldl_inv.
  - intros st v Hv Hst. unfold pruned_seeds. apply foldl_inv; [|done].
    intros st' lbl _ Hst'. unfold pruned_seed. case_match; [done|].
    apply walks_inv_record; [done|]. split; simpl.
    + by apply walk_singleton.
    + done.
  - split_and!; simpl; [| |done].
    + by intros ? ?%elem_of_nil.
    + by intros _ ? ? ?%elem_of_nil.
Qed.

Lemma pruned_relax_walks e st u :
  entry_walk g e → u ∈ neighbors g (e_v e) →
  walks_inv g st → walks_inv g (pruned_relax g P S e st u).
Proof.
  intros [Hwalk Hle] Hu Hst. unfold pruned_relax.
  destruct (cost_leb _ _); [done|].
  destruct (cost_ltb _ _); [|done].
  apply walks_inv_record; [done|]. split; simpl.
  - by eapply walk_snoc.
  - intros Hg. specialize (Hle Hg).
    rewrite (walk_weight_snoc _ _ (e_v e)) by apply Hwalk. lia.
Qed.

Lemma pruned_merge_walks e st item :
  entry_walk g e → (nonneg_weights g → (0 ≤ item.2)%Z) →
  walks_inv g st → walks_inv g (pruned_merge P e st item).
Proof.
  intros [Hwalk Hle] Hitem Hst. destruct item as [[vv lbls] c].
  unfold pruned_merge.
  destruct (negb (bool_decide (vv = e_v e))); [done|].
  destruct (negb _ || _); [done|].
  destruct (negb _ && _); [|done].
  apply walks_inv_record; [done|]. split; simpl; [done|].
  intros Hg. specialize (Hle Hg). specialize (Hitem Hg). simpl in Hitem. lia.
Qed.

Lemma pruned_expand_walks e st :
  entry_walk g e → walks_inv g st → walks_inv g (pruned_expand g P S e st).
Proof.
  intros He Hst. unfold pruned_expand.
  set (st1 := foldl (pruned_relax g P S e) st (neighbors g (e_v e))).
  assert (walks_inv g st1) as Hst1.
  { apply foldl_inv; [|done]. intros st' u Hu.
    by apply pruned_relax_walks. }
  apply foldl_inv; [|done]. intros st' [k c] Hitem.
  apply pruned_merge_walks; [done|]. simpl.
  intros Hg. destruct Hst1 as (_ & Hvis & _). by eapply Hvis.
Qed.

Lemma pruned_body_walks st e pq' :
  walks_inv g st → heappop (pq st) = Some (e, pq') →
  walks_inv g (pruned_body g P S e (set_pq st pq')).
Proof.
  intros Hst Hpop.
  destruct (walks_inv_pop _ _ _ Hpop Hst) as [He Hst'].
  unfold pruned_body.
  destruct (bool_decide (dict_get _ _ ≠ _)); [done|].
  destruct (cost_leb _ _); [done|].
  destruct (bool_decide (P ⊆ e_labels e)).
  - destruct (cost_ltb _ _); [|done].
    destruct Hst' as (Hpq & Hvis & _). split_and!; [done..|]. simpl.
    exists (e_v e), (e_labels e). by destruct e.
  - destruct (exceeds_two_thirds _ _); [done|].
    by apply pruned_expand_walks.
Qed.

Lemma pruned_dp_walks fuel r :
  pruned_dp set_iter fuel g P S = Some r →
  ∃ st, walks_inv g st ∧ r = (best_cost st, best_path st).
Proof.
  unfold pruned_dp. rewrite pruned_loop_search.
  intros (st & Hrtc & _ & ->)%search_loop_Some.
  exists st. split; [|done].
  eapply pop_steps_inv; [|done|by apply pruned_init_walks].
  intros. by apply pruned_body_walks.
Qed.
End pruned_paths.



(** ** Labels outside the query *)


Section same_labels.
Context (set_iter : labelset → list label).
Context (g : graph) (P : labelset) (S S' : gmap vertex labelset).
Hypothesis same : ∀ v, v ∈ nodes g ∨ (∃ u, v ∈ neighbors g u) →
  S_get S v ∩ P = S_get S' v ∩ P.





End same_labels.



(** ** heapq keeps the heap order *)

Lemma parent_child c pos :
  0 < c ∧ Heapq.parent c = pos ↔ c = 2 * pos + 1 ∨ c = 2 * pos + 2.
Proof.
  unfold Heapq.parent.
  pose proof (Nat.div_mod_eq (c - 1) 2) as Hdiv.
  pose proof (Nat.mod_upper_bound (c - 1) 2) as Hmod.
  split.
  - intros [Hc <-]. lia.
  - intros [-> | ->].
    + split; [lia|]. replace (2 * pos + 1 - 1) with (pos * 2) by lia.
      by rewrite Nat.div_mul.
    + split; [lia|]. replace (2 * pos + 2 - 1) with (1 + pos * 2) by lia.
      by rewrite Nat.div_add.
Qed.

Section heap_order.
Context {A : Type} (lt : A → A → bool) (key : A → Z).
Hypothesis lt_key : ∀ a b, lt a b = true → (key a ≤ key b)%Z.
Hypothesis not_lt_key : ∀ a b, lt a b = false → (key b ≤ key a)%Z.
Implicit Types (heap : list A) (x : A).

Lemma heap_by_root heap r i x :
  heap_by key heap → heap !! 0 = Some r → heap !! i = Some x →
  (key r ≤ key x)%Z.
Proof.
  intros Hheap Hr. revert x.
  induction (lt_wf i) as [i _ IH]. intros x Hx.
  destruct (decide (i = 0)) as [->|Hi]; [simplify_eq; lia|].
  pose proof (parent_lt i) as Hp.
  destruct (lookup_lt_is_Some_2 heap (Heapq.parent i)) as [y Hy].
  { apply lookup_lt_Some in Hx. lia. }
  etrans; [apply (IH (Heapq.parent i)); [lia | exact Hy]|].
  apply (Hheap i); [lia | done..].
Qed.

Lemma hole_heap_insert heap pos x :
  hole_heap key heap pos → hole_heap key (<[pos := x]> heap) pos.
Proof.
  intros [Ha Hb]. split.
  - intros i x' y Hi Hne Hpne. rewrite !list_lookup_insert_ne by done.
    by apply Ha.
  - intros c x' y Hc Hpc Hpos.
    pose proof (parent_lt pos Hpos). pose proof (parent_lt c Hc).
    rewrite !list_lookup_insert_ne by lia. by apply Hb.
Qed.

(** Filling the hole with an item that fits between the parent and the
    children gives a heap. *)
Lemma hole_fill heap pos x :
  hole_heap key heap pos →
  (∀ c z, 0 < c → Heapq.parent c = pos → heap !! c = Some z →
          (key x ≤ key z)%Z) →
  (0 < pos → ∀ y, heap !! Heapq.parent pos = Some y → (key y ≤ key x)%Z) →
  heap_by key (<[pos := x]> heap).
Proof.
  intros [Ha Hb] Hchildren Hparent i x' y Hi Hx' Hy.
  pose proof (parent_lt i Hi) as Hlt.
  destruct (decide (i = pos)) as [->|Hne].
  - rewrite list_lookup_insert_ne in Hy by lia.
    apply list_lookup_insert_Some in Hx' as [(_ & <- & _)|[? _]]; [|done].
    by apply Hparent.
  - rewrite list_lookup_insert_ne in Hx' by done.
    destruct (decide (Heapq.parent i = pos)) as [Hp|Hp].
    + rewrite Hp in Hy.
      apply list_lookup_insert_Some in Hy as [(_ & <- & _)|[? _]]; [|done].
      by apply (Hchildren i).
    + rewrite list_lookup_insert_ne in Hy by done. by apply (Ha i).
Qed.

Lemma siftdown_loop_heap fuel heap newitem pos :
  pos ≤ fuel → pos < length heap → hole_heap key heap pos →
  (∀ c z, 0 < c → Heapq.parent c = pos → heap !! c = Some z →
          (key newitem ≤ key z)%Z) →
  heap_by key (Heapq.siftdown_loop lt fuel heap newitem 0 pos).
Proof.
  revert heap pos.
  induction fuel as [|fuel IH]; intros heap pos Hfuel Hpos Hhole Hchildren;
    simpl.
  { apply hole_fill; [done..|]. lia. }
  destruct (decide (0 < pos)) as [Hlt|]; [|apply hole_fill; [done..|lia]].
  pose proof (parent_lt pos Hlt) as Hp.
  destruct (lookup_lt_is_Some_2 heap (Heapq.parent pos)) as [par Hpar];
    [lia|].
  rewrite Hpar. destruct (lt newitem par) eqn:Hcmp.
  - apply lt_key in Hcmp. destruct Hhole as [Ha Hb].
    apply IH; [lia | rewrite length_insert; lia | |].
    + split.
      * intros i x y Hi Hne Hpne Hx Hy.
        pose proof (parent_lt i Hi) as Hpi.
        destruct (decide (i = pos)) as [->|Hipos]; [done|].
        rewrite list_lookup_insert_ne in Hx by done.
        destruct (decide (Heapq.parent i = pos)) as [Hpp|Hpp].
        -- rewrite Hpp in Hy.
           apply list_lookup_insert_Some in Hy as [(_ & <- & _)|[? _]];
             [|done].
           by apply (Hb i).
        -- rewrite list_lookup_insert_ne in Hy by done. by apply (Ha i).
      * intros c x y Hc Hpc Hppos Hx Hy.
        pose proof (parent_lt _ Hppos) as Hpp.
        rewrite list_lookup_insert_ne in Hy by lia.
        assert (key y ≤ key par)%Z as Hypar.
        { apply (Ha (Heapq.parent pos)); [done | lia | lia | done..]. }
        destruct (decide (c = pos)) as [->|Hcpos].
        -- apply list_lookup_insert_Some in Hx as [(_ & <- & _)|[? _]];
             done.
        -- rewrite list_lookup_insert_ne in Hx by done.
           etrans; [exact Hypar|]. apply (Ha c); [done | done | lia | done |].
           by rewrite Hpc.
    + intros c z Hc Hpc Hz.
      destruct (decide (c = pos)) as [->|Hcpos].
      * apply list_lookup_insert_Some in Hz as [(_ & <- & _)|[? _]]; done.
      * rewrite list_lookup_insert_ne in Hz by done.
        etrans; [exact Hcmp|].
        apply (Ha c); [done | done | lia | done |]. by rewrite Hpc.
  - apply not_lt_key in Hcmp. apply hole_fill; [done..|].
    intros _ y Hy. by simplify_eq.
Qed.

Lemma siftdown_heap heap pos x :
  heap !! pos = Some x → hole_heap key heap pos →
  (∀ c z, 0 < c → Heapq.parent c = pos → heap !! c = Some z →
          (key x ≤ key z)%Z) →
  heap_by key (Heapq.siftdown lt heap 0 pos).
Proof.
  intros Hx Hhole Hchildren. unfold Heapq.siftdown. rewrite Hx.
  apply siftdown_loop_heap; [done | by eapply lookup_lt_Some | done..].
Qed.

Lemma smaller_child_Some heap pos c :
  Heapq.smaller_child lt heap pos = Some c →
  (c = 2 * pos + 1 ∨ c = 2 * pos + 2) ∧ c < length heap ∧
  ∀ s x z, 0 < s → Heapq.parent s = pos →
    heap !! c = Some x → heap !! s = Some z → (key x ≤ key z)%Z.
Proof.
  unfold Heapq.smaller_child.
  destruct (decide (2 * pos + 1 < length heap)) as [Hlen|]; [|done].
  destruct (lookup_lt_is_Some_2 heap (2 * pos + 1) Hlen) as [l Hl].
  rewrite Hl. replace (2 * pos + 1 + 1) with (2 * pos + 2) by lia.
  destruct (heap !! (2 * pos + 2)) as [r|] eqn:Hr.
  - destruct (lt l r) eqn:Hcmp; intros Hc.
    + assert (c = 2 * pos + 1) as -> by congruence. clear Hc.
      apply lt_key in Hcmp. split_and!; [by left | done |].
      intros s x z Hs Hps Hx Hz. rewrite Hl in Hx. injection Hx as <-.
      destruct (proj1 (parent_child s pos) (conj Hs Hps)) as [-> | ->].
      * rewrite Hl in Hz. injection Hz as <-. lia.
      * rewrite Hr in Hz. by injection Hz as <-.
    + assert (c = 2 * pos + 2) as -> by congruence. clear Hc.
      apply not_lt_key in Hcmp. split_and!; [by right | |].
      { by eapply lookup_lt_Some. }
      intros s x z Hs Hps Hx Hz. rewrite Hr in Hx. injection Hx as <-.
      destruct (proj1 (parent_child s pos) (conj Hs Hps)) as [-> | ->].
      * rewrite Hl in Hz. by injection Hz as <-.
      * rewrite Hr in Hz. injection Hz as <-. lia.
  - intros Hc. assert (c = 2 * pos + 1) as -> by congruence. clear Hc.
    split_and!; [by left | done |].
    intros s x z Hs Hps Hx Hz. rewrite Hl in Hx. injection Hx as <-.
    destruct (proj1 (parent_child s pos) (conj Hs Hps)) as [-> | ->].
    + rewrite Hl in Hz. injection Hz as <-. lia.
    + by rewrite Hr in Hz.
Qed.

Lemma smaller_child_None heap pos c :
  Heapq.smaller_child lt heap pos = None →
  0 < c → Heapq.parent c = pos → heap !! c = None.
Proof.
  unfold Heapq.smaller_child.
  destruct (decide (2 * pos + 1 < length heap)) as [Hlen|Hlen].
  { repeat case_match; done. }
  intros _ Hc Hpc. apply lookup_ge_None.
  destruct (proj1 (parent_child c pos) (conj Hc Hpc)); lia.
Qed.

Lemma siftup_loop_hole fuel heap pos heap' leaf :
  length heap ≤ pos + fuel → pos < length heap → hole_heap key heap pos →
  Heapq.siftup_loop lt fuel heap pos = (heap', leaf) →
  hole_heap key heap' leaf ∧ leaf < length heap' ∧
  ∀ c, 0 < c → Heapq.parent c = leaf → heap' !! c = None.
Proof.
  revert heap pos.
  induction fuel as [|fuel IH]; intros heap pos Hfuel Hpos Hhole Hrun;
    [lia|].
  simpl in Hrun.
  destruct (Heapq.smaller_child lt heap pos) as [c|] eqn:Hchild.
  - destruct (smaller_child_Some _ _ _ Hchild) as (Hc & Hclen & Hleast).
    destruct (lookup_lt_is_Some_2 heap c Hclen) as [x Hx].
    rewrite Hx in Hrun.
    assert (0 < c ∧ Heapq.parent c = pos) as [Hc0 Hpc].
    { by apply parent_child. }
    assert (pos < c) as Hposc by (destruct Hc; lia).
    destruct Hhole as [Ha Hb].
    apply IH in Hrun; [done | rewrite length_insert; lia
                      | rewrite length_insert; lia |].
    split.
    + intros i x' y Hi Hne Hpne Hx' Hy.
      pose proof (parent_lt i Hi) as Hpi.
      destruct (decide (i = pos)) as [->|Hipos].
      * rewrite list_lookup_insert_ne in Hy by lia.
        apply list_lookup_insert_Some in Hx' as [(_ & <- & _)|[? _]];
          [|done].
        apply (Hb c); [done | done | lia | done | done].
      * rewrite list_lookup_insert_ne in Hx' by done.
        destruct (decide (Heapq.parent i = pos)) as [Hpp|Hpp].
        -- rewrite Hpp in Hy.
           apply list_lookup_insert_Some in Hy as [(_ & <- & _)|[? _]];
             [|done].
           by apply (Hleast i).
        -- rewrite list_lookup_insert_ne in Hy by done. by apply (Ha i).
    + intros cc x' y Hcc Hpcc _ Hx' Hy.
      pose proof (parent_lt cc Hcc) as Hlt.
      rewrite Hpc in Hy.
      apply list_lookup_insert_Some in Hy as [(_ & <- & _)|[? _]]; [|done].
      rewrite list_lookup_insert_ne in Hx' by lia.
      apply (Ha cc); [done | lia | lia | done |]. by rewrite Hpcc.
  - simplify_eq. split_and!; [done..|].
    intros c Hc Hpc. by eapply smaller_child_None.
Qed.

Lemma siftup_heap heap :
  hole_heap key heap 0 → heap_by key (Heapq.siftup lt heap 0).
Proof.
  intros Hhole. unfold Heapq.siftup.
  destruct (heap !! 0) as [newitem|] eqn:Hnew.
  2: { destruct heap; [|done]. by intros i x y _ ?. }
  destruct (Heapq.siftup_loop lt (length heap) heap 0)
    as [heap' leaf] eqn:Hrun.
  apply siftup_loop_hole in Hrun as (Hhole' & Hleaf & Hnone);
    [|lia | by eapply lookup_lt_Some | done].
  apply (siftdown_heap _ _ newitem).
  - by apply list_lookup_insert_eq.
  - by apply hole_heap_insert.
  - intros c z Hc Hpc Hz. pose proof (parent_lt c Hc).
    rewrite list_lookup_insert_ne in Hz by lia.
    by rewrite (Hnone c) in Hz.
Qed.

Lemma heappush_heap heap x :
  heap_by key heap → heap_by key (Heapq.heappush lt heap x).
Proof.
  intros Hheap. unfold Heapq.heappush.
  apply (siftdown_heap _ _ x).
  - by rewrite lookup_app_r, Nat.sub_diag.
  - split.
    + intros i x' y Hi Hne Hpne Hx' Hy.
      pose proof (parent_lt i Hi) as Hlt.
      assert (i < length heap) as Hilen.
      { apply lookup_lt_Some in Hx'. rewrite length_app in Hx'.
        simpl in Hx'. lia. }
      rewrite lookup_app_l in Hx', Hy by lia. by apply (Hheap i).
    + intros c x' y Hc Hpc _ Hx' _. exfalso.
      apply lookup_lt_Some in Hx'. rewrite length_app in Hx'. simpl in Hx'.
      destruct (proj1 (parent_child c _) (conj Hc Hpc)); lia.
  - intros c z Hc Hpc Hz. exfalso.
    apply lookup_lt_Some in Hz. rewrite length_app in Hz. simpl in Hz.
    destruct (proj1 (parent_child c _) (conj Hc Hpc)); lia.
Qed.

Lemma heappop_heap heap x heap' :
  heap_by key heap → Heapq.heappop lt heap = Some (x, heap') →
  heap_by key heap' ∧ ∀ x', x' ∈ heap' → (key x ≤ key x')%Z.
Proof.
  intros Hheap Hpop. split.
  - unfold Heapq.heappop in Hpop.
    destruct (last heap) as [lastelt|] eqn:Hlast; [|done].
    apply last_Some in Hlast as [front ->].
    rewrite removelast_last in Hpop.
    destruct front as [|returnitem rest]; simplify_eq/=.
    { by intros i x' y _ ?. }
    apply siftup_heap. split; [|lia].
    intros i x' y Hi _ Hpne Hx' Hy.
    pose proof (parent_lt i Hi) as Hlt.
    assert (i < S (length rest)) as Hilen.
    { apply lookup_lt_Some in Hx'. simpl in Hx'. lia. }
    apply (Hheap i); [done | |].
    + destruct i as [|i]; [lia|]. simpl in *.
      rewrite lookup_app_l by lia. done.
    + destruct (Heapq.parent i) as [|pi] eqn:Hpi; [done|]. simpl in *.
      rewrite lookup_app_l by lia. done.
  - intros x' Hx'.
    assert (heap !! 0 = Some x) as Hroot.
    { unfold Heapq.heappop in Hpop.
      destruct (last heap) as [lastelt|] eqn:Hlast; [|done].
      apply last_Some in Hlast as [front ->].
      rewrite removelast_last in Hpop.
      destruct front as [|returnitem rest]; by simplify_eq/=. }
    assert (x' ∈ heap) as [i Hi]%list_elem_of_lookup.
    { rewrite <-(heappop_perm lt _ _ _ Hpop). by right. }
    by eapply heap_by_root.
Qed.
End heap_order.

Lemma entry_lt_cost a b : entry_lt a b = true → (e_cost a ≤ e_cost b)%Z.
Proof.
  unfold entry_lt. destruct (e_cost a =? e_cost b)%Z eqn:Heq; simpl.
  - apply Z.eqb_eq in Heq. lia.
  - intros ?%Z.ltb_lt. lia.
Qed.

Lemma entry_not_lt_cost a b :
  entry_lt a b = false → (e_cost b ≤ e_cost a)%Z.
Proof.
  unfold entry_lt. destruct (e_cost a =? e_cost b)%Z eqn:Heq; simpl.
  - apply Z.eqb_eq in Heq. lia.
  - intros ?%Z.ltb_ge. lia.
Qed.

Lemma cost_heap_push h e : cost_heap h → cost_heap (heappush h e).
Proof.
  apply heappush_heap; [apply entry_lt_cost | apply entry_not_lt_cost].
Qed.

Lemma cost_heap_pop h e h' :
  cost_heap h → heappop h = Some (e, h') →
  cost_heap h' ∧ ∀ e', e' ∈ h' → (e_cost e ≤ e_cost e')%Z.
Proof.
  apply heappop_heap; [apply entry_lt_cost | apply entry_not_lt_cost].
Qed.

(** ** The first covering entry decides the result *)

Lemma cost_heap_nil : cost_heap [].
Proof. by intros i x y _ ?. Qed.

Lemma drain_inv_record st c v labels path :
  drain_inv st → best_cost st = Inf → drain_inv (record st c v labels path).
Proof.
  intros [Hheap _] Hbest. split; simpl.
  - by apply cost_heap_push.
  - by rewrite Hbest.
Qed.

Lemma drain_inv_pop st e pq' :
  drain_inv st → heappop (pq st) = Some (e, pq') →
  drain_inv (set_pq st pq') ∧
  (∀ e', e' ∈ pq' → (e_cost e ≤ e_cost e')%Z) ∧
  cost_le (best_cost st) (Fin (e_cost e)) ∨ best_cost st = Inf.
Proof.
  intros [Hheap Hbest] Hpop.
  destruct (cost_heap_pop _ _ _ Hheap Hpop) as [Hheap' Hmin].
  destruct (best_cost st) as [b|] eqn:Hb; [left|by right].
  split_and!; [|done|].
  - split; [done|]. simpl. rewrite Hb. intros e' He'.
    apply Hbest, (elem_of_heappop _ _ _ _ Hpop). by right.
  - apply cost_le_Fin, Hbest, (elem_of_heappop _ _ _ _ Hpop). by left.
Qed.

Lemma drain_inv_foldl {B} (f : state → B → state) (l : list B) st :
  (∀ st' b, drain_inv st' → best_cost st' = Inf →
            drain_inv (f st' b) ∧ best_cost (f st' b) = Inf) →
  drain_inv st → best_cost st = Inf →
  drain_inv (foldl f st l) ∧ best_cost (foldl f st l) = Inf.
Proof.
  intros Hf. revert st. induction l as [|b l IH]; intros st Hst Hbest; [done|].
  simpl. destruct (Hf st b Hst Hbest). by apply IH.
Qed.

Section drain.
Context (set_iter : labelset → list label).
Context (g : graph) (P : labelset) (S : gmap vertex labelset).

Lemma basic_init_drain : drain_inv (basic_init g P S).
Proof.
  unfold basic_init.
  apply (drain_inv_foldl (basic_seed P S) (nodes g) init_state);
    [|split; [apply cost_heap_nil | done]|done].
  intros st v Hst Hbest. split; [|done]. by apply drain_inv_record.
Qed.

Lemma pruned_init_drain : drain_inv (pruned_init set_iter g P S).
Proof.
  unfold pruned_init.
  apply (drain_inv_foldl (pruned_seeds set_iter P S) (nodes g) init_state);
    [|split; [apply cost_heap_nil | done]|done].
  intros st v Hst Hbest. unfold pruned_seeds.
  apply drain_inv_foldl; [|done..].
  intros st' lbl Hst' Hbest'. unfold pruned_seed. case_match; [done|].
  split; [|done]. by apply drain_inv_record.
Qed.

(** Once a solution has been found, a turn of the loop only removes the
    popped entry. *)
Lemma body_skips (body : entry → state → state) st e pq' :
  (∀ e st, cost_leb (best_cost st) (Fin (e_cost e)) = true → body e st = st) →
  drain_inv st → heappop (pq st) = Some (e, pq') → best_cost st ≠ Inf →
  body e (set_pq st pq') = set_pq st pq'.
Proof.
  intros Hskip Hst Hpop Hbest.
  destruct (drain_inv_pop _ _ _ Hst Hpop) as [(_ & _ & Hle)|?]; [|done].
  by apply Hskip.
Qed.

Lemma basic_body_skip e st :
  cost_leb (best_cost st) (Fin (e_cost e)) = true → basic_body g P S e st = st.
Proof. intros Hle. unfold basic_body. rewrite Hle. by case_match. Qed.

Lemma pruned_body_skip e st :
  cost_leb (best_cost st) (Fin (e_cost e)) = true →
  pruned_body g P S e st = st.
Proof. intros Hle. unfold pruned_body. rewrite Hle. by case_match. Qed.

Lemma basic_body_drain st e pq' :
  drain_inv st → heappop (pq st) = Some (e, pq') →
  drain_inv (basic_body g P S e (set_pq st pq')).
Proof.
  intros Hst Hpop.
  destruct (drain_inv_pop _ _ _ Hst Hpop) as [(Hst' & _ & Hle)|Hbest].
  { by rewrite basic_body_skip. }
  assert (drain_inv (set_pq st pq')) as Hst'.
  { destruct Hst as [Hheap _]. split; simpl; [|by rewrite Hbest].
    by destruct (cost_heap_pop _ _ _ Hheap Hpop). }
  unfold basic_body.
  destruct (bool_decide (dict_get _ _ ≠ _)); [done|].
  destruct (cost_leb _ _); [done|].
  destruct (bool_decide (P ⊆ e_labels e)).
  - destruct (cost_ltb _ _); [|done].
    split; simpl; [apply Hst'|].
    destruct Hst as [Hheap _].
    by destruct (cost_heap_pop _ _ _ Hheap Hpop).
  - apply drain_inv_foldl; [|done..].
    intros st1 u Hst1 Hbest1. unfold basic_relax.
    destruct (cost_ltb _ _); [|done].
    split; [|done]. by apply drain_inv_record.
Qed.

Lemma pruned_expand_drain e st :
  drain_inv st → best_cost st = Inf →
  drain_inv (pruned_expand g P S e st).
Proof.
  intros Hst Hbest. unfold pruned_expand.
  set (st1 := foldl (pruned_relax g P S e) st (neighbors g (e_v e))).
  assert (drain_inv st1 ∧ best_cost st1 = Inf) as [Hst1 Hbest1].
  { apply drain_inv_foldl; [|done..].
    intros st' u Hst' Hbest'. unfold pruned_relax.
    repeat case_match; try done.
    split; [|done]. by apply drain_inv_record. }
  apply drain_inv_foldl; [|done..].
  intros st' [[vv lbls] c] Hst' Hbest'. unfold pruned_merge.
  repeat case_match; try done.
  split; [|done]. by apply drain_inv_record.
Qed.

Lemma pruned_body_drain st e pq' :
  drain_inv st → heappop (pq st) = Some (e, pq') →
  drain_inv (pruned_body g P S e (set_pq st pq')).
Proof.
  intros Hst Hpop.
  destruct (drain_inv_pop _ _ _ Hst Hpop) as [(Hst' & _ & Hle)|Hbest].
  { by rewrite pruned_body_skip. }
  assert (drain_inv (set_pq st pq')) as Hst'.
  { destruct Hst as [Hheap _]. split; simpl; [|by rewrite Hbest].
    by destruct (cost_heap_pop _ _ _ Hheap Hpop). }
  unfold pruned_body.
  destruct (bool_decide (dict_get _ _ ≠ _)); [done|].
  destruct (cost_leb _ _); [done|].
  destruct (bool_decide (P ⊆ e_labels e)).
  - destruct (cost_ltb _ _); [|done].
    split; simpl; [apply Hst'|].
    destruct Hst as [Hheap _].
    by destruct (cost_heap_pop _ _ _ Hheap Hpop).
  - destruct (exceeds_two_thirds _ _); [done|].
    by apply pruned_expand_drain.
Qed.
End drain.

(** With a solution found the loop empties the frontier and returns it. *)
Lemma search_loop_drain body st c :
  (∀ e st, cost_leb (best_cost st) (Fin (e_cost e)) = true → body e st = st) →
  drain_inv st → best_cost st = Fin c →
  search_loop body (Datatypes.S (length (pq st))) st
    = Some (Fin c, best_path st).
Proof.
  intros Hskip. remember (length (pq st)) as n eqn:Hn. revert st Hn.
  induction n as [|n IH]; intros st Hn Hst Hbest.
  - destruct (pq st) eqn:Hpq; [|done]. simpl. rewrite Hpq.
    by rewrite Hbest.
  - cbn [search_loop].
    destruct (heappop (pq st)) as [[e pq']|] eqn:Hpop.
    + pose proof (heappop_length _ _ _ Hpop) as Hlen.
      rewrite (body_skips body st e pq' Hskip Hst Hpop) by congruence.
      destruct (drain_inv_pop _ _ _ Hst Hpop) as [(Hst' & _)|?];
        [|congruence].
      apply (IH (set_pq st pq')); [simpl; lia | done | done].
    + apply (heappop_None entry_lt) in Hpop. rewrite Hpop in Hn. done.
Qed.

Lemma search_loop_from body st st' fuel r :
  rtc (pop_step body) st st' → search_loop body fuel st' = Some r →
  ∃ fuel', search_loop body fuel' st = Some r.
Proof.
  induction 1 as [|st1 st2 st3 (e & pq' & Hpop & ->) _ IH]; [by exists fuel|].
  intros (fuel' & Hrun)%IH. exists (Datatypes.S fuel'). simpl.
  by rewrite Hpop.
Qed.

Lemma foldl_same_while {B} (f f' : state → B → state) (l : list B) st :
  (∀ st b, best_cost st = Inf →
           f st b = f' st b ∧ best_cost (f st b) = Inf) →
  best_cost st = Inf →
  foldl f st l = foldl f' st l ∧ best_cost (foldl f st l) = Inf.
Proof.
  intros Hf. revert st. induction l as [|b l IH]; intros st Hbest; [done|].
  simpl. destruct (Hf st b Hbest) as [<- Hbest']. by apply IH.
Qed.

Lemma pruned_expand_unpruned g P S e st :
  best_cost st = Inf → pruned_expand g P S e st = unpruned_expand g P S e st.
Proof.
  intros Hbest. unfold pruned_expand, unpruned_expand.
  destruct (foldl_same_while (pruned_relax g P S e) (unpruned_relax g P S e)
              (neighbors g (e_v e)) st) as [<- Hbest1]; [|done|].
  { intros st' u Hbest'. unfold pruned_relax, unpruned_relax.
    rewrite Hbest'. cbn [cost_leb]. by destruct (cost_ltb _ _). }
  apply foldl_same_while; [|done].
  intros st' [[vv lbls] c] Hbest'. unfold pruned_merge, unpruned_merge.
  rewrite Hbest'. cbn [exceeds_two_thirds negb andb].
  by repeat case_match.
Qed.

Lemma pruned_body_unpruned g P S st e pq' :
  drain_inv st → heappop (pq st) = Some (e, pq') →
  pruned_body g P S e (set_pq st pq') = unpruned_body g P S e (set_pq st pq').
Proof.
  intros Hst Hpop. unfold pruned_body, unpruned_body.
  destruct (bool_decide (dict_get _ _ ≠ _)); [done|].
  destruct (cost_leb _ _) eqn:Hle; [done|].
  destruct (bool_decide (P ⊆ e_labels e)); [done|].
  destruct (drain_inv_pop _ _ _ Hst Hpop) as [(_ & _ & Hle')|Hbest].
  { simpl in Hle. unfold cost_le in Hle'. congruence. }
  simpl. rewrite Hbest. simpl. by apply pruned_expand_unpruned.
Qed.

(** X17. [heapq] keeps the frontier a heap by cost: after [heappush] no
    entry costs less than its parent, and [heappop] returns an entry that
    costs no more than any entry it leaves, and leaves a heap.  The order
    of Python's tuples decides by the cost first, so the ties between
    vertices, label sets and paths, where label sets need not be
    comparable, do not disturb the order by cost. *)
Theorem frontier_heap_order (h : list entry) :
  cost_heap h →
  (∀ e, cost_heap (heappush h e)) ∧
  (∀ e h', heappop h = Some (e, h') →
     cost_heap h' ∧ ∀ e', e' ∈ h' → (e_cost e ≤ e_cost e')%Z).
Proof.
  intros Hheap. split.
  - intros e. by apply cost_heap_push.
  - intros e h' Hpop. by apply (cost_heap_pop h).
Qed.

Lemma frontier_heap_order_witness :
  cost_heap three_entries ∧
  (∀ e, cost_heap (heappush three_entries e)) ∧
  (∀ e h', heappop three_entries = Some (e, h') →
     cost_heap h' ∧ ∀ e', e' ∈ h' → (e_cost e ≤ e_cost e')%Z).
Proof.
  assert (cost_heap three_entries) as Hheap.
  { unfold three_entries. repeat apply cost_heap_push. apply cost_heap_nil. }
  split; [exact Hheap|]. exact (frontier_heap_order three_entries Hheap).
Defined.

(** X18. In both searches the first covering entry that is popped decides
    the result, whatever the graph and its weights: once [best_cost] is
    finite, every later turn of the loop stops at [cost >= best_cost], the
    frontier is emptied without any change of the table of visited states,
    and the search returns that cost and path. *)
Theorem first_cover_decides (set_iter : labelset → list label) (g : graph)
    (P : labelset) (S : gmap vertex labelset) (st : state) (c : Z) :
  best_cost st = Fin c →
  (rtc (pop_step (basic_body g P S)) (basic_init g P S) st →
   (∃ fuel, basic fuel g P S = Some (Fin c, best_path st)) ∧
   ∀ st', rtc (pop_step (basic_body g P S)) st st' →
     visited st' = visited st ∧ best_cost st' = Fin c ∧
     best_path st' = best_path st) ∧
  (rtc (pop_step (pruned_body g P S)) (pruned_init set_iter g P S) st →
   (∃ fuel, pruned_dp set_iter fuel g P S = Some (Fin c, best_path st)) ∧
   ∀ st', rtc (pop_step (pruned_body g P S)) st st' →
     visited st' = visited st ∧ best_cost st' = Fin c ∧
     best_path st' = best_path st).
Proof.
  intros Hbest.
  assert (∀ body,
    (∀ e st, cost_leb (best_cost st) (Fin (e_cost e)) = true →
             body e st = st) →
    drain_inv st →
    ∀ st', rtc (pop_step body) st st' →
      visited st' = visited st ∧ best_cost st' = Fin c ∧
      best_path st' = best_path st) as Hdrain.
  { intros body Hskip Hst st' Hrtc. revert Hst Hbest.
    induction Hrtc as [|st1 st2 st3 (e & pq' & Hpop & ->) _ IH];
      intros Hst Hbest; [done|].
    rewrite (body_skips body st1 e pq' Hskip Hst Hpop) in * by congruence.
    destruct (drain_inv_pop _ _ _ Hst Hpop) as [(Hst' & _)|?]; [|congruence].
    by apply IH. }
  split.
  - intros Hreach.
    assert (drain_inv st) as Hst.
    { eapply pop_steps_inv; [|done|apply basic_init_drain].
      intros. by apply basic_body_drain. }
    split; [|by apply Hdrain; [apply basic_body_skip|]].
    unfold basic. setoid_rewrite basic_loop_search.
    eapply search_loop_from; [done|].
    by apply search_loop_drain; [apply basic_body_skip|..].
  - intros Hreach.
    assert (drain_inv st) as Hst.
    { eapply pop_steps_inv; [|done|apply pruned_init_drain].
      intros. by apply pruned_body_drain. }
    split; [|by apply Hdrain; [apply pruned_body_skip|]].
    unfold pruned_dp. setoid_rewrite pruned_loop_search.
    eapply search_loop_from; [done|].
    by apply search_loop_drain; [apply pruned_body_skip|..].
Qed.

Lemma first_cover_decides_witness :
  best_cost (first_pop (basic_body apart {["x"]} apart_S)
               (basic_init apart {["x"]} apart_S)) = Fin 0 ∧
  rtc (pop_step (basic_body apart {["x"]} apart_S))
    (basic_init apart {["x"]} apart_S)
    (first_pop (basic_body apart {["x"]} apart_S)
       (basic_init apart {["x"]} apart_S)) ∧
  ∃ fuel, basic fuel apart {["x"]} apart_S
          = Some (Fin 0,
                  best_path (first_pop (basic_body apart {["x"]} apart_S)
                               (basic_init apart {["x"]} apart_S))).
Proof.
  assert (best_cost (first_pop (basic_body apart {["x"]} apart_S)
                       (basic_init apart {["x"]} apart_S)) = Fin 0) as Hbest.
  { vm_compute. reflexivity. }
  assert (rtc (pop_step (basic_body apart {["x"]} apart_S))
            (basic_init apart {["x"]} apart_S)
            (first_pop (basic_body apart {["x"]} apart_S)
               (basic_init apart {["x"]} apart_S))) as Hreach.
  { apply rtc_once. unfold pop_step, first_pop.
    destruct (heappop (pq (basic_init apart {["x"]} apart_S)))
      as [[e pq']|] eqn:Hpop.
    - exists e, pq'. split; reflexivity.
    - vm_compute in Hpop. discriminate Hpop. }
  split; [exact Hbest|]. split; [exact Hreach|].
  exact (proj1 (proj1 (first_cover_decides elements apart {["x"]} apart_S
                         _ 0 Hbest) Hreach)).
Defined.

(** X19. The pruning of [pruned_dp] never takes effect: the three tests
    against [best_cost] ([new_cost >= best_cost] in the expansion,
    [new_cost <= best_cost * 2 / 3] in the merge, [cost > best_cost * 2 / 3]
    in the loop) are only reached while [best_cost] is still infinite, so
    [pruned_dp] returns what the same search without them returns, after the
    same number of turns of the loop. *)
Theorem pruning_has_no_effect (set_iter : labelset → list label)
    (fuel : nat) (g : graph) (P : labelset) (S : gmap vertex labelset) :
  pruned_dp set_iter fuel g P S = unpruned_dp set_iter fuel g P S.
Proof.
  unfold pruned_dp, unpruned_dp. rewrite pruned_loop_search.
  pose proof (pruned_init_drain set_iter g P S) as Hst.
  revert Hst. generalize (pruned_init set_iter g P S).
  induction fuel as [|fuel IH]; intros st Hst; [done|]. simpl.
  destruct (heappop (pq st)) as [[e pq']|] eqn:Hpop; [|done].
  rewrite <-(pruned_body_unpruned g P S st e pq' Hst Hpop).
  apply IH. by apply pruned_body_drain.
Qed.

(** ** Entries are popped in the order of their costs *)

Section pop_order.
Context (set_iter : labelset → list label).
Context (g : graph) (P : labelset) (S : gmap vertex labelset).
Hypothesis Hg : nonneg_weights g.

Lemma basic_body_pushes e st e' :
  e' ∈ pq (basic_body g P S e st) →
  e' ∈ pq st ∨ (e_cost e ≤ e_cost e')%Z.
Proof.
  unfold basic_body. repeat case_match; try (by left).
  apply (foldl_inv _ (λ st', e' ∈ pq st' →
                             e' ∈ pq st ∨ (e_cost e ≤ e_cost e')%Z));
    [|by left].
  intros st' u Hu IH. unfold basic_relax.
  destruct (cost_ltb _ _); [|done]. simpl.
  intros [->|?]%elem_of_heappush; [|by apply IH].
  right. simpl. specialize (Hg _ _ Hu). lia.
Qed.

Lemma pruned_body_pushes e st e' :
  walks_inv g st → entry_walk g e →
  e' ∈ pq (pruned_body g P S e st) →
  e' ∈ pq st ∨ (e_cost e ≤ e_cost e')%Z.
Proof.
  intros Hst He. unfold pruned_body. repeat case_match; try (by left).
  unfold pruned_expand.
  set (st1 := foldl (pruned_relax g P S e) st (neighbors g (e_v e))).
  assert (walks_inv g st1 ∧
          (e' ∈ pq st1 → e' ∈ pq st ∨ (e_cost e ≤ e_cost e')%Z))
    as [Hst1 Hpq1].
  { apply (foldl_inv _ (λ st', walks_inv g st' ∧
       (e' ∈ pq st' → e' ∈ pq st ∨ (e_cost e ≤ e_cost e')%Z)));
      [|by split; [|left]].
    intros st' u Hu [Hst' IH]. split; [by apply pruned_relax_walks|].
    unfold pruned_relax. destruct (cost_leb (best_cost st') _); [done|].
    destruct (cost_ltb _ _); [|done]. simpl.
    intros [->|?]%elem_of_heappush; [|by apply IH].
    right. simpl. specialize (Hg _ _ Hu). lia. }
  apply (foldl_inv _ (λ st', e' ∈ pq st' →
                             e' ∈ pq st ∨ (e_cost e ≤ e_cost e')%Z));
    [|done].
  intros st' [[vv lbls] c] Hitem IH. unfold pruned_merge.
  destruct (negb (bool_decide (vv = e_v e))); [done|].
  destruct (negb _ || _); [done|].
  destruct (negb _ && _); [|done]. simpl.
  intros [->|?]%elem_of_heappush; [|by apply IH].
  right. simpl. destruct Hst1 as (_ & Hvis & _).
  specialize (Hvis Hg _ _ Hitem). lia.
Qed.
End pop_order.

(** X20. On non-negative weights both searches pop their entries in the
    order of their costs: the entry popped in a turn of the loop costs no
    more than the entry popped in the next turn, because every entry that
    the turn pushes costs at least as much as the entry it expands. *)
Theorem pops_in_order (set_iter : labelset → list label) (g : graph)
    (P : labelset) (S : gmap vertex labelset) (st : state) (e e' : entry)
    (pq' pq'' : list entry) :
  nonneg_weights g → heappop (pq st) = Some (e, pq') →
  (rtc (pop_step (basic_body g P S)) (basic_init g P S) st →
   heappop (pq (basic_body g P S e (set_pq st pq'))) = Some (e', pq'') →
   (e_cost e ≤ e_cost e')%Z) ∧
  (rtc (pop_step (pruned_body g P S)) (pruned_init set_iter g P S) st →
   heappop (pq (pruned_body g P S e (set_pq st pq'))) = Some (e', pq'') →
   (e_cost e ≤ e_cost e')%Z).
Proof.
  intros Hg Hpop. split.
  - intros Hreach Hpop'.
    assert (drain_inv st) as [Hheap _].
    { eapply pop_steps_inv; [|done|apply basic_init_drain].
      intros. by apply basic_body_drain. }
    destruct (cost_heap_pop _ _ _ Hheap Hpop) as [_ Hmin].
    assert (e' ∈ pq (basic_body g P S e (set_pq st pq'))) as Hin.
    { apply (elem_of_heappop _ _ _ _ Hpop'). by left. }
    apply basic_body_pushes in Hin as [Hin|?]; [|done..].
    by apply Hmin.
  - intros Hreach Hpop'.
    assert (drain_inv st) as [Hheap _].
    { eapply pop_steps_inv; [|done|apply pruned_init_drain].
      intros. by apply pruned_body_drain. }
    assert (walks_inv g st) as Hwalks.
    { eapply pop_steps_inv; [|done|apply pruned_init_walks].
      intros. by apply pruned_body_walks. }
    destruct (walks_inv_pop _ _ _ _ Hpop Hwalks) as [He Hwalks'].
    destruct (cost_heap_pop _ _ _ Hheap Hpop) as [_ Hmin].
    assert (e' ∈ pq (pruned_body g P S e (set_pq st pq'))) as Hin.
    { apply (elem_of_heappop _ _ _ _ Hpop'). by left. }
    apply pruned_body_pushes in Hin as [Hin|?]; [|done..].
    by apply Hmin.
Qed.

Lemma pops_in_order_witness :
  nonneg_weights star ∧
  ∃ e pq', heappop (pq (basic_init star xyz star_S)) = Some (e, pq') ∧
    ∀ e' pq'',
      heappop (pq (basic_body star xyz star_S e
                     (set_pq (basic_init star xyz star_S) pq')))
        = Some (e', pq'') →
      (e_cost e ≤ e_cost e')%Z.
Proof.
  assert (nonneg_weights star) as Hg.
  { apply nonneg_weightsb_spec. vm_compute. reflexivity. }
  split; [exact Hg|].
  destruct (heappop (pq (basic_init star xyz star_S))) as [[e pq']|] eqn:Hpop.
  - exists e, pq'. split; [reflexivity|]. intros e' pq''.
    exact (proj1 (pops_in_order elements star xyz star_S
                    (basic_init star xyz star_S) e e' pq' pq'' Hg Hpop)
             (rtc_refl _ _)).
  - vm_compute in Hpop. discriminate Hpop.
Defined.

(** ** The scripts *)

Lemma generate_labels_keys n label_pool kmax rnd g labels v X :
  generate n label_pool kmax rnd = Some (g, labels) →
  labels !! v = Some X → v ∈ nodes g.
Proof.
  intros Hgen Hv.
  destruct (generate_Some _ _ _ _ _ _ Hgen) as [-> Hlab].
  destruct (generated_graph rnd n) as (Hnodes & _).
  rewrite Hnodes. clear Hnodes.
  apply assign_labels_lookup in Hlab as [_ Hout].
  destruct (decide (v ∈ vertex_name <$> seq 0 n)) as [|Hnot]; [done|].
  rewrite Hout in Hv; [done|].
  intros i Hi ->. apply Hnot. by apply list_elem_of_fmap_2.
Qed.

Lemma elem_of_all_labels labels l :
  l ∈ all_labels labels ↔ ∃ v X, labels !! v = Some X ∧ l ∈ X.
Proof.
  unfold all_labels. rewrite merge_sort_Permutation, elem_of_elements.
  rewrite elem_of_union_list. split.
  - intros (X & ([v X'] & -> & Hv)%list_elem_of_fmap & Hl).
    apply elem_of_map_to_list in Hv. by exists v, X'.
  - intros (v & X & Hv & Hl). exists X. split; [|done].
    apply list_elem_of_fmap. exists (v, X). split; [done|].
    by apply elem_of_map_to_list.
Qed.

Lemma sampled_query labels k qpos q l :
  sample (all_labels labels) k qpos = Some q →
  l ∈ (list_to_set q : labelset) →
  ∃ v X, labels !! v = Some X ∧ l ∈ X.
Proof.
  unfold sample. case_decide; [|done]. intros [= <-].
  intros (p & Hp & Hl)%elem_of_list_to_set%list_elem_of_omap.
  apply elem_of_all_labels. by eapply list_elem_of_lookup_2.
Qed.

Lemma sample_min population k qpos :
  is_Some (sample population (k `min` length population) qpos).
Proof. unfold sample. rewrite decide_True by lia. done. Qed.

Lemma graph_size_of_generated rnd n :
  graph_size (foldl (random_edge rnd)
    (foldl adj_default [] (vertex_name <$> seq 0 n)) (pairs n))
  = (n, length (filter (λ p, coin rnd p.1 p.2 = true) (pairs n))).
Proof.
  destruct (generated_graph rnd n) as (Hnodes & _ & _ & _ & Hdeg).
  unfold graph_size. rewrite Hnodes, Hdeg, length_fmap, length_seq.
  f_equal. rewrite Nat.mul_comm. apply Nat.div_mul. lia.
Qed.

Lemma generate_default_Some n k kmax rnd :
  1 ≤ kmax ≤ k → is_Some (generate n (letters k) kmax rnd).
Proof.
  intros Hk. apply generate_is_Some. intros i _. rewrite letters_length.
  pose proof (randint_bounds 1 kmax (raw_k rnd i)). lia.
Qed.

(** X21. The script of basic.py runs through for every number of nodes and
    all outcomes of the random draws: [generate_graph] and the sampling of
    the query raise nothing and the search returns.  It prints the number
    of nodes asked for and the number of edges drawn; every label of the
    query is a label of some vertex of the graph; the cost printed is the
    least weight of a walk that covers the query, and with a finite cost the
    path printed is such a walk of this weight, with [inf] it is empty. *)
Theorem script_basic_runs (n : nat) (rnd : randomness)
    (qpos : list nat) :
  ∃ fuel G labels query cost path,
    generate_graph_basic n None rnd = Some (G, labels) ∧
    main_basic n rnd qpos fuel
      = Some (n,
              length (filter (λ p, coin rnd p.1 p.2 = true) (pairs n)),
              query, cost, path) ∧
    (∀ l, l ∈ query → ∃ v, v ∈ nodes G ∧ l ∈ S_get labels v) ∧
    (∀ p, covering_walk G query labels p →
          cost_le cost (Fin (walk_weight G p))) ∧
    match cost with
    | Fin z => covering_walk G query labels path ∧ walk_weight G path = z
    | Inf => path = []
    end.
Proof.
  unfold main_basic.
  destruct (generate_default_Some n 6 (1 `max` (length (letters 6) / 2))
              rnd) as [[G labels] Hgen].
  { rewrite letters_length. change (6 / 2) with 3. lia. }
  change (generate_graph_basic n None rnd = Some (G, labels)) in Hgen.
  rewrite Hgen.
  pose proof (generated_either n None rnd G labels (or_introl Hgen))
    as HG.
  assert (graph_size G
          = (n, length (filter (λ p, coin rnd p.1 p.2 = true) (pairs n))))
    as Hsize by (rewrite HG; apply graph_size_of_generated).
  rewrite Hsize.
  destruct (sample_min (all_labels labels) 4 qpos) as [q Hq]. rewrite Hq.
  assert (nonneg_weights G) as Hnn.
  { rewrite HG. apply positive_nonneg, generated_positive. }
  destruct (basic_terminates G (list_to_set q) labels Hnn)
    as (fuel & [cost path] & Hrun).
  exists fuel, G, labels, (list_to_set q), cost, path.
  rewrite Hrun. split_and!; [done | done | | |].
  - intros l Hl.
    destruct (sampled_query _ _ _ _ _ Hq Hl) as (v & X & Hv & HlX).
    exists v. split; [by eapply generate_labels_keys|].
    unfold S_get. by rewrite Hv.
  - intros p. by eapply basic_optimal.
  - destruct (basic_sound _ _ _ _ _ Hrun) as (st & [_ Hbest] & [= -> ->]).
    destruct (best_cost st) as [z|] eqn:Hc.
    + by apply (best_ok_covering _ _ _ _ _ Hbest Hc).
    + unfold best_ok in Hbest. by rewrite Hc in Hbest.
Qed.

(** X22. The script of PrunedDP.py runs through for every number of nodes
    and all outcomes of the random draws.  Every label of its query is a
    label of some vertex of the graph; with a finite cost the path printed
    is a walk of the graph that weighs no more than the cost, and some walk
    that covers the query weighs no more than twice the cost; with [inf]
    the path is empty. *)
Theorem script_pruned_runs (set_iter : labelset → list label)
    (n : nat) (rnd : randomness) (qpos : list nat) :
  set_iter_ok set_iter →
  ∃ fuel G labels query cost path,
    generate_graph_pruned n None rnd = Some (G, labels) ∧
    main_pruned set_iter n rnd qpos fuel = Some (query, cost, path) ∧
    (∀ l, l ∈ query → ∃ v, v ∈ nodes G ∧ l ∈ S_get labels v) ∧
    match cost with
    | Fin z =>
        (∃ v, walk G path v) ∧ (walk_weight G path ≤ z)%Z ∧
        ∃ p, covering_walk G query labels p ∧ (walk_weight G p ≤ 2 * z)%Z
    | Inf => path = []
    end.
Proof.
  intros Hiter. unfold main_pruned.
  destruct (generate_default_Some n 20 (1 `max` 2) rnd)
    as [[G labels] Hgen]; [lia|].
  change (generate_graph_pruned n None rnd = Some (G, labels)) in Hgen.
  rewrite Hgen.
  pose proof (generated_either n None rnd G labels (or_intror Hgen))
    as HG.
  destruct (sample_min (all_labels labels) 5 qpos) as [q Hq]. rewrite Hq.
  assert (nonneg_weights G) as Hnn.
  { rewrite HG. apply positive_nonneg, generated_positive. }
  assert (undirected G) as Hsym.
  { rewrite HG. apply generated_undirected. }
  destruct (pruned_dp_terminates set_iter G (list_to_set q) labels Hnn Hiter)
    as (fuel & [cost path] & Hrun).
  exists fuel, G, labels, (list_to_set q), cost, path.
  rewrite Hrun. split_and!; [done | done | |].
  - intros l Hl.
    destruct (sampled_query _ _ _ _ _ Hq Hl) as (v & X & Hv & HlX).
    exists v. split; [by eapply generate_labels_keys|].
    unfold S_get. by rewrite Hv.
  - destruct cost as [z|].
    + destruct (pruned_dp_walks _ _ _ _ _ _ Hrun)
        as (st & (_ & _ & Hbest) & [= Hc Hp]).
      rewrite <-Hc in Hbest. rewrite <-Hp in Hbest.
      destruct Hbest as (v & lbls & Hwalk & Hle). simpl in *.
      split_and!; [by exists v | by apply Hle |].
      by eapply pruned_dp_covering.
    + by eapply pruned_dp_Inf_path.
Qed.

Lemma script_pruned_runs_witness :
  set_iter_ok elements ∧
  ∃ fuel G labels query cost path,
    generate_graph_pruned 3 None dice = Some (G, labels) ∧
    main_pruned elements 3 dice [0; 2] fuel = Some (query, cost, path) ∧
    (∀ l, l ∈ query → ∃ v, v ∈ nodes G ∧ l ∈ S_get labels v) ∧
    match cost with
    | Fin z =>
        (∃ v, walk G path v) ∧ (walk_weight G path ≤ z)%Z ∧
        ∃ p, covering_walk G query labels p ∧ (walk_weight G p ≤ 2 * z)%Z
    | Inf => path = []
    end.
Proof.
  split; [exact set_iter_ok_elements|].
  exact (script_pruned_runs elements 3 dice [0; 2] set_iter_ok_elements).
Defined.

(** ** Completeness of the pruned mode *)


Section pruned_complete.
Context (set_iter : labelset → list label).
Context (g : graph) (P : labelset) (S : gmap vertex labelset).



















End pruned_complete.


